(** * go-push-components: PushQueue, PushStack and PushBatchQueue

    A shallow embedding of the three push components of the package
    [push] and the properties of their dispatch machinery.

    Conventions of the embedding.
    - A Go [int] is a [Z]; [++] and [--] wrap around at 64 bits.
    - A Go slice is the window it shows ([elems]) together with the cells
      of its backing array behind the window ([spare]); slicing and
      indexing panic exactly where the Go runtime does.
    - A method is a function from the receiver to a result: either the
      updated receiver with the trace of what the method did, or a panic.
    - In a trace, [Lock]/[Unlock] are the operations on [mutex], [Call c]
      is an ordinary call of [c] on the running goroutine and [Go c] is
      the statement [go c].
    - Callbacks ([worker], [onOverload], ...) are opaque: the receiver
      only records whether each of them is non-nil. *)

From Stdlib Require Import ZArith Lia Bool String.
From stdpp Require Import base list numbers.

Local Open Scope Z_scope.

(** ** Go integers *)

Module GoInt.

Definition min_int : Z := - 2 ^ 63.
Definition max_int : Z := 2 ^ 63 - 1.

Definition wrap (z : Z) : Z := (z + 2 ^ 63) mod 2 ^ 64 - 2 ^ 63.

(** [x++] and [x--] *)
Definition incr (z : Z) : Z := wrap (z + 1).
Definition decr (z : Z) : Z := wrap (z - 1).

Definition in_range (z : Z) : Prop := min_int <= z <= max_int.

End GoInt.

(** ** Results of a method: normal return or panic *)

Inductive res (T : Type) : Type :=
| Ok (t : T)
| Panic (msg : string).
Arguments Ok {T} t.
Arguments Panic {T} msg.

(** A panic ends the method: [x ← r; k] runs [k] only when [r] returned. *)
#[global] Instance res_bind : MBind res := fun T R k r =>
  match r with
  | Ok t => k t
  | Panic msg => Panic msg
  end.

Definition is_panic {T : Type} (r : res T) : bool :=
  match r with Ok _ => false | Panic _ => true end.

(** Messages of the runtime panics of slice expressions and indexing. *)
Definition slice_bounds : string := "slice bounds out of range"%string.
Definition index_range : string := "index out of range"%string.

(** Message of the runtime panic of [make] with a capacity that is
    negative or more than can be allocated. *)
Definition makeslice_cap : string := "makeslice: cap out of range"%string.

(** Message of the runtime panic of a call of a nil function value. *)
Definition nil_call : string :=
  "invalid memory address or nil pointer dereference"%string.

(** ** The environment of the program

    [Item] is the type of the values clients put ([interface{}], alias
    [QueueItem], [StackItem]); [nil] is its zero value, which fills a
    fresh backing array; [regrow n] is the number of unused cells the
    runtime leaves behind the [n] elements of a slice that [append] had
    to reallocate; [max_cap] is the largest capacity [make] allocates for
    a slice of items (the largest allocation divided by the size of an
    item). *)

Class GoEnv : Type := {
  Item : Type;
  nil : Item;
  regrow : nat -> nat;
  max_cap : Z
}.

(** ** Slices *)

Module Slice.
Section Slice.
Context `{GoEnv}.

Record slice : Type := mk { elems : list Item; spare : list Item }.

Definition len (s : slice) : Z := Z.of_nat (length (elems s)).
Definition cap (s : slice) : Z :=
  Z.of_nat (length (elems s) + length (spare s)).

(** The empty slice on a new backing array of [n] cells. *)
Definition fresh (n : Z) : slice :=
  mk [] (replicate (Z.to_nat n) nil).

(** [make([]Item, 0, n)]: panics when [n] is negative or more than the
    runtime allocates. *)
Definition make (n : Z) : res slice :=
  if (0 <=? n) && (n <=? max_cap) then Ok (fresh n) else Panic makeslice_cap.

(** [s[:hi]]: the bound is the capacity, not the length *)
Definition upto (s : slice) (hi : Z) : res slice :=
  if (0 <=? hi) && (hi <=? cap s)
  then let cells := elems s ++ spare s in
       Ok (mk (take (Z.to_nat hi) cells) (drop (Z.to_nat hi) cells))
  else Panic slice_bounds.

(** [s[lo:]]: the missing upper index is the length *)
Definition from (s : slice) (lo : Z) : res slice :=
  if (0 <=? lo) && (lo <=? len s)
  then Ok (mk (drop (Z.to_nat lo) (elems s)) (spare s))
  else Panic slice_bounds.

(** [s[i]] *)
Definition index (s : slice) (i : Z) : res Item :=
  if (0 <=? i) && (i <? len s)
  then match elems s !! Z.to_nat i with
       | Some x => Ok x
       | None => Panic index_range
       end
  else Panic index_range.

(** [append(s, x)]: in place while there is room, else a new array *)
Definition append (s : slice) (x : Item) : slice :=
  match spare s with
  | _ :: rest => mk (elems s ++ [x]) rest
  | [] => mk (elems s ++ [x]) (replicate (regrow (S (length (elems s)))) nil)
  end.

End Slice.
End Slice.

(** ** Traces *)

Section Traces.
Context {U V : Type}.

(** What is called: the worker with a unit of work, the dispatch method
    ([get] or [pop]), or an event handler. *)
Inductive callee : Type :=
| Worker (u : U)
| Dispatch
| HOverload (v : V)
| HFirstOverload (v : V)
| HDrained.

Inductive event : Type :=
| Lock
| Unlock
| Call (c : callee)
| Go (c : callee).

Definition invoked (e : event) : option callee :=
  match e with
  | Call c | Go c => Some c
  | Lock | Unlock => None
  end.

(** The units the worker was invoked with, in order. *)
Definition worked (tr : list event) : list U :=
  omap (fun e => match invoked e with Some (Worker u) => Some u | _ => None end) tr.

(** The values handed to [onOverload], and to [onFirstOverload]. *)
Definition overloads (tr : list event) : list V :=
  omap (fun e => match invoked e with Some (HOverload v) => Some v | _ => None end) tr.

Definition first_overloads (tr : list event) : list V :=
  omap (fun e => match invoked e with Some (HFirstOverload v) => Some v | _ => None end) tr.

(** How many times [onDrained] was invoked, and how many dispatch
    attempts were started. *)
Definition drained (tr : list event) : nat :=
  length (omap (fun e => match invoked e with Some HDrained => Some tt | _ => None end) tr).

Definition dispatches (tr : list event) : nat :=
  length (omap (fun e => match invoked e with Some Dispatch => Some tt | _ => None end) tr).

(** The calls made on the running goroutine while it holds the mutex.
    [held] is whether the mutex is held when the trace starts. *)
Fixpoint calls_under_lock (held : bool) (tr : list event) : list callee :=
  match tr with
  | [] => []
  | Lock :: tr' => calls_under_lock true tr'
  | Unlock :: tr' => calls_under_lock false tr'
  | Call c :: tr' =>
      if held then c :: calls_under_lock held tr' else calls_under_lock held tr'
  | Go _ :: tr' => calls_under_lock held tr'
  end.

(** A [sync.Mutex] is not reentrant: a goroutine that locks it while
    holding it blocks for ever. [self_deadlock] runs the mutex operations
    of one goroutine's trace and says whether that happens. *)
Fixpoint self_deadlock (held : bool) (tr : list event) : bool :=
  match tr with
  | [] => false
  | Lock :: tr' => if held then true else self_deadlock true tr'
  | Unlock :: tr' => self_deadlock false tr'
  | _ :: tr' => self_deadlock held tr'
  end.

(** The trace of a goroutine whose synchronous calls do something:
    [body c] is what the callee [c] does, on the caller's goroutine, before
    it returns. What a [go] statement starts runs elsewhere. *)
Definition inline (body : callee -> list event) (tr : list event) : list event :=
  flat_map (fun e => match e with
                     | Call c => e :: body c
                     | _ => [e]
                     end) tr.

End Traces.
Arguments callee : clear implicits.
Arguments event : clear implicits.

(** ** PushQueue *)

Module Queue.
Section Queue.
Context `{GoEnv}.

Abbreviation slice := Slice.slice.
Abbreviation trace := (list (event Item Item)).

(** The struct. [worker] and the three handlers say whether the field is
    non-nil; [mutex] shows in the traces. *)
Record PushQueue : Type := mkQ {
  worker : bool;
  concurrency : Z;
  availableWorkers : Z;
  depth : Z;
  items : slice;
  started : bool;
  draining : bool;
  overload : Z;
  dropOldestOnOverload : bool;
  onOverload : bool;
  onFirstOverload : bool;
  onDrained : bool
}.

Definition set_availableWorkers (v : Z) (q : PushQueue) : PushQueue :=
  mkQ (worker q) (concurrency q) v (depth q) (items q) (started q) (draining q)
      (overload q) (dropOldestOnOverload q) (onOverload q) (onFirstOverload q) (onDrained q).
Definition set_items (v : slice) (q : PushQueue) : PushQueue :=
  mkQ (worker q) (concurrency q) (availableWorkers q) (depth q) v (started q) (draining q)
      (overload q) (dropOldestOnOverload q) (onOverload q) (onFirstOverload q) (onDrained q).
Definition set_started (v : bool) (q : PushQueue) : PushQueue :=
  mkQ (worker q) (concurrency q) (availableWorkers q) (depth q) (items q) v (draining q)
      (overload q) (dropOldestOnOverload q) (onOverload q) (onFirstOverload q) (onDrained q).
Definition set_draining (v : bool) (q : PushQueue) : PushQueue :=
  mkQ (worker q) (concurrency q) (availableWorkers q) (depth q) (items q) (started q) v
      (overload q) (dropOldestOnOverload q) (onOverload q) (onFirstOverload q) (onDrained q).
Definition set_overload (v : Z) (q : PushQueue) : PushQueue :=
  mkQ (worker q) (concurrency q) (availableWorkers q) (depth q) (items q) (started q) (draining q)
      v (dropOldestOnOverload q) (onOverload q) (onFirstOverload q) (onDrained q).
Definition set_dropOldestOnOverload (v : bool) (q : PushQueue) : PushQueue :=
  mkQ (worker q) (concurrency q) (availableWorkers q) (depth q) (items q) (started q) (draining q)
      (overload q) v (onOverload q) (onFirstOverload q) (onDrained q).
Definition set_onOverload (v : bool) (q : PushQueue) : PushQueue :=
  mkQ (worker q) (concurrency q) (availableWorkers q) (depth q) (items q) (started q) (draining q)
      (overload q) (dropOldestOnOverload q) v (onFirstOverload q) (onDrained q).
Definition set_onFirstOverload (v : bool) (q : PushQueue) : PushQueue :=
  mkQ (worker q) (concurrency q) (availableWorkers q) (depth q) (items q) (started q) (draining q)
      (overload q) (dropOldestOnOverload q) (onOverload q) v (onDrained q).
Definition set_onDrained (v : bool) (q : PushQueue) : PushQueue :=
  mkQ (worker q) (concurrency q) (availableWorkers q) (depth q) (items q) (started q) (draining q)
      (overload q) (dropOldestOnOverload q) (onOverload q) (onFirstOverload q) v.

(** The buffered items, oldest first. *)
Definition buffer (q : PushQueue) : list Item := Slice.elems (items q).

Definition NewPushQueue (concurrency depth : Z) (worker : bool) : res PushQueue :=
  if concurrency <? 1 then Panic "concurrency must greater than 0"
  else if depth <? 1 then Panic "depth must be greater than 0"
  else
    items ← Slice.make depth;
    Ok (mkQ worker concurrency concurrency depth items
            false false 0 false false false false).

Definition Count (q : PushQueue) : Z := Slice.len (items q).
Definition Depth (q : PushQueue) : Z := depth q.
Definition IsFull (q : PushQueue) : bool := Depth q <=? Count q.
Definition IsStarted (q : PushQueue) : bool := started q.
Definition OverloadCount (q : PushQueue) : Z := overload q.

Definition Start (q : PushQueue) : res (PushQueue * trace) :=
  if negb (worker q) then Panic "no worker set"
  else Ok (set_overload 0 (set_draining false (set_started true q)), []).

Definition Stop (q : PushQueue) : PushQueue * trace :=
  (set_draining false (set_started false q), []).

Definition setDrained (q : PushQueue) : PushQueue * trace :=
  (set_draining false q, if onDrained q then [Go HDrained] else []).

(** [Drain] holds no lock, so its two assignments and its test are
    separate steps for the other goroutines; [Drain] is the one after the
    other. *)
Definition Drain_mark (q : PushQueue) : PushQueue :=
  set_started false (set_draining true q).

Definition Drain_check (q : PushQueue) : PushQueue * trace :=
  if (Count q =? 0) && (availableWorkers q =? concurrency q)
  then setDrained q
  else (q, []).

Definition Drain (q : PushQueue) : PushQueue * trace :=
  Drain_check (Drain_mark q).

Definition Empty (q : PushQueue) : res (PushQueue * trace) :=
  items ← Slice.make (Depth q);
  Ok (set_items items q, [Lock; Unlock]).

Definition DropOldestOnOverload (q : PushQueue) : PushQueue :=
  set_dropOldestOnOverload true q.

(** Registration of the handlers; [f] says whether the function is
    non-nil. *)
Definition OnOverload (f : bool) (q : PushQueue) : PushQueue := set_onOverload f q.
Definition OnFirstOverload (f : bool) (q : PushQueue) : PushQueue := set_onFirstOverload f q.
Definition OnDrained (f : bool) (q : PushQueue) : PushQueue := set_onDrained f q.

(** The end of the overload branch of [Put]: count, then tell the
    handlers, by ordinary calls. *)
Definition overloaded (dropItem : Item) (q : PushQueue) : PushQueue * trace :=
  let q1 := set_overload (GoInt.incr (overload q)) q in
  (q1, (if onOverload q1 then [Call (HOverload dropItem)] else [])
       ++ (if (overload q1 =? 1) && onFirstOverload q1
           then [Call (HFirstOverload dropItem)] else [])).

(** [Put] locks on entry and unlocks, deferred, when it returns. *)
Definition Put (item : Item) (q : PushQueue) : res (PushQueue * trace) :=
  if (Depth q <=? Count q) || draining q then
    if dropOldestOnOverload q then
      first ← Slice.upto (items q) 1;
      dropItem ← Slice.index first 0;
      rest ← Slice.from (items q) 1;
      let q1 := set_items (Slice.append rest item) q in
      let '(q2, tr) := overloaded dropItem q1 in
      Ok (q2, [Lock; Go Dispatch] ++ tr ++ [Unlock])
    else
      let '(q2, tr) := overloaded item q in
      Ok (q2, [Lock] ++ tr ++ [Unlock])
  else
    Ok (set_items (Slice.append (items q) item) q, [Lock; Go Dispatch; Unlock]).

Definition readyToWork (q : PushQueue) : bool :=
  (started q || draining q) && (0 <? availableWorkers q) && (0 <? Slice.len (items q)).

(** [get] up to [q.mutex.Unlock()]: the item taken, if any. *)
Definition get_take (q : PushQueue) : res (PushQueue * option Item * trace) :=
  if negb (readyToWork q) then Ok (q, None, [])
  else if negb (readyToWork q) then Ok (q, None, [Lock; Unlock])
  else
    let q1 := set_availableWorkers (GoInt.decr (availableWorkers q)) q in
    first ← Slice.upto (items q1) 1;
    item ← Slice.index first 0;
    rest ← Slice.from (items q1) 1;
    Ok (set_items rest q1, Some item, [Lock; Unlock]).

Definition workerCompleted (q : PushQueue) : PushQueue * trace :=
  let q1 := if availableWorkers q <? concurrency q
            then set_availableWorkers (GoInt.incr (availableWorkers q)) q
            else q in
  if (availableWorkers q1 =? concurrency q1) && (Slice.len (items q1) =? 0) && draining q1
  then let '(q2, tr) := setDrained q1 in (q2, [Lock] ++ tr ++ [Unlock])
  else (q1, [Lock; Go Dispatch; Unlock]).

(** [doWork] starts a goroutine that calls the worker, waits for it, then
    reports the completion. The call of a nil [worker] panics on that
    goroutine, which ends the program. *)
Definition doWork (item : Item) (q : PushQueue) : res (PushQueue * trace) :=
  if negb (worker q) then Panic nil_call
  else
    let '(q1, tr) := workerCompleted q in
    Ok (q1, [Go (Worker item)] ++ tr).

(** The last statement of [get]. *)
Definition get_rest (q : PushQueue) : trace :=
  if negb (draining q) then [Go Dispatch] else [].

(** [get] run without interruption. *)
Definition get (q : PushQueue) : res (PushQueue * trace) :=
  '(q1, taken, tr1) ← get_take q;
  match taken with
  | None => Ok (q1, tr1)
  | Some item =>
      '(q2, tr2) ← doWork item q1;
      Ok (q2, tr1 ++ tr2 ++ get_rest q2)
  end.

(** The steps the goroutines of a program take on one queue. [TakeStep]
    is the critical section of [get] followed at once by the [go]
    statement of [doWork]; a worker runs between it and the
    [CompletedStep] of the same [get]. The schedules in which other steps
    come between the critical section and the [go] statement are those of
    [QueueGets] below; a run of [step] on a queue with a worker is one of
    its runs ([queue_run_is_a_run_of_gets]). [step] does not look at
    [worker]: the panic of the call of a nil worker is in [doWork] and in
    [QueueGets.step]. *)
Inductive op : Type :=
| PutOp (item : Item)
| TakeStep
| CompletedStep
| RestStep
| StartOp
| StopOp
| DrainOp
| DrainMarkStep
| DrainCheckStep
| EmptyOp
| DropOldestOp
| OnOverloadOp (f : bool)
| OnFirstOverloadOp (f : bool)
| OnDrainedOp (f : bool).

Definition step (o : op) (q : PushQueue) : res (PushQueue * trace) :=
  match o with
  | PutOp item => Put item q
  | TakeStep =>
      '(q1, taken, tr) ← get_take q;
      Ok (q1, tr ++ match taken with Some item => [Go (Worker item)] | None => [] end)
  | CompletedStep => Ok (workerCompleted q)
  | RestStep => Ok (q, get_rest q)
  | StartOp => Start q
  | StopOp => Ok (Stop q)
  | DrainOp => Ok (Drain q)
  | DrainMarkStep => Ok (Drain_mark q, [])
  | DrainCheckStep => Ok (Drain_check q)
  | EmptyOp => Empty q
  | DropOldestOp => Ok (DropOldestOnOverload q, [])
  | OnOverloadOp f => Ok (OnOverload f q, [])
  | OnFirstOverloadOp f => Ok (OnFirstOverload f q, [])
  | OnDrainedOp f => Ok (OnDrained f q, [])
  end.

(** A schedule is run until it ends or a step panics; the result is the
    queue and the trace at that point, and the panic if there was one. *)
Fixpoint run (os : list op) (q : PushQueue) : PushQueue * trace * option string :=
  match os with
  | [] => (q, [], None)
  | o :: os' =>
      match step o q with
      | Panic msg => (q, [], Some msg)
      | Ok (q1, tr1) =>
          let '(q2, tr2, p) := run os' q1 in (q2, tr1 ++ tr2, p)
      end
  end.

End Queue.
End Queue.
Arguments Queue.Empty : simpl never.

(** ** PushStack (pushStack.go)

    The copy of PushStack that follows the package comment in doc.go
    differs from pushStack.go in one point: its [Start] and its [Drain]
    end with [go s.pop()]. *)

Module Stack.
Section Stack.
Context `{GoEnv}.

(** What an overload handler of the stack is handed, as the handler sees
    it behind its [StackItem] parameter: an item of the stack, or a slice
    of items. *)
Inductive handed : Type :=
| ItemItself (item : Item)
| SliceOf (items : list Item).

Abbreviation slice := Slice.slice.
Abbreviation trace := (list (event Item handed)).

Record PushStack : Type := mkS {
  worker : bool;
  concurrency : Z;
  availableWorkers : Z;
  height : Z;
  items : slice;
  started : bool;
  draining : bool;
  overload : Z;
  onOverload : bool;
  onFirstOverload : bool;
  onDrained : bool
}.

Definition set_availableWorkers (v : Z) (s : PushStack) : PushStack :=
  mkS (worker s) (concurrency s) v (height s) (items s) (started s) (draining s)
      (overload s) (onOverload s) (onFirstOverload s) (onDrained s).
Definition set_items (v : slice) (s : PushStack) : PushStack :=
  mkS (worker s) (concurrency s) (availableWorkers s) (height s) v (started s) (draining s)
      (overload s) (onOverload s) (onFirstOverload s) (onDrained s).
Definition set_started (v : bool) (s : PushStack) : PushStack :=
  mkS (worker s) (concurrency s) (availableWorkers s) (height s) (items s) v (draining s)
      (overload s) (onOverload s) (onFirstOverload s) (onDrained s).
Definition set_draining (v : bool) (s : PushStack) : PushStack :=
  mkS (worker s) (concurrency s) (availableWorkers s) (height s) (items s) (started s) v
      (overload s) (onOverload s) (onFirstOverload s) (onDrained s).
Definition set_overload (v : Z) (s : PushStack) : PushStack :=
  mkS (worker s) (concurrency s) (availableWorkers s) (height s) (items s) (started s) (draining s)
      v (onOverload s) (onFirstOverload s) (onDrained s).
Definition set_onOverload (v : bool) (s : PushStack) : PushStack :=
  mkS (worker s) (concurrency s) (availableWorkers s) (height s) (items s) (started s) (draining s)
      (overload s) v (onFirstOverload s) (onDrained s).
Definition set_onFirstOverload (v : bool) (s : PushStack) : PushStack :=
  mkS (worker s) (concurrency s) (availableWorkers s) (height s) (items s) (started s) (draining s)
      (overload s) (onOverload s) v (onDrained s).
Definition set_onDrained (v : bool) (s : PushStack) : PushStack :=
  mkS (worker s) (concurrency s) (availableWorkers s) (height s) (items s) (started s) (draining s)
      (overload s) (onOverload s) (onFirstOverload s) v.

(** The buffered items, bottom (oldest) first. *)
Definition buffer (s : PushStack) : list Item := Slice.elems (items s).

Definition NewPushStack (concurrency height : Z) (worker : bool) : res PushStack :=
  if concurrency <? 1 then Panic "concurrency must greater than 0"
  else if height <? 1 then Panic "height must be greater than 0"
  else
    items ← Slice.make height;
    Ok (mkS worker concurrency concurrency height items
            false false 0 false false false).

Definition Count (s : PushStack) : Z := Slice.len (items s).
Definition Height (s : PushStack) : Z := height s.
Definition IsFull (s : PushStack) : bool := Height s <=? Count s.
Definition IsStarted (s : PushStack) : bool := started s.
Definition Overload (s : PushStack) : Z := overload s.

Definition Start (s : PushStack) : res (PushStack * trace) :=
  if negb (worker s) then Panic "no worker set"
  else Ok (set_overload 0 (set_draining false (set_started true s)), []).

Definition Stop (s : PushStack) : PushStack * trace :=
  (set_draining false (set_started false s), []).

Definition setDrained (s : PushStack) : PushStack * trace :=
  (set_draining false s, if onDrained s then [Go HDrained] else []).

Definition Drain_mark (s : PushStack) : PushStack :=
  set_started false (set_draining true s).

Definition Drain_check (s : PushStack) : PushStack * trace :=
  if (Count s =? 0) && (availableWorkers s =? concurrency s)
  then setDrained s
  else (s, []).

Definition Drain (s : PushStack) : PushStack * trace :=
  Drain_check (Drain_mark s).

Definition Empty (s : PushStack) : res (PushStack * trace) :=
  items ← Slice.make (Height s);
  Ok (set_items items s, [Lock; Unlock]).

Definition OnOverload (f : bool) (s : PushStack) : PushStack := set_onOverload f s.
Definition OnFirstOverload (f : bool) (s : PushStack) : PushStack := set_onFirstOverload f s.
Definition OnDrained (f : bool) (s : PushStack) : PushStack := set_onDrained f s.

(** The end of the overload branch of [Push]: count, then tell the
    handlers, by ordinary calls. [firstItem] is the slice [s.items[:1]],
    and it is the slice that goes to the handlers. *)
Definition overloaded (firstItem : slice) (s : PushStack) : PushStack * trace :=
  let s1 := set_overload (GoInt.incr (overload s)) s in
  (s1, (if onOverload s1
        then [Call (HOverload (SliceOf (Slice.elems firstItem)))] else [])
       ++ (if (overload s1 =? 1) && onFirstOverload s1
           then [Call (HFirstOverload (SliceOf (Slice.elems firstItem)))] else [])).

(** [Push] locks on entry and unlocks, deferred, when it returns. It has
    one overload branch, which takes out the first item added. *)
Definition Push (item : Item) (s : PushStack) : res (PushStack * trace) :=
  if (Height s <=? Count s) || draining s then
    firstItem ← Slice.upto (items s) 1;
    rest ← Slice.from (items s) 1;
    let s1 := set_items (Slice.append rest item) s in
    let '(s2, tr) := overloaded firstItem s1 in
    Ok (s2, [Lock; Go Dispatch] ++ tr ++ [Unlock])
  else
    Ok (set_items (Slice.append (items s) item) s, [Lock; Go Dispatch; Unlock]).

Definition readyToWork (s : PushStack) : bool :=
  (started s || draining s) && (0 <? availableWorkers s) && (0 <? Slice.len (items s)).

(** [pop] up to [s.mutex.Unlock()]: the item taken, if any. *)
Definition pop_take (s : PushStack) : res (PushStack * option Item * trace) :=
  if negb (readyToWork s) then Ok (s, None, [])
  else if negb (readyToWork s) then Ok (s, None, [Lock; Unlock])
  else
    let s1 := set_availableWorkers (GoInt.decr (availableWorkers s)) s in
    let lastIndex := Slice.len (items s1) - 1 in
    top ← Slice.from (items s1) lastIndex;
    item ← Slice.index top 0;
    rest ← Slice.upto (items s1) lastIndex;
    Ok (set_items rest s1, Some item, [Lock; Unlock]).

Definition workerCompleted (s : PushStack) : PushStack * trace :=
  let s1 := if availableWorkers s <? concurrency s
            then set_availableWorkers (GoInt.incr (availableWorkers s)) s
            else s in
  if draining s1 && (availableWorkers s1 =? concurrency s1) && (Slice.len (items s1) =? 0)
  then let '(s2, tr) := setDrained s1 in (s2, [Lock] ++ tr ++ [Unlock])
  else (s1, [Lock; Go Dispatch; Unlock]).

Definition doWork (item : Item) (s : PushStack) : res (PushStack * trace) :=
  if negb (worker s) then Panic nil_call
  else
    let '(s1, tr) := workerCompleted s in
    Ok (s1, [Go (Worker item)] ++ tr).

(** What [pop] does after [s.doWork(item)] has returned:
    [go s.worker(item)], then the next attempt unless draining. *)
Definition pop_rest (item : Item) (s : PushStack) : trace :=
  [Go (Worker item)] ++ (if negb (draining s) then [Go Dispatch] else []).

(** [pop] run without interruption. *)
Definition pop (s : PushStack) : res (PushStack * trace) :=
  '(s1, taken, tr1) ← pop_take s;
  match taken with
  | None => Ok (s1, tr1)
  | Some item =>
      '(s2, tr2) ← doWork item s1;
      Ok (s2, tr1 ++ tr2 ++ pop_rest item s2)
  end.

Inductive op : Type :=
| PushOp (item : Item)
| TakeStep
| CompletedStep
| RestStep (item : Item)
| StartOp
| StopOp
| DrainOp
| DrainMarkStep
| DrainCheckStep
| EmptyOp
| OnOverloadOp (f : bool)
| OnFirstOverloadOp (f : bool)
| OnDrainedOp (f : bool).

Definition step (o : op) (s : PushStack) : res (PushStack * trace) :=
  match o with
  | PushOp item => Push item s
  | TakeStep =>
      '(s1, taken, tr) ← pop_take s;
      Ok (s1, tr ++ match taken with Some item => [Go (Worker item)] | None => [] end)
  | CompletedStep => Ok (workerCompleted s)
  | RestStep item => Ok (s, pop_rest item s)
  | StartOp => Start s
  | StopOp => Ok (Stop s)
  | DrainOp => Ok (Drain s)
  | DrainMarkStep => Ok (Drain_mark s, [])
  | DrainCheckStep => Ok (Drain_check s)
  | EmptyOp => Empty s
  | OnOverloadOp f => Ok (OnOverload f s, [])
  | OnFirstOverloadOp f => Ok (OnFirstOverload f s, [])
  | OnDrainedOp f => Ok (OnDrained f s, [])
  end.

Fixpoint run (os : list op) (s : PushStack) : PushStack * trace * option string :=
  match os with
  | [] => (s, [], None)
  | o :: os' =>
      match step o s with
      | Panic msg => (s, [], Some msg)
      | Ok (s1, tr1) =>
          let '(s2, tr2, p) := run os' s1 in (s2, tr1 ++ tr2, p)
      end
  end.

End Stack.
End Stack.
Arguments Stack.Empty : simpl never.

(** ** PushBatchQueue *)

Module Batch.
Section Batch.
Context `{GoEnv}.

Abbreviation slice := Slice.slice.
(** The worker is handed a batch: a slice of items. *)
Abbreviation trace := (list (event (list Item) Item)).

Record PushBatchQueue : Type := mkB {
  worker : bool;
  concurrency : Z;
  batchSize : Z;
  availableWorkers : Z;
  depth : Z;
  items : slice;
  started : bool;
  draining : bool;
  overload : Z;
  dropOldestOnOverload : bool;
  onOverload : bool;
  onFirstOverload : bool;
  onDrained : bool
}.

Definition set_availableWorkers (v : Z) (q : PushBatchQueue) : PushBatchQueue :=
  mkB (worker q) (concurrency q) (batchSize q) v (depth q) (items q) (started q) (draining q)
      (overload q) (dropOldestOnOverload q) (onOverload q) (onFirstOverload q) (onDrained q).
Definition set_items (v : slice) (q : PushBatchQueue) : PushBatchQueue :=
  mkB (worker q) (concurrency q) (batchSize q) (availableWorkers q) (depth q) v (started q)
      (draining q) (overload q) (dropOldestOnOverload q) (onOverload q) (onFirstOverload q)
      (onDrained q).
Definition set_started (v : bool) (q : PushBatchQueue) : PushBatchQueue :=
  mkB (worker q) (concurrency q) (batchSize q) (availableWorkers q) (depth q) (items q) v
      (draining q) (overload q) (dropOldestOnOverload q) (onOverload q) (onFirstOverload q)
      (onDrained q).
Definition set_draining (v : bool) (q : PushBatchQueue) : PushBatchQueue :=
  mkB (worker q) (concurrency q) (batchSize q) (availableWorkers q) (depth q) (items q)
      (started q) v (overload q) (dropOldestOnOverload q) (onOverload q) (onFirstOverload q)
      (onDrained q).
Definition set_overload (v : Z) (q : PushBatchQueue) : PushBatchQueue :=
  mkB (worker q) (concurrency q) (batchSize q) (availableWorkers q) (depth q) (items q)
      (started q) (draining q) v (dropOldestOnOverload q) (onOverload q) (onFirstOverload q)
      (onDrained q).
Definition set_dropOldestOnOverload (v : bool) (q : PushBatchQueue) : PushBatchQueue :=
  mkB (worker q) (concurrency q) (batchSize q) (availableWorkers q) (depth q) (items q)
      (started q) (draining q) (overload q) v (onOverload q) (onFirstOverload q) (onDrained q).
Definition set_onOverload (v : bool) (q : PushBatchQueue) : PushBatchQueue :=
  mkB (worker q) (concurrency q) (batchSize q) (availableWorkers q) (depth q) (items q)
      (started q) (draining q) (overload q) (dropOldestOnOverload q) v (onFirstOverload q)
      (onDrained q).
Definition set_onFirstOverload (v : bool) (q : PushBatchQueue) : PushBatchQueue :=
  mkB (worker q) (concurrency q) (batchSize q) (availableWorkers q) (depth q) (items q)
      (started q) (draining q) (overload q) (dropOldestOnOverload q) (onOverload q) v
      (onDrained q).
Definition set_onDrained (v : bool) (q : PushBatchQueue) : PushBatchQueue :=
  mkB (worker q) (concurrency q) (batchSize q) (availableWorkers q) (depth q) (items q)
      (started q) (draining q) (overload q) (dropOldestOnOverload q) (onOverload q)
      (onFirstOverload q) v.

(** The buffered items, oldest first. *)
Definition buffer (q : PushBatchQueue) : list Item := Slice.elems (items q).

Definition NewPushBatchQueue (concurrency depth batchSize : Z) (worker : bool)
  : res PushBatchQueue :=
  if concurrency <? 1 then Panic "concurrency must greater than 0"
  else if depth <? 1 then Panic "depth must be greater than 0"
  else if batchSize <? 1 then Panic "batch size must be greater than 0"
  else
    items ← Slice.make depth;
    Ok (mkB worker concurrency batchSize concurrency depth items
            false false 0 false false false false).

Definition Count (q : PushBatchQueue) : Z := Slice.len (items q).
Definition Depth (q : PushBatchQueue) : Z := depth q.
Definition IsFull (q : PushBatchQueue) : bool := Depth q <=? Count q.
Definition IsStarted (q : PushBatchQueue) : bool := started q.
Definition OverloadCount (q : PushBatchQueue) : Z := overload q.

(** [Start] ends with [go q.get()]. *)
Definition Start (q : PushBatchQueue) : res (PushBatchQueue * trace) :=
  if negb (worker q) then Panic "no worker set"
  else Ok (set_overload 0 (set_draining false (set_started true q)), [Go Dispatch]).

Definition Stop (q : PushBatchQueue) : PushBatchQueue * trace :=
  (set_draining false (set_started false q), []).

Definition setDrained (q : PushBatchQueue) : PushBatchQueue * trace :=
  (set_draining false q, if onDrained q then [Go HDrained] else []).

Definition Drain_mark (q : PushBatchQueue) : PushBatchQueue :=
  set_started false (set_draining true q).

(** The test of [Drain] and the [go q.get()] that ends it. *)
Definition Drain_check (q : PushBatchQueue) : PushBatchQueue * trace :=
  let '(q1, tr) := if (Count q =? 0) && (availableWorkers q =? concurrency q)
                   then setDrained q
                   else (q, []) in
  (q1, tr ++ [Go Dispatch]).

Definition Drain (q : PushBatchQueue) : PushBatchQueue * trace :=
  Drain_check (Drain_mark q).

Definition Empty (q : PushBatchQueue) : res (PushBatchQueue * trace) :=
  items ← Slice.make (Depth q);
  Ok (set_items items q, [Lock; Unlock]).

Definition DropOldestOnOverload (q : PushBatchQueue) : PushBatchQueue :=
  set_dropOldestOnOverload true q.

Definition OnOverload (f : bool) (q : PushBatchQueue) : PushBatchQueue := set_onOverload f q.
Definition OnFirstOverload (f : bool) (q : PushBatchQueue) : PushBatchQueue :=
  set_onFirstOverload f q.
Definition OnDrained (f : bool) (q : PushBatchQueue) : PushBatchQueue := set_onDrained f q.

Definition overloaded (dropItem : Item) (q : PushBatchQueue) : PushBatchQueue * trace :=
  let q1 := set_overload (GoInt.incr (overload q)) q in
  (q1, (if onOverload q1 then [Call (HOverload dropItem)] else [])
       ++ (if (overload q1 =? 1) && onFirstOverload q1
           then [Call (HFirstOverload dropItem)] else [])).

Definition Put (item : Item) (q : PushBatchQueue) : res (PushBatchQueue * trace) :=
  if (Depth q <=? Count q) || draining q then
    if dropOldestOnOverload q then
      first ← Slice.upto (items q) 1;
      dropItem ← Slice.index first 0;
      rest ← Slice.from (items q) 1;
      let q1 := set_items (Slice.append rest item) q in
      let '(q2, tr) := overloaded dropItem q1 in
      Ok (q2, [Lock; Go Dispatch] ++ tr ++ [Unlock])
    else
      let '(q2, tr) := overloaded item q in
      Ok (q2, [Lock] ++ tr ++ [Unlock])
  else
    Ok (set_items (Slice.append (items q) item) q, [Lock; Go Dispatch; Unlock]).

Definition readyToWork (q : PushBatchQueue) : bool :=
  (started q || draining q) && (0 <? availableWorkers q) && (0 <? Slice.len (items q)).

(** [get] up to [q.mutex.Unlock()]: the batch taken, if any. *)
Definition get_take (q : PushBatchQueue)
  : res (PushBatchQueue * option (list Item) * trace) :=
  if negb (readyToWork q) then Ok (q, None, [])
  else if negb (readyToWork q) then Ok (q, None, [Lock; Unlock])
  else
    let q1 := set_availableWorkers (GoInt.decr (availableWorkers q)) q in
    let lastIndex := if Slice.len (items q1) <? batchSize q1
                     then Slice.len (items q1) else batchSize q1 in
    batch ← Slice.upto (items q1) lastIndex;
    rest ← Slice.from (items q1) lastIndex;
    Ok (set_items rest q1, Some (Slice.elems batch), [Lock; Unlock]).

Definition workerCompleted (q : PushBatchQueue) : PushBatchQueue * trace :=
  let q1 := if availableWorkers q <? concurrency q
            then set_availableWorkers (GoInt.incr (availableWorkers q)) q
            else q in
  if (availableWorkers q1 =? concurrency q1) && (Slice.len (items q1) =? 0) && draining q1
  then let '(q2, tr) := setDrained q1 in (q2, [Lock] ++ tr ++ [Unlock])
  else (q1, [Lock; Go Dispatch; Unlock]).

Definition doWork (batch : list Item) (q : PushBatchQueue)
  : res (PushBatchQueue * trace) :=
  if negb (worker q) then Panic nil_call
  else
    let '(q1, tr) := workerCompleted q in
    Ok (q1, [Go (Worker batch)] ++ tr).

Definition get_rest (q : PushBatchQueue) : trace :=
  if negb (draining q) then [Go Dispatch] else [].

Definition get (q : PushBatchQueue) : res (PushBatchQueue * trace) :=
  '(q1, taken, tr1) ← get_take q;
  match taken with
  | None => Ok (q1, tr1)
  | Some batch =>
      '(q2, tr2) ← doWork batch q1;
      Ok (q2, tr1 ++ tr2 ++ get_rest q2)
  end.

Inductive op : Type :=
| PutOp (item : Item)
| TakeStep
| CompletedStep
| RestStep
| StartOp
| StopOp
| DrainOp
| DrainMarkStep
| DrainCheckStep
| EmptyOp
| DropOldestOp
| OnOverloadOp (f : bool)
| OnFirstOverloadOp (f : bool)
| OnDrainedOp (f : bool).

Definition step (o : op) (q : PushBatchQueue) : res (PushBatchQueue * trace) :=
  match o with
  | PutOp item => Put item q
  | TakeStep =>
      '(q1, taken, tr) ← get_take q;
      Ok (q1, tr ++ match taken with Some batch => [Go (Worker batch)] | None => [] end)
  | CompletedStep => Ok (workerCompleted q)
  | RestStep => Ok (q, get_rest q)
  | StartOp => Start q
  | StopOp => Ok (Stop q)
  | DrainOp => Ok (Drain q)
  | DrainMarkStep => Ok (Drain_mark q, [])
  | DrainCheckStep => Ok (Drain_check q)
  | EmptyOp => Empty q
  | DropOldestOp => Ok (DropOldestOnOverload q, [])
  | OnOverloadOp f => Ok (OnOverload f q, [])
  | OnFirstOverloadOp f => Ok (OnFirstOverload f q, [])
  | OnDrainedOp f => Ok (OnDrained f q, [])
  end.

Fixpoint run (os : list op) (q : PushBatchQueue) : PushBatchQueue * trace * option string :=
  match os with
  | [] => (q, [], None)
  | o :: os' =>
      match step o q with
      | Panic msg => (q, [], Some msg)
      | Ok (q1, tr1) =>
          let '(q2, tr2, p) := run os' q1 in (q2, tr1 ++ tr2, p)
      end
  end.

End Batch.
End Batch.
Arguments Batch.Empty : simpl never.

(** ** Vocabulary of the statements *)

Section Vocabulary.
Context `{GoEnv}.

(** The two bounds of the data model. *)
Definition queue_bounds (q : Queue.PushQueue) : Prop :=
  0 <= Queue.availableWorkers q <= Queue.concurrency q /\
  0 <= Queue.Count q <= Queue.Depth q.

Definition stack_bounds (s : Stack.PushStack) : Prop :=
  0 <= Stack.availableWorkers s <= Stack.concurrency s /\
  0 <= Stack.Count s <= Stack.Height s.

Definition batch_bounds (q : Batch.PushBatchQueue) : Prop :=
  0 <= Batch.availableWorkers q <= Batch.concurrency q /\
  0 <= Batch.Count q <= Batch.Depth q.

(** The bounds together with the fact that [concurrency], a Go [int],
    is in range. *)
Definition queue_safe (q : Queue.PushQueue) : Prop :=
  GoInt.in_range (Queue.concurrency q) /\ queue_bounds q.

Definition stack_safe (s : Stack.PushStack) : Prop :=
  GoInt.in_range (Stack.concurrency s) /\ stack_bounds s.

Definition batch_safe (q : Batch.PushBatchQueue) : Prop :=
  GoInt.in_range (Batch.concurrency q) /\ 1 <= Batch.batchSize q /\ batch_bounds q.

(** The steps of a schedule of the queue that are not part of [Drain]. *)
Definition queue_not_drain (o : Queue.op) : bool :=
  match o with
  | Queue.DrainOp | Queue.DrainMarkStep | Queue.DrainCheckStep => false
  | _ => true
  end.

(** An insertion is an overload when the buffer is at capacity or the
    component is draining. *)
Definition queue_overloaded (q : Queue.PushQueue) : bool :=
  (Queue.Depth q <=? Queue.Count q) || Queue.draining q.

Definition stack_overloaded (s : Stack.PushStack) : bool :=
  (Stack.Height s <=? Stack.Count s) || Stack.draining s.

Definition batch_overloaded (q : Batch.PushBatchQueue) : bool :=
  (Batch.Depth q <=? Batch.Count q) || Batch.draining q.

(** The calls of a trace that are ordinary calls. *)
Definition called {U V : Type} (tr : list (event U V)) : list (callee U V) :=
  omap (fun e => match e with Call c => Some c | _ => None end) tr.

(** The callees of a trace that are started with [go]. *)
Definition spawned {U V : Type} (tr : list (event U V)) : list (callee U V) :=
  omap (fun e => match e with Go c => Some c | _ => None end) tr.

Definition is_overload_handler {U V : Type} (c : callee U V) : bool :=
  match c with
  | HOverload _ | HFirstOverload _ => true
  | _ => false
  end.

(** The expression [s[:1][0]]. *)
Definition first_cell (s : Slice.slice) : res Item :=
  first ← Slice.upto s 1; Slice.index first 0.

End Vocabulary.

(** ** A concrete program

    Items are strings boxed in [interface{}]; a reallocating [append]
    doubles the array; [make] allocates up to [2^44] items of 16
    bytes. *)

Definition demo : GoEnv :=
  {| Item := option string; nil := None; regrow := fun n => n;
     max_cap := 17592186044416 |}.

Definition itemA : @Item demo := Some "A"%string.
Definition itemB : @Item demo := Some "B"%string.
Definition itemC : @Item demo := Some "C"%string.
Definition itemD : @Item demo := Some "D"%string.
Definition itemNil : @Item demo := None.

(** The queue of the drop-oldest example: capacity 3, holding A, B, C,
    both overload handlers set. *)
Definition queue_ABC : @Queue.PushQueue demo :=
  Queue.mkQ true 1 1 3 (Slice.mk [itemA; itemB; itemC] []) true false 0 true true true false.

(** The same queue with the default policy. *)
Definition queue_ABC_default : @Queue.PushQueue demo :=
  Queue.mkQ true 1 1 3 (Slice.mk [itemA; itemB; itemC] []) true false 0 false true true false.

Definition batch_ABC : @Batch.PushBatchQueue demo :=
  Batch.mkB true 1 2 1 3 (Slice.mk [itemA; itemB; itemC] []) true false 0 true true true false.

Definition stack_ABC : @Stack.PushStack demo :=
  Stack.mkS true 1 1 3 (Slice.mk [itemA; itemB; itemC] []) true false 0 true true false.

(** A started stack holding one item. *)
Definition stack_A : @Stack.PushStack demo :=
  Stack.mkS true 1 1 3 (Slice.mk [itemA] [itemNil; itemNil]) true false 0 false false false.

(** A queue whose only item is with the worker when [Drain] is called:
    started, one worker, [onDrained] set. *)
Definition queue_busy : @Queue.PushQueue demo :=
  Queue.mkQ true 1 0 3 (Slice.mk [] [itemNil; itemNil]) true false 0 false false false true.

(** Draining components with an empty buffer while the worker is still
    busy with the last item; the backing array has room behind the
    window. *)
Definition queue_draining_empty : @Queue.PushQueue demo :=
  Queue.mkQ true 1 0 3 (Slice.mk [] [itemNil; itemNil]) false true 0 true true true false.

Definition batch_draining_empty : @Batch.PushBatchQueue demo :=
  Batch.mkB true 1 2 0 3 (Slice.mk [] [itemNil; itemNil]) false true 0 true true true false.

Definition stack_draining_empty : @Stack.PushStack demo :=
  Stack.mkS true 1 0 3 (Slice.mk [] [itemA; itemNil; itemNil]) false true 0 true true false.

(** ** Schedules *)

Section Schedules.
Context `{GoEnv}.

(** Steps that neither start the component nor drain it. *)
Definition queue_no_start (o : Queue.op) : bool :=
  match o with
  | Queue.StartOp | Queue.DrainOp | Queue.DrainMarkStep | Queue.DrainCheckStep => false
  | _ => true
  end.

Definition batch_no_start (o : Batch.op) : bool :=
  match o with
  | Batch.StartOp | Batch.DrainOp | Batch.DrainMarkStep | Batch.DrainCheckStep => false
  | _ => true
  end.



(** Steps that leave the overload count to [Put] and the overload handler
    as it is. *)
Definition queue_counting (o : Queue.op) : bool :=
  match o with
  | Queue.StartOp | Queue.OnOverloadOp _ => false
  | _ => true
  end.

Definition stack_counting (o : Stack.op) : bool :=
  match o with
  | Stack.StartOp | Stack.OnOverloadOp _ => false
  | _ => true
  end.

Definition batch_counting (o : Batch.op) : bool :=
  match o with
  | Batch.StartOp | Batch.OnOverloadOp _ => false
  | _ => true
  end.


Definition stack_serve (n : nat) : list Stack.op :=
  concat (replicate n [Stack.TakeStep; Stack.CompletedStep]).

End Schedules.

(** ** The goroutines of [get]

    [Queue.step] and [Batch.step] let the [go] statement of [doWork] follow
    the critical section of [get] at once. In the program the goroutine
    that leaves the critical section holds the unit it took and no lock,
    and any step of another goroutine may come before it starts the
    worker. Here the two are separate steps. The state is the component
    together with the units that are held in this way, and two histories:
    the units taken so far, in the order of the critical sections, and the
    values the overloaded insertions gave to [dropItem]. *)

Module QueueGets.
Section QueueGets.
Context `{GoEnv}.

Abbreviation trace := (list (event Item Item)).

Record state : Type := mk {
  queue : Queue.PushQueue;
  holding : list Item;
  taken : list Item;
  dropped : list Item
}.

(** A queue on which no [get] is under way and nothing has happened. *)
Definition idle (q : Queue.PushQueue) : state := mk q [] [] [].

(** The value of [dropItem] at the end of the overload branch of [Put];
    [q.items[:1][0]] under the drop-oldest policy, else the incoming
    item. *)
Definition dropItem (item : Item) (q : Queue.PushQueue) : list Item :=
  if (Queue.Depth q <=? Queue.Count q) || Queue.draining q then
    if Queue.dropOldestOnOverload q
    then match first_cell (Queue.items q) with Ok old => [old] | Panic _ => [] end
    else [item]
  else [].

(** [Step Queue.TakeStep] is the critical section of [get] alone;
    [WorkStep i] is the [go] statement of [doWork] on the [i]-th of the
    goroutines that hold an item: it calls the worker, and panics when the
    worker is nil. Every other [Step o] is the step [o] of [Queue.step]. *)
Inductive op : Type :=
| Step (o : Queue.op)
| WorkStep (i : nat).

Definition step (o : op) (m : state) : res (state * trace) :=
  match o with
  | Step (Queue.PutOp item) =>
      '(q1, tr) ← Queue.Put item (queue m);
      Ok (mk q1 (holding m) (taken m) (dropped m ++ dropItem item (queue m)), tr)
  | Step Queue.TakeStep =>
      '(q1, got, tr) ← Queue.get_take (queue m);
      match got with
      | Some item => Ok (mk q1 (holding m ++ [item]) (taken m ++ [item]) (dropped m), tr)
      | None => Ok (mk q1 (holding m) (taken m) (dropped m), tr)
      end
  | Step o' =>
      '(q1, tr) ← Queue.step o' (queue m);
      Ok (mk q1 (holding m) (taken m) (dropped m), tr)
  | WorkStep i =>
      match holding m !! i with
      | Some item =>
          if Queue.worker (queue m)
          then Ok (mk (queue m) (delete i (holding m)) (taken m) (dropped m),
                   [Go (Worker item)])
          else Panic nil_call
      | None => Ok (m, [])
      end
  end.

Fixpoint run (os : list op) (m : state) : state * trace * option string :=
  match os with
  | [] => (m, [], None)
  | o :: os' =>
      match step o m with
      | Panic msg => (m, [], Some msg)
      | Ok (m1, tr1) =>
          let '(m2, tr2, p) := run os' m1 in (m2, tr1 ++ tr2, p)
      end
  end.

(** The items a schedule puts, in order. *)
Definition inserted (os : list op) : list Item :=
  omap (fun o => match o with Step (Queue.PutOp item) => Some item | _ => None end) os.

(** Steps other than [Empty]. *)
Definition keeps (o : op) : bool :=
  match o with
  | Step Queue.EmptyOp => false
  | _ => true
  end.

(** Steps other than the registration of the overload handler. *)
Definition same_handler (o : op) : bool :=
  match o with
  | Step (Queue.OnOverloadOp _) => false
  | _ => true
  end.

(** The schedule in which every [get] of a schedule of [Queue.step] starts
    the worker right after its critical section. *)
Definition at_once (os : list Queue.op) : list op :=
  flat_map (fun o => match o with
                     | Queue.TakeStep => [Step Queue.TakeStep; WorkStep 0]
                     | _ => [Step o]
                     end) os.

(** Steps of [Queue.step] that are neither an insertion nor the critical
    section of [get]. *)
Definition other (o : Queue.op) : bool :=
  match o with
  | Queue.PutOp _ | Queue.TakeStep => false
  | _ => true
  end.

(** Steps that neither start the queue nor are part of [Drain]. *)
Definition no_start (o : op) : bool :=
  match o with
  | Step o' => queue_no_start o'
  | WorkStep _ => true
  end.

End QueueGets.
End QueueGets.

Module BatchGets.
Section BatchGets.
Context `{GoEnv}.

Abbreviation trace := (list (event (list Item) Item)).

Record state : Type := mk {
  queue : Batch.PushBatchQueue;
  holding : list (list Item);
  taken : list (list Item);
  dropped : list Item
}.

Definition idle (q : Batch.PushBatchQueue) : state := mk q [] [] [].

Definition dropItem (item : Item) (q : Batch.PushBatchQueue) : list Item :=
  if (Batch.Depth q <=? Batch.Count q) || Batch.draining q then
    if Batch.dropOldestOnOverload q
    then match first_cell (Batch.items q) with Ok old => [old] | Panic _ => [] end
    else [item]
  else [].

Inductive op : Type :=
| Step (o : Batch.op)
| WorkStep (i : nat).

Definition step (o : op) (m : state) : res (state * trace) :=
  match o with
  | Step (Batch.PutOp item) =>
      '(q1, tr) ← Batch.Put item (queue m);
      Ok (mk q1 (holding m) (taken m) (dropped m ++ dropItem item (queue m)), tr)
  | Step Batch.TakeStep =>
      '(q1, got, tr) ← Batch.get_take (queue m);
      match got with
      | Some batch => Ok (mk q1 (holding m ++ [batch]) (taken m ++ [batch]) (dropped m), tr)
      | None => Ok (mk q1 (holding m) (taken m) (dropped m), tr)
      end
  | Step o' =>
      '(q1, tr) ← Batch.step o' (queue m);
      Ok (mk q1 (holding m) (taken m) (dropped m), tr)
  | WorkStep i =>
      match holding m !! i with
      | Some batch =>
          if Batch.worker (queue m)
          then Ok (mk (queue m) (delete i (holding m)) (taken m) (dropped m),
                   [Go (Worker batch)])
          else Panic nil_call
      | None => Ok (m, [])
      end
  end.

Fixpoint run (os : list op) (m : state) : state * trace * option string :=
  match os with
  | [] => (m, [], None)
  | o :: os' =>
      match step o m with
      | Panic msg => (m, [], Some msg)
      | Ok (m1, tr1) =>
          let '(m2, tr2, p) := run os' m1 in (m2, tr1 ++ tr2, p)
      end
  end.

Definition inserted (os : list op) : list Item :=
  omap (fun o => match o with Step (Batch.PutOp item) => Some item | _ => None end) os.

Definition keeps (o : op) : bool :=
  match o with
  | Step Batch.EmptyOp => false
  | _ => true
  end.

Definition same_handler (o : op) : bool :=
  match o with
  | Step (Batch.OnOverloadOp _) => false
  | _ => true
  end.

(** The schedule in which every [get] of a schedule of [Batch.step] starts
    the worker right after its critical section. *)
Definition at_once (os : list Batch.op) : list op :=
  flat_map (fun o => match o with
                     | Batch.TakeStep => [Step Batch.TakeStep; WorkStep 0]
                     | _ => [Step o]
                     end) os.

(** Steps of [Batch.step] that are neither an insertion nor the critical
    section of [get]. *)
Definition other (o : Batch.op) : bool :=
  match o with
  | Batch.PutOp _ | Batch.TakeStep => false
  | _ => true
  end.

Definition no_start (o : op) : bool :=
  match o with
  | Step o' => batch_no_start o'
  | WorkStep _ => true
  end.

(** The size of a batch: between 1 and [b] items. *)
Definition sized (b : Z) (batch : list Item) : Prop :=
  (1 <= length batch)%nat /\ Z.of_nat (length batch) <= b.

End BatchGets.
End BatchGets.

(** * Proofs *)

(** Comparisons in [bool] as propositions. *)
Ltac prop_of_bool :=
  repeat match goal with
  | H : (_ && _) = true |- _ => apply andb_true_iff in H; destruct H
  | H : (_ || _) = false |- _ => apply orb_false_iff in H; destruct H
  | H : negb _ = true |- _ => apply negb_true_iff in H
  | H : negb _ = false |- _ => apply negb_false_iff in H
  | H : (_ <=? _) = true |- _ => apply Z.leb_le in H
  | H : (_ <=? _) = false |- _ => apply Z.leb_gt in H
  | H : (_ <? _) = true |- _ => apply Z.ltb_lt in H
  | H : (_ <? _) = false |- _ => apply Z.ltb_ge in H
  | H : (_ =? _) = true |- _ => apply Z.eqb_eq in H
  | H : (_ =? _) = false |- _ => apply Z.eqb_neq in H
  end.

(** ** The result monad *)

Lemma bind_Ok {T R : Type} (t : T) (k : T -> res R) : Ok t ≫= k = k t.
Proof. reflexivity. Qed.

Lemma bind_Panic {T R : Type} msg (k : T -> res R) : Panic msg ≫= k = Panic msg.
Proof. reflexivity. Qed.

(** ** Go integers and slices *)

Section GoIntFacts.
Import GoInt.

Lemma wrap_in_range z : in_range z -> wrap z = z.
Proof.
  unfold in_range, wrap, min_int, max_int. intros Hz.
  rewrite Z.mod_small; lia.
Qed.

Lemma incr_below z hi : in_range hi -> 0 <= z < hi -> incr z = z + 1.
Proof.
  unfold incr. intros Hhi Hz. apply wrap_in_range.
  unfold in_range, min_int, max_int in *. lia.
Qed.

Lemma decr_positive z hi : in_range hi -> 0 < z <= hi -> decr z = z - 1.
Proof.
  unfold decr. intros Hhi Hz. apply wrap_in_range.
  unfold in_range, min_int, max_int in *. lia.
Qed.

End GoIntFacts.

Section SliceFacts.
Context `{GoEnv}.
Import Slice.

Lemma elems_append s x : elems (append s x) = elems s ++ [x].
Proof. unfold append. destruct (spare s); reflexivity. Qed.

Lemma len_append s x : len (append s x) = len s + 1.
Proof. unfold len. rewrite elems_append, length_app. simpl. lia. Qed.

Lemma len_nonneg s : 0 <= len s.
Proof. unfold len. lia. Qed.

Lemma make_Ok n s : make n = Ok s -> s = fresh n /\ 0 <= n <= max_cap.
Proof.
  unfold make. destruct (Z.leb_spec 0 n), (Z.leb_spec n max_cap); simpl.
  all: intros [= <-] || discriminate. auto.
Qed.

Lemma make_inside n : 0 <= n <= max_cap -> make n = Ok (fresh n).
Proof.
  intros [H0 H1]. unfold make.
  apply Z.leb_le in H0, H1. rewrite H0, H1. reflexivity.
Qed.

Lemma upto_inside es sp k :
  0 <= k <= Z.of_nat (length es) ->
  upto (mk es sp) k = Ok (mk (take (Z.to_nat k) es) (drop (Z.to_nat k) es ++ sp)).
Proof.
  intros Hk. unfold upto, cap. simpl.
  destruct (Z.leb_spec 0 k); [|lia].
  destruct (Z.leb_spec k (Z.of_nat (length es + length sp))); [|lia]. simpl.
  rewrite take_app_le, drop_app_le by lia. reflexivity.
Qed.

Lemma from_inside es sp k :
  0 <= k <= Z.of_nat (length es) ->
  from (mk es sp) k = Ok (mk (drop (Z.to_nat k) es) sp).
Proof.
  intros Hk. unfold from, len. simpl.
  destruct (Z.leb_spec 0 k); [|lia].
  destruct (Z.leb_spec k (Z.of_nat (length es))); [|lia]. reflexivity.
Qed.

Lemma from_outside es sp k :
  Z.of_nat (length es) < k -> from (mk es sp) k = Panic slice_bounds.
Proof.
  intros Hk. unfold from, len. simpl.
  destruct (Z.leb_spec k (Z.of_nat (length es))); [lia|].
  rewrite andb_false_r. reflexivity.
Qed.

Lemma upto_1_cons x l sp : upto (mk (x :: l) sp) 1 = Ok (mk [x] (l ++ sp)).
Proof. rewrite upto_inside by (simpl; lia). reflexivity. Qed.

Lemma from_1_cons x l sp : from (mk (x :: l) sp) 1 = Ok (mk l sp).
Proof. rewrite from_inside by (simpl; lia). reflexivity. Qed.

Lemma index_0_cons x l sp : index (mk (x :: l) sp) 0 = Ok x.
Proof.
  unfold index, len. simpl.
  destruct (Z.ltb_spec 0 (Z.of_nat (S (length l)))); [reflexivity|lia].
Qed.

Lemma upto_1_empty_room c sp : upto (mk [] (c :: sp)) 1 = Ok (mk [c] sp).
Proof.
  unfold upto, cap. simpl.
  destruct (Z.leb_spec 1 (Z.of_nat (S (length sp)))); [|lia]. reflexivity.
Qed.

Lemma upto_1_empty_full : upto (mk [] []) 1 = Panic slice_bounds.
Proof. reflexivity. Qed.

Lemma from_1_empty sp : from (mk [] sp) 1 = Panic slice_bounds.
Proof. apply from_outside. simpl. lia. Qed.

(** [s[len(s)-1:]] and [s[:len(s)-1]] of a slice that ends with [x] *)
Lemma from_last l x sp :
  from (mk (l ++ [x]) sp) (len (mk (l ++ [x]) sp) - 1) = Ok (mk [x] sp).
Proof.
  unfold len. simpl. rewrite length_app. simpl.
  rewrite from_inside by (rewrite length_app; simpl; lia).
  replace (Z.to_nat _) with (length l) by lia.
  rewrite drop_app_length. reflexivity.
Qed.

Lemma upto_last l x sp :
  upto (mk (l ++ [x]) sp) (len (mk (l ++ [x]) sp) - 1) = Ok (mk l (x :: sp)).
Proof.
  unfold len. simpl. rewrite length_app. simpl.
  rewrite upto_inside by (rewrite length_app; simpl; lia).
  replace (Z.to_nat _) with (length l) by lia.
  rewrite take_app_length, drop_app_length. reflexivity.
Qed.

End SliceFacts.

(** ** Traces *)

Section TraceFacts.
Context {U V : Type}.
Implicit Types tr : list (event U V).

Lemma worked_app tr1 tr2 : worked (tr1 ++ tr2) = worked tr1 ++ worked tr2.
Proof. apply omap_app. Qed.

Lemma overloads_app tr1 tr2 : overloads (tr1 ++ tr2) = overloads tr1 ++ overloads tr2.
Proof. apply omap_app. Qed.

Lemma first_overloads_app tr1 tr2 :
  first_overloads (tr1 ++ tr2) = first_overloads tr1 ++ first_overloads tr2.
Proof. apply omap_app. Qed.

Lemma drained_app tr1 tr2 : drained (tr1 ++ tr2) = (drained tr1 + drained tr2)%nat.
Proof. unfold drained. rewrite omap_app, length_app. reflexivity. Qed.

Lemma dispatches_app tr1 tr2 :
  dispatches (tr1 ++ tr2) = (dispatches tr1 + dispatches tr2)%nat.
Proof. unfold dispatches. rewrite omap_app, length_app. reflexivity. Qed.

Lemma called_app tr1 tr2 : called (tr1 ++ tr2) = called tr1 ++ called tr2.
Proof. apply omap_app. Qed.

End TraceFacts.
(** ** The methods of the queue, case by case *)

Section QueueFacts.
Context `{GoEnv}.
Import Queue.

(** What the constructor returns, when it returns. *)
Lemma queue_New_Ok c d w q :
  NewPushQueue c d w = Ok q ->
  1 <= c /\ 1 <= d <= max_cap /\
  q = mkQ w c c d (Slice.fresh d) false false 0 false false false false.
Proof.
  unfold NewPushQueue.
  destruct (Z.ltb_spec c 1); [discriminate|].
  destruct (Z.ltb_spec d 1); [discriminate|].
  destruct (Slice.make d) as [items|msg] eqn:Em; [|discriminate].
  apply make_Ok in Em as [-> Hd]. rewrite bind_Ok. intros [= <-].
  repeat split; try lia.
Qed.

(** [Empty], when it returns. *)
Lemma queue_Empty_Ok q q' tr :
  Empty q = Ok (q', tr) ->
  Ok (set_items (Slice.fresh (Depth q)) q, [Lock; Unlock]) = Ok (q', tr).
Proof.
  unfold Empty. destruct (Slice.make _) as [items|msg] eqn:Em; [|discriminate].
  apply make_Ok in Em as [-> _]. rewrite bind_Ok. auto.
Qed.

Lemma Put_accept item q :
  queue_overloaded q = false ->
  Put item q = Ok (set_items (Slice.append (items q) item) q, [Lock; Go Dispatch; Unlock]).
Proof. unfold Put, queue_overloaded. intros ->. reflexivity. Qed.

Lemma Put_drop_incoming item q :
  queue_overloaded q = true ->
  dropOldestOnOverload q = false ->
  Put item q = Ok (fst (overloaded item q), [Lock] ++ snd (overloaded item q) ++ [Unlock]).
Proof. unfold Put, queue_overloaded. intros -> ->. reflexivity. Qed.

Lemma Put_drop_oldest item q old rest :
  queue_overloaded q = true ->
  dropOldestOnOverload q = true ->
  buffer q = old :: rest ->
  Put item q =
    let q1 := set_items (Slice.append (Slice.mk rest (Slice.spare (items q))) item) q in
    Ok (fst (overloaded old q1), [Lock; Go Dispatch] ++ snd (overloaded old q1) ++ [Unlock]).
Proof.
  unfold Put, queue_overloaded, buffer. intros -> -> Hb.
  destruct (items q) as [es sp] eqn:Ei. simpl in Hb. subst es.
  rewrite upto_1_cons, bind_Ok, index_0_cons, bind_Ok, from_1_cons, bind_Ok.
  unfold overloaded. reflexivity.
Qed.

Lemma Put_drop_oldest_empty item q :
  queue_overloaded q = true ->
  dropOldestOnOverload q = true ->
  buffer q = [] ->
  Put item q = Panic slice_bounds.
Proof.
  unfold Put, queue_overloaded, buffer. intros -> -> Hb.
  destruct (items q) as [es sp] eqn:Ei. simpl in Hb. subst es.
  destruct sp as [|c sp].
  - reflexivity.
  - rewrite upto_1_empty_room, bind_Ok, index_0_cons, bind_Ok, from_1_empty.
    reflexivity.
Qed.

Lemma get_take_idle q :
  readyToWork q = false -> get_take q = Ok (q, None, []).
Proof. unfold get_take. intros ->. reflexivity. Qed.

Lemma get_take_ready q :
  readyToWork q = true ->
  exists item rest,
    buffer q = item :: rest /\
    get_take q =
      Ok (set_items (Slice.mk rest (Slice.spare (items q)))
            (set_availableWorkers (GoInt.decr (availableWorkers q)) q),
          Some item, [Lock; Unlock]).
Proof.
  unfold get_take, buffer. intros Hr. rewrite Hr. simpl.
  unfold readyToWork in Hr. prop_of_bool.
  destruct (items q) as [[|item rest] sp] eqn:Ei; [unfold Slice.len in *; simpl in *; lia|].
  exists item, rest. split; [reflexivity|].
  rewrite upto_1_cons, bind_Ok, index_0_cons, bind_Ok, from_1_cons. reflexivity.
Qed.

(** The bounds, with the fact that [concurrency] is a Go [int], are kept
    by every step. *)
Lemma queue_new_safe c d w q :
  GoInt.in_range c -> NewPushQueue c d w = Ok q -> queue_safe q.
Proof.
  intros Hc (? & ? & ->)%queue_New_Ok. unfold queue_safe, queue_bounds, Count, Depth, Slice.len. simpl.
  split; [assumption|lia].
Qed.

Lemma queue_step_safe o q q' tr :
  queue_safe q -> step o q = Ok (q', tr) -> queue_safe q'.
Proof.
  unfold queue_safe, queue_bounds, Count, Depth. intros (Hc & Ha & Hn) Hs.
  destruct o; simpl in Hs;
    try match type of Hs with Queue.Empty _ = _ => apply queue_Empty_Ok in Hs end;
    try (injection Hs as <- <-; simpl; split; [assumption|split; assumption]).
  - (* Put *)
    destruct (queue_overloaded q) eqn:Eo.
    + destruct (dropOldestOnOverload q) eqn:Ed.
      * destruct (buffer q) as [|old rest] eqn:Eb.
        { rewrite Put_drop_oldest_empty in Hs by assumption. discriminate. }
        rewrite (Put_drop_oldest _ _ old rest) in Hs by assumption.
        injection Hs as <- <-. simpl. rewrite len_append.
        unfold buffer in Eb. unfold Slice.len in *. rewrite Eb in Hn. simpl in *.
        split; [assumption|lia].
      * rewrite Put_drop_incoming in Hs by assumption.
        injection Hs as <- <-. simpl. split; [assumption|lia].
    + rewrite Put_accept in Hs by assumption.
      injection Hs as <- <-. simpl. rewrite len_append.
      unfold queue_overloaded, Depth, Count in Eo. prop_of_bool.
      split; [assumption|lia].
  - (* get, up to the start of the worker *)
    destruct (readyToWork q) eqn:Er.
    + destruct (get_take_ready q Er) as (item & rest & Eb & Eg).
      rewrite Eg, bind_Ok in Hs. injection Hs as <- <-. simpl.
      unfold readyToWork in Er. prop_of_bool.
      rewrite (decr_positive _ (concurrency q)) by (auto; lia).
      unfold buffer in Eb. unfold Slice.len in *. rewrite Eb in Hn. simpl in *.
      split; [assumption|lia].
    + rewrite get_take_idle in Hs by assumption.
      injection Hs as <- <-. split; [assumption|lia].
  - (* workerCompleted *)
    injection Hs as Hs. unfold workerCompleted, setDrained in Hs.
    destruct (Z.ltb_spec (availableWorkers q) (concurrency q)); simpl in Hs.
    all: destruct (_ && _) in Hs; injection Hs as <- <-; simpl.
    all: rewrite ?(incr_below _ (concurrency q)) by (auto; lia).
    all: split; [assumption|lia].
  - (* Start *)
    unfold Start in Hs. destruct (worker q); [|discriminate].
    injection Hs as <- <-. simpl. split; [assumption|lia].
  - (* Drain *)
    injection Hs as Hs. unfold Drain, Drain_check, Drain_mark, setDrained in Hs.
    destruct (_ && _) in Hs; injection Hs as <- <-; simpl; (split; [assumption|lia]).
  - (* the test of Drain *)
    injection Hs as Hs. unfold Drain_check, setDrained in Hs.
    destruct (_ && _) in Hs; injection Hs as <- <-; simpl; (split; [assumption|lia]).
  - (* Empty *)
    injection Hs as <- <-. simpl. unfold Slice.len. simpl. split; [assumption|lia].
Qed.

Lemma queue_run_safe os : forall q q' tr p,
  queue_safe q -> run os q = (q', tr, p) -> queue_safe q'.
Proof.
  induction os as [|o os IH]; intros q q' tr p Hq Hr; simpl in Hr.
  - injection Hr as <- _ _. assumption.
  - destruct (step o q) as [[q1 tr1]|msg] eqn:Es.
    + destruct (run os q1) as [[q2 tr2] p2] eqn:Er.
      injection Hr as <- _ _. eapply IH; [|eassumption].
      eapply queue_step_safe; eassumption.
    + injection Hr as <- _ _. assumption.
Qed.

End QueueFacts.

Section QueueAccounting.
Context `{GoEnv}.
Import Queue.

Lemma queue_run_app os1 os2 q :
  run (os1 ++ os2) q =
    let '(q1, tr1, p1) := run os1 q in
    match p1 with
    | Some msg => (q1, tr1, Some msg)
    | None => let '(q2, tr2, p2) := run os2 q1 in (q2, tr1 ++ tr2, p2)
    end.
Proof.
  revert q. induction os1 as [|o os1 IH]; intros q; simpl.
  - destruct (run os2 q) as [[q2 tr2] p2]. reflexivity.
  - destruct (step o q) as [[q1 tr1]|msg]; [|reflexivity].
    rewrite IH. destruct (run os1 q1) as [[q2 tr2] [msg|]].
    + reflexivity.
    + destruct (run os2 q2) as [[q3 tr3] p3]. rewrite app_assoc. reflexivity.
Qed.

(** Puts into a buffer that has room for them all. *)
Lemma queue_puts_accepted xs : forall q,
  draining q = false ->
  Z.of_nat (length (buffer q) + length xs) <= depth q ->
  exists s' tr,
    Slice.elems s' = buffer q ++ xs /\
    run (map PutOp xs) q = (set_items s' q, tr, None) /\
    overloads tr = [] /\ first_overloads tr = [].
Proof.
  induction xs as [|x xs IH]; intros q Hd Hroom.
  - exists (items q), []. rewrite app_nil_r. destruct q. auto.
  - simpl. rewrite Put_accept.
    2:{ unfold queue_overloaded, Depth, Count, Slice.len, buffer in *. rewrite Hd.
        simpl in Hroom. rewrite orb_false_r. apply Z.leb_gt. lia. }
    destruct (IH (set_items (Slice.append (items q) x) q)) as (s' & tr & He & Hr & Ho & Hf).
    + assumption.
    + unfold buffer in *. simpl in *. rewrite elems_append, length_app. simpl. lia.
    + rewrite Hr. exists s', ([Lock; Go Dispatch; Unlock] ++ tr).
      unfold buffer in *. simpl in *. rewrite elems_append, <- app_assoc in He.
      unfold overloads, first_overloads in *. simpl. rewrite Ho, Hf. auto.
Qed.

(** Puts into a full buffer: each one is an overload. *)
Lemma queue_puts_overloaded xs : forall q,
  draining q = false ->
  1 <= depth q ->
  Z.of_nat (length (buffer q)) = depth q ->
  0 <= overload q ->
  overload q + Z.of_nat (length xs) <= GoInt.max_int ->
  exists s' tr,
    length (Slice.elems s') = length (buffer q) /\
    run (map PutOp xs) q =
      (set_overload (overload q + Z.of_nat (length xs)) (set_items s' q), tr, None) /\
    length (overloads tr) = (if onOverload q then length xs else 0%nat) /\
    length (first_overloads tr) =
      match xs with
      | [] => 0%nat
      | _ => if (overload q =? 0) && onFirstOverload q then 1%nat else 0%nat
      end.
Proof.
  induction xs as [|x xs IH]; intros q Hd Hdepth Hfull Hov Hmax.
  - exists (items q), []. simpl. rewrite Z.add_0_r. destruct q.
    simpl. destruct onOverload0; auto.
  - assert (Hincr : GoInt.incr (overload q) = overload q + 1).
    { apply (incr_below _ GoInt.max_int); [unfold GoInt.in_range, GoInt.min_int, GoInt.max_int; lia|].
      simpl in Hmax. lia. }
    assert (Hover : queue_overloaded q = true).
    { unfold queue_overloaded, Depth, Count, Slice.len, buffer in *.
      apply orb_true_iff. left. apply Z.leb_le. lia. }
    simpl.
    destruct (dropOldestOnOverload q) eqn:Edo.
    + destruct (buffer q) as [|old rest] eqn:Eb; [simpl in Hfull; lia|].
      rewrite (Put_drop_oldest _ _ old rest) by assumption.
      cbv zeta. unfold overloaded. cbn [fst snd overload set_items]. rewrite Hincr.
      match goal with |- context [run (map PutOp xs) ?q1] =>
        destruct (IH q1) as (s' & tr & He & Hr & Ho & Hf) end.
      * assumption.
      * assumption.
      * unfold buffer in *. simpl. rewrite elems_append, length_app. simpl in *. lia.
      * simpl. lia.
      * simpl in *. lia.
      * rewrite Hr. simpl in He, Ho, Hf. eexists s', _. split; [|split; [|split]].
        -- rewrite He. unfold buffer. simpl. rewrite elems_append, length_app. simpl. lia.
        -- cbn [length]. rewrite Nat2Z.inj_succ.
           replace (overload q + Z.succ (Z.of_nat (length xs)))
             with (overload q + 1 + Z.of_nat (length xs)) by lia.
           reflexivity.
        -- rewrite !overloads_app, !length_app, Ho. simpl.
           destruct (onOverload q), ((overload q + 1 =? 1) && onFirstOverload q);
             reflexivity.
        -- rewrite !first_overloads_app, !length_app, Hf. simpl.
           destruct (Z.eqb_spec (overload q) 0) as [E0|E0]; simpl.
           ++ rewrite E0. simpl. destruct (onOverload q), (onFirstOverload q), xs; reflexivity.
           ++ destruct (Z.eqb_spec (overload q + 1) 0); [lia|].
              destruct (Z.eqb_spec (overload q + 1) 1); [lia|]. simpl.
              destruct (onOverload q), xs; reflexivity.
    + rewrite Put_drop_incoming by assumption.
      unfold overloaded. cbn [fst snd]. rewrite Hincr.
      match goal with |- context [run (map PutOp xs) ?q1] =>
        destruct (IH q1) as (s' & tr & He & Hr & Ho & Hf) end.
      * assumption.
      * assumption.
      * assumption.
      * simpl. lia.
      * simpl in *. lia.
      * rewrite Hr. simpl in He, Ho, Hf. eexists s', _. split; [|split; [|split]].
        -- rewrite He. reflexivity.
        -- cbn [length]. rewrite Nat2Z.inj_succ.
           replace (overload q + Z.succ (Z.of_nat (length xs)))
             with (overload q + 1 + Z.of_nat (length xs)) by lia.
           reflexivity.
        -- rewrite !overloads_app, !length_app, Ho. simpl.
           destruct (onOverload q), ((overload q + 1 =? 1) && onFirstOverload q);
             reflexivity.
        -- rewrite !first_overloads_app, !length_app, Hf. simpl.
           destruct (Z.eqb_spec (overload q) 0) as [E0|E0]; simpl.
           ++ rewrite E0. simpl. destruct (onOverload q), (onFirstOverload q), xs; reflexivity.
           ++ destruct (Z.eqb_spec (overload q + 1) 0); [lia|].
              destruct (Z.eqb_spec (overload q + 1) 1); [lia|]. simpl.
              destruct (onOverload q), xs; reflexivity.
Qed.

End QueueAccounting.

Section QueueFirstOverload.
Context `{GoEnv}.
Import Queue.

(** [c + k] puts into an empty queue of capacity [c]: the first [c] are
    accepted, the next one is the first overload, the others follow it. *)
Lemma queue_fill_then_overload (c k : nat) (xs : list Item) (q : PushQueue) :
  (1 <= c)%nat -> (0 < k)%nat -> Z.of_nat k <= GoInt.max_int ->
  length xs = (c + k)%nat ->
  draining q = false -> depth q = Z.of_nat c -> buffer q = [] -> overload q = 0 ->
  exists q' tr,
    run (map PutOp xs) q = (q', tr, None) /\
    OverloadCount q' = Z.of_nat k /\
    length (overloads tr) = (if onOverload q then k else 0%nat) /\
    length (first_overloads tr) = (if onFirstOverload q then 1%nat else 0%nat) /\
    exists x q1 tr1 q2 tr2 tr3,
      xs !! c = Some x /\
      run (map PutOp (take c xs)) q = (q1, tr1, None) /\
      OverloadCount q1 = 0 /\ overloads tr1 = [] /\ first_overloads tr1 = [] /\
      Put x q1 = Ok (q2, tr2) /\
      OverloadCount q2 = 1 /\
      length (overloads tr2) = (if onOverload q then 1%nat else 0%nat) /\
      length (first_overloads tr2) = (if onFirstOverload q then 1%nat else 0%nat) /\
      run (map PutOp (drop (S c) xs)) q2 = (q', tr3, None) /\
      first_overloads tr3 = [] /\
      tr = tr1 ++ tr2 ++ tr3.
Proof.
  intros Hc Hk Hmax Hlen Hd Hdep Hb Hov.
  destruct (lookup_lt_is_Some_2 xs c) as [x Hx]; [lia|].
  assert (Hxs : xs = take c xs ++ x :: drop (S c) xs).
  { rewrite <- (drop_S _ _ _ Hx). symmetry. apply take_drop. }
  assert (Hl1 : length (take c xs) = c) by (rewrite length_take; lia).
  assert (Hl3 : length (drop (S c) xs) = (k - 1)%nat) by (rewrite length_drop; lia).
  destruct (queue_puts_accepted (take c xs) q) as (s1 & tr1 & He1 & Hr1 & Ho1 & Hf1).
  { assumption. }
  { rewrite Hb, Hl1, Hdep. simpl. lia. }
  destruct (queue_puts_overloaded [x] (set_items s1 q))
    as (s2 & tr2' & He2 & Hr2 & Ho2 & Hf2).
  { assumption. }
  { simpl. lia. }
  { unfold buffer in *. simpl. rewrite He1, Hb, Hdep. simpl. rewrite Hl1. reflexivity. }
  { simpl. lia. }
  { simpl. rewrite Hov. simpl. unfold GoInt.max_int. lia. }
  cbn [map run step] in Hr2.
  destruct (Put x (set_items s1 q)) as [[q2 tr2]|msg] eqn:EP; [|discriminate].
  rewrite app_nil_r in Hr2. injection Hr2 as -> ->.
  simpl in Ho2, Hf2. rewrite Hov in Hf2. simpl in Hf2.
  match type of EP with _ = Ok (?q2, _) =>
    destruct (queue_puts_overloaded (drop (S c) xs) q2)
      as (s3 & tr3 & He3 & Hr3 & Ho3 & Hf3) end.
  { assumption. }
  { simpl. lia. }
  { unfold buffer in *. simpl in *. rewrite He2, He1, Hb, Hdep. simpl. rewrite Hl1. reflexivity. }
  { simpl. lia. }
  { simpl. rewrite Hov, Hl3. lia. }
  simpl in Hr3, Ho3, Hf3. rewrite Hov in EP, Hr3, Hf3.
  change (0 + Z.of_nat 1) with 1 in EP, Hr3, Hf3.
  assert (Hf3' : first_overloads tr3 = []).
  { apply length_zero_iff_nil. rewrite Hf3. clear. destruct (drop (S c) xs); reflexivity. }
  eexists _, (tr1 ++ tr2' ++ tr3). split; [|split; [|split; [|split]]].
  - rewrite Hxs at 1. rewrite map_app, queue_run_app, Hr1. cbn [map run step].
    rewrite EP, Hr3. reflexivity.
  - unfold OverloadCount. simpl. rewrite Hl3. lia.
  - rewrite !overloads_app, !length_app, Ho1, Ho2, Ho3, Hl3. simpl.
    destruct (onOverload q); lia.
  - rewrite !first_overloads_app, !length_app, Hf1, Hf2, Hf3'. simpl.
    destruct (onFirstOverload q); reflexivity.
  - eexists x, _, tr1, _, tr2', tr3.
    split; [exact Hx|]. split; [exact Hr1|]. split; [exact Hov|].
    split; [exact Ho1|]. split; [exact Hf1|]. split; [exact EP|].
    split; [reflexivity|].
    split; [exact Ho2|]. split; [exact Hf2|].
    split; [exact Hr3|]. split; [exact Hf3'|reflexivity].
Qed.

End QueueFirstOverload.

Section QueueSteps.
Context `{GoEnv}.
Import Queue.

(** [Put] returns unless it is the drop-oldest branch on an empty
    buffer. *)
Lemma Put_cases item q q' tr :
  Put item q = Ok (q', tr) ->
  (queue_overloaded q = false /\
     q' = set_items (Slice.append (items q) item) q /\
     tr = [Lock; Go Dispatch; Unlock]) \/
  (queue_overloaded q = true /\ dropOldestOnOverload q = false /\
     q' = fst (overloaded item q) /\
     tr = [Lock] ++ snd (overloaded item q) ++ [Unlock]) \/
  (queue_overloaded q = true /\ dropOldestOnOverload q = true /\
     exists old rest,
       buffer q = old :: rest /\
       let q1 := set_items (Slice.append (Slice.mk rest (Slice.spare (items q))) item) q in
       q' = fst (overloaded old q1) /\
       tr = [Lock; Go Dispatch] ++ snd (overloaded old q1) ++ [Unlock]).
Proof.
  intros HP.
  destruct (queue_overloaded q) eqn:Eo.
  - destruct (dropOldestOnOverload q) eqn:Ed.
    + destruct (buffer q) as [|old rest] eqn:Eb.
      { rewrite Put_drop_oldest_empty in HP by assumption. discriminate. }
      rewrite (Put_drop_oldest _ _ old rest) in HP by assumption.
      injection HP as <- <-. right. right. eauto 10.
    + rewrite Put_drop_incoming in HP by assumption.
      injection HP as <- <-. right. left. auto.
  - rewrite Put_accept in HP by assumption.
    injection HP as <- <-. left. auto.
Qed.

(** The handlers are told of the dropped item by ordinary calls, and of
    nothing else. *)
Lemma overloaded_trace dropItem q :
  snd (overloaded dropItem q) =
    (if onOverload q then [Call (HOverload dropItem)] else [])
    ++ (if (GoInt.incr (overload q) =? 1) && onFirstOverload q
        then [Call (HFirstOverload dropItem)] else []).
Proof. reflexivity. Qed.


(** What a worker completion does to the flag and how often it fires. *)
Lemma workerCompleted_drained q :
  drained (snd (workerCompleted q)) =
    (if draining q && negb (draining (fst (workerCompleted q))) && onDrained q
     then 1%nat else 0%nat) /\
  (draining (fst (workerCompleted q)) = true -> draining q = true).
Proof.
  unfold workerCompleted, setDrained.
  destruct (availableWorkers q <? concurrency q); simpl.
  all: destruct (_ =? _), (Slice.len (items q) =? 0), (draining q) eqn:Ed; simpl.
  all: rewrite ?Ed; simpl; destruct (onDrained q); auto.
Qed.

(** Every ordinary call of a step is a call of an overload handler and
    is made with the mutex held; nothing started with [go] is an overload
    handler. *)
Lemma queue_step_calls o q q' tr :
  step o q = Ok (q', tr) ->
  calls_under_lock false tr = called tr /\
  forallb is_overload_handler (called tr) = true /\
  forallb (fun c => negb (is_overload_handler c)) (spawned tr) = true.
Proof.
  intros Hs. destruct o; simpl in Hs;
    try match type of Hs with Queue.Empty _ = _ => apply queue_Empty_Ok in Hs end;
    try (injection Hs as <- <-; simpl; auto; fail).
  - apply Put_cases in Hs.
    destruct Hs as [(_ & _ & ->)|[(_ & _ & _ & ->)|(_ & _ & old & rest & _ & _ & ->)]].
    + simpl. auto.
    + rewrite overloaded_trace.
      destruct (onOverload q), (_ && onFirstOverload q); simpl; auto.
    + rewrite overloaded_trace. simpl.
      destruct (onOverload q), (_ && onFirstOverload q); simpl; auto.
  - destruct (readyToWork q) eqn:Er.
    + destruct (get_take_ready q Er) as (item & rest & _ & Eg).
      rewrite Eg, bind_Ok in Hs. injection Hs as <- <-. simpl. auto.
    + rewrite get_take_idle in Hs by assumption. injection Hs as <- <-. simpl. auto.
  - injection Hs as Hs. unfold workerCompleted, setDrained in Hs.
    destruct (availableWorkers q <? concurrency q); simpl in Hs.
    all: destruct (_ && _) in Hs; injection Hs as <- <-; simpl.
    all: try destruct (onDrained q); simpl; auto.
  - injection Hs as <- <-. unfold get_rest. destruct (draining q); simpl; auto.
  - unfold Start in Hs. destruct (worker q); [|discriminate].
    injection Hs as <- <-. simpl. auto.
  - injection Hs as Hs. unfold Drain, Drain_check, Drain_mark, setDrained in Hs.
    destruct (_ && _) in Hs; injection Hs as <- <-; simpl; auto.
    destruct (onDrained q); simpl; auto.
  - injection Hs as Hs. unfold Drain_check, setDrained in Hs.
    destruct (_ && _) in Hs; injection Hs as <- <-; simpl; auto.
    destruct (onDrained q); simpl; auto.
Qed.

(** One [get] hands the item it takes to the worker once. *)
Lemma queue_get_works_once q q1 item tr1 :
  get_take q = Ok (q1, Some item, tr1) -> worker q1 = true ->
  exists q2 tr, get q = Ok (q2, tr) /\ worked tr = [item] /\ items q2 = items q1.
Proof.
  intros Hg Hw. unfold get. rewrite Hg, bind_Ok. unfold doWork. rewrite Hw.
  destruct (workerCompleted q1) as [q2 tr2] eqn:Ew.
  cbn [negb]. rewrite bind_Ok.
  eexists _, _. split; [reflexivity|].
  assert (items q2 = items q1 /\ worked tr2 = []) as [Hi Hw2].
  { unfold workerCompleted, setDrained in Ew.
    destruct (availableWorkers q1 <? concurrency q1); simpl in Ew.
    all: destruct (_ && _) in Ew; injection Ew as <- <-; simpl.
    all: try destruct (onDrained q1); auto. }
  split; [|exact Hi].
  rewrite !worked_app, Hw2.
  assert (worked tr1 = []) as ->.
  { destruct (readyToWork q) eqn:Er.
    - destruct (get_take_ready q Er) as (? & ? & _ & Eg).
      rewrite Eg in Hg. injection Hg as _ _ <-. reflexivity.
    - rewrite get_take_idle in Hg by assumption. discriminate. }
  unfold get_rest. destruct (draining q2); reflexivity.
Qed.

(** With a nil worker the [get] that has taken a unit panics. *)
Lemma queue_get_nil_worker q q1 unit tr1 :
  get_take q = Ok (q1, Some unit, tr1) -> worker q1 = false ->
  get q = Panic nil_call.
Proof.
  intros Hg Hw. unfold get. rewrite Hg, bind_Ok. unfold doWork. rewrite Hw. reflexivity.
Qed.

(** [Drain] on an idle queue with an empty buffer: [onDrained] once,
    nothing for the worker, and the queue is no longer draining. *)
Lemma queue_Drain_idle q :
  Count q = 0 -> availableWorkers q = concurrency q ->
  Drain q = (set_draining false (set_started false q),
             if onDrained q then [Go HDrained] else []).
Proof.
  unfold Drain, Drain_check, Drain_mark, setDrained, Count. simpl.
  intros -> ->. rewrite !Z.eqb_refl. reflexivity.
Qed.

(** Between two calls of [Drain], methods that run one after the other
    fire [onDrained] at most once: firing clears the flag, and only
    [Drain] sets it. *)
Lemma queue_step_drained o q q' tr :
  queue_not_drain o = true -> step o q = Ok (q', tr) ->
  (drained tr + (if draining q' then 1 else 0) <= (if draining q then 1 else 0))%nat.
Proof.
  intros Ho Hs. destruct o; try discriminate; simpl in Hs;
    try match type of Hs with Queue.Empty _ = _ => apply queue_Empty_Ok in Hs end;
    try (injection Hs as <- <-; simpl; lia).
  - apply Put_cases in Hs.
    destruct Hs as [(_ & -> & ->)|[(_ & _ & -> & ->)|(_ & _ & old & rest & _ & -> & ->)]].
    + simpl. lia.
    + rewrite overloaded_trace. simpl.
      destruct (onOverload q), (_ && onFirstOverload q); simpl; lia.
    + rewrite overloaded_trace. simpl.
      destruct (onOverload q), (_ && onFirstOverload q); simpl; lia.
  - destruct (readyToWork q) eqn:Er.
    + destruct (get_take_ready q Er) as (item & rest & _ & Eg).
      rewrite Eg, bind_Ok in Hs. injection Hs as <- <-. simpl. lia.
    + rewrite get_take_idle in Hs by assumption. injection Hs as <- <-. simpl. lia.
  - injection Hs as Hs.
    destruct (workerCompleted_drained q) as [Hd Hm].
    rewrite Hs in Hd, Hm. simpl in Hd, Hm. rewrite Hd.
    destruct (draining q), (draining q'), (onDrained q); simpl; try lia.
    all: discriminate (Hm eq_refl).
  - injection Hs as <- <-. unfold get_rest. destruct (draining q); simpl; lia.
  - unfold Start in Hs. destruct (worker q); [|discriminate].
    injection Hs as <- <-. simpl. lia.
Qed.

Lemma queue_drained_at_most_once os : forall q q' tr p,
  forallb queue_not_drain os = true -> run os q = (q', tr, p) ->
  (drained tr + (if draining q' then 1 else 0) <= (if draining q then 1 else 0))%nat.
Proof.
  induction os as [|o os IH]; intros q q' tr p Hos Hr; simpl in Hr.
  - injection Hr as <- <- _. simpl. lia.
  - simpl in Hos. apply andb_true_iff in Hos as [Ho Hos].
    destruct (step o q) as [[q1 tr1]|msg] eqn:Es.
    + destruct (run os q1) as [[q2 tr2] p2] eqn:Er.
      injection Hr as <- <- _. rewrite drained_app.
      pose proof (queue_step_drained _ _ _ _ Ho Es).
      pose proof (IH _ _ _ _ Hos Er). lia.
    + injection Hr as <- <- _. simpl. lia.
Qed.

End QueueSteps.
(** ** The methods of the batch queue, case by case *)

Section BatchFacts.
Context `{GoEnv}.
Import Batch.

(** What the constructor returns, when it returns. *)
Lemma batch_New_Ok c d b w q :
  NewPushBatchQueue c d b w = Ok q ->
  1 <= c /\ 1 <= d <= max_cap /\ 1 <= b /\
  q = mkB w c b c d (Slice.fresh d) false false 0 false false false false.
Proof.
  unfold NewPushBatchQueue.
  destruct (Z.ltb_spec c 1); [discriminate|].
  destruct (Z.ltb_spec d 1); [discriminate|].
  destruct (Z.ltb_spec b 1); [discriminate|].
  destruct (Slice.make d) as [items|msg] eqn:Em; [|discriminate].
  apply make_Ok in Em as [-> Hd]. rewrite bind_Ok. intros [= <-].
  repeat split; try lia.
Qed.

(** [Empty], when it returns. *)
Lemma batch_Empty_Ok q q' tr :
  Empty q = Ok (q', tr) ->
  Ok (set_items (Slice.fresh (Depth q)) q, [Lock; Unlock]) = Ok (q', tr).
Proof.
  unfold Empty. destruct (Slice.make _) as [items|msg] eqn:Em; [|discriminate].
  apply make_Ok in Em as [-> _]. rewrite bind_Ok. auto.
Qed.

Lemma batch_Put_accept item q :
  batch_overloaded q = false ->
  Put item q = Ok (set_items (Slice.append (items q) item) q, [Lock; Go Dispatch; Unlock]).
Proof. unfold Put, batch_overloaded. intros ->. reflexivity. Qed.

Lemma batch_Put_drop_incoming item q :
  batch_overloaded q = true ->
  dropOldestOnOverload q = false ->
  Put item q = Ok (fst (overloaded item q), [Lock] ++ snd (overloaded item q) ++ [Unlock]).
Proof. unfold Put, batch_overloaded. intros -> ->. reflexivity. Qed.

Lemma batch_Put_drop_oldest item q old rest :
  batch_overloaded q = true ->
  dropOldestOnOverload q = true ->
  buffer q = old :: rest ->
  Put item q =
    let q1 := set_items (Slice.append (Slice.mk rest (Slice.spare (items q))) item) q in
    Ok (fst (overloaded old q1), [Lock; Go Dispatch] ++ snd (overloaded old q1) ++ [Unlock]).
Proof.
  unfold Put, batch_overloaded, buffer. intros -> -> Hb.
  destruct (items q) as [es sp] eqn:Ei. simpl in Hb. subst es.
  rewrite upto_1_cons, bind_Ok, index_0_cons, bind_Ok, from_1_cons, bind_Ok.
  unfold overloaded. reflexivity.
Qed.

Lemma batch_Put_drop_oldest_empty item q :
  batch_overloaded q = true ->
  dropOldestOnOverload q = true ->
  buffer q = [] ->
  Put item q = Panic slice_bounds.
Proof.
  unfold Put, batch_overloaded, buffer. intros -> -> Hb.
  destruct (items q) as [es sp] eqn:Ei. simpl in Hb. subst es.
  destruct sp as [|c sp].
  - reflexivity.
  - rewrite upto_1_empty_room, bind_Ok, index_0_cons, bind_Ok, from_1_empty.
    reflexivity.
Qed.

Lemma batch_get_take_idle q :
  readyToWork q = false -> get_take q = Ok (q, None, []).
Proof. unfold get_take. intros ->. reflexivity. Qed.

(** A ready [get] takes the first [min(batchSize, len)] items. *)
Lemma batch_get_take_ready q :
  readyToWork q = true -> 1 <= batchSize q ->
  let n := Z.to_nat (Z.min (batchSize q) (Count q)) in
  (1 <= n <= length (buffer q))%nat /\
  get_take q =
    Ok (set_items (Slice.mk (drop n (buffer q)) (Slice.spare (items q)))
          (set_availableWorkers (GoInt.decr (availableWorkers q)) q),
        Some (take n (buffer q)), [Lock; Unlock]).
Proof.
  unfold get_take, buffer, Count. intros Hr Hb. rewrite Hr. simpl.
  unfold readyToWork in Hr. prop_of_bool.
  destruct (items q) as [es sp] eqn:Ei. unfold Slice.len in *. simpl in *.
  split; [lia|].
  destruct (Z.ltb_spec (Z.of_nat (length es)) (batchSize q)).
  - rewrite Z.min_r by lia.
    rewrite upto_inside, bind_Ok, from_inside by lia. reflexivity.
  - rewrite Z.min_l by lia.
    rewrite upto_inside, bind_Ok, from_inside by lia. reflexivity.
Qed.

(** The bounds, with the fact that [concurrency] is a Go [int], are kept
    by every step. *)
Lemma batch_new_safe c d b w q :
  GoInt.in_range c -> NewPushBatchQueue c d b w = Ok q -> batch_safe q.
Proof.
  intros Hc (? & ? & ? & ->)%batch_New_Ok. unfold batch_safe, batch_bounds, Count, Depth, Slice.len. simpl.
  split; [assumption|lia].
Qed.

Lemma batch_step_safe o q q' tr :
  batch_safe q -> step o q = Ok (q', tr) -> batch_safe q'.
Proof.
  unfold batch_safe, batch_bounds, Count, Depth. intros (Hc & Hb & Ha & Hn) Hs.
  destruct o; simpl in Hs;
    try match type of Hs with Batch.Empty _ = _ => apply batch_Empty_Ok in Hs end;
    try (injection Hs as <- <-; simpl; split; [assumption|split; [assumption|split; assumption]]).
  - (* Put *)
    destruct (batch_overloaded q) eqn:Eo.
    + destruct (dropOldestOnOverload q) eqn:Ed.
      * destruct (buffer q) as [|old rest] eqn:Eb.
        { rewrite batch_Put_drop_oldest_empty in Hs by assumption. discriminate. }
        rewrite (batch_Put_drop_oldest _ _ old rest) in Hs by assumption.
        injection Hs as <- <-. simpl. rewrite len_append.
        unfold buffer in Eb. unfold Slice.len in *. rewrite Eb in Hn. simpl in *.
        split; [assumption|lia].
      * rewrite batch_Put_drop_incoming in Hs by assumption.
        injection Hs as <- <-. simpl. split; [assumption|lia].
    + rewrite batch_Put_accept in Hs by assumption.
      injection Hs as <- <-. simpl. rewrite len_append.
      unfold batch_overloaded, Depth, Count in Eo. prop_of_bool.
      split; [assumption|lia].
  - (* get, up to the start of the worker *)
    destruct (readyToWork q) eqn:Er.
    + destruct (batch_get_take_ready q Er Hb) as (Hk & Eg).
      rewrite Eg, bind_Ok in Hs. injection Hs as <- <-. simpl.
      unfold readyToWork in Er. prop_of_bool.
      rewrite (decr_positive _ (concurrency q)) by (auto; lia).
      unfold buffer, Count, Slice.len in *. simpl. rewrite length_drop.
      split; [assumption|lia].
    + rewrite batch_get_take_idle in Hs by assumption.
      injection Hs as <- <-. split; [assumption|lia].
  - (* workerCompleted *)
    injection Hs as Hs. unfold workerCompleted, setDrained in Hs.
    destruct (Z.ltb_spec (availableWorkers q) (concurrency q)); simpl in Hs.
    all: destruct (_ && _) in Hs; injection Hs as <- <-; simpl.
    all: rewrite ?(incr_below _ (concurrency q)) by (auto; lia).
    all: split; [assumption|lia].
  - (* Start *)
    unfold Start in Hs. destruct (worker q); [|discriminate].
    injection Hs as <- <-. simpl. split; [assumption|lia].
  - (* Drain *)
    injection Hs as Hs. unfold Drain, Drain_check, Drain_mark, setDrained in Hs.
    destruct (_ && _) in Hs; injection Hs as <- <-; simpl; (split; [assumption|lia]).
  - (* the test of Drain *)
    injection Hs as Hs. unfold Drain_check, setDrained in Hs.
    destruct (_ && _) in Hs; injection Hs as <- <-; simpl; (split; [assumption|lia]).
  - (* Empty *)
    injection Hs as <- <-. simpl. unfold Slice.len. simpl. split; [assumption|lia].
Qed.

Lemma batch_run_safe os : forall q q' tr p,
  batch_safe q -> run os q = (q', tr, p) -> batch_safe q'.
Proof.
  induction os as [|o os IH]; intros q q' tr p Hq Hr; simpl in Hr.
  - injection Hr as <- _ _. assumption.
  - destruct (step o q) as [[q1 tr1]|msg] eqn:Es.
    + destruct (run os q1) as [[q2 tr2] p2] eqn:Er.
      injection Hr as <- _ _. eapply IH; [|eassumption].
      eapply batch_step_safe; eassumption.
    + injection Hr as <- _ _. assumption.
Qed.

End BatchFacts.

Section BatchAccounting.
Context `{GoEnv}.
Import Batch.

Lemma batch_run_app os1 os2 q :
  run (os1 ++ os2) q =
    let '(q1, tr1, p1) := run os1 q in
    match p1 with
    | Some msg => (q1, tr1, Some msg)
    | None => let '(q2, tr2, p2) := run os2 q1 in (q2, tr1 ++ tr2, p2)
    end.
Proof.
  revert q. induction os1 as [|o os1 IH]; intros q; simpl.
  - destruct (run os2 q) as [[q2 tr2] p2]. reflexivity.
  - destruct (step o q) as [[q1 tr1]|msg]; [|reflexivity].
    rewrite IH. destruct (run os1 q1) as [[q2 tr2] [msg|]].
    + reflexivity.
    + destruct (run os2 q2) as [[q3 tr3] p3]. rewrite app_assoc. reflexivity.
Qed.

(** Puts into a buffer that has room for them all. *)
Lemma batch_puts_accepted xs : forall q,
  draining q = false ->
  Z.of_nat (length (buffer q) + length xs) <= depth q ->
  exists s' tr,
    Slice.elems s' = buffer q ++ xs /\
    run (map PutOp xs) q = (set_items s' q, tr, None) /\
    overloads tr = [] /\ first_overloads tr = [].
Proof.
  induction xs as [|x xs IH]; intros q Hd Hroom.
  - exists (items q), []. rewrite app_nil_r. destruct q. auto.
  - simpl. rewrite batch_Put_accept.
    2:{ unfold batch_overloaded, Depth, Count, Slice.len, buffer in *. rewrite Hd.
        simpl in Hroom. rewrite orb_false_r. apply Z.leb_gt. lia. }
    destruct (IH (set_items (Slice.append (items q) x) q)) as (s' & tr & He & Hr & Ho & Hf).
    + assumption.
    + unfold buffer in *. simpl in *. rewrite elems_append, length_app. simpl. lia.
    + rewrite Hr. exists s', ([Lock; Go Dispatch; Unlock] ++ tr).
      unfold buffer in *. simpl in *. rewrite elems_append, <- app_assoc in He.
      unfold overloads, first_overloads in *. simpl. rewrite Ho, Hf. auto.
Qed.

(** Puts into a full buffer: each one is an overload. *)
Lemma batch_puts_overloaded xs : forall q,
  draining q = false ->
  1 <= depth q ->
  Z.of_nat (length (buffer q)) = depth q ->
  0 <= overload q ->
  overload q + Z.of_nat (length xs) <= GoInt.max_int ->
  exists s' tr,
    length (Slice.elems s') = length (buffer q) /\
    run (map PutOp xs) q =
      (set_overload (overload q + Z.of_nat (length xs)) (set_items s' q), tr, None) /\
    length (overloads tr) = (if onOverload q then length xs else 0%nat) /\
    length (first_overloads tr) =
      match xs with
      | [] => 0%nat
      | _ => if (overload q =? 0) && onFirstOverload q then 1%nat else 0%nat
      end.
Proof.
  induction xs as [|x xs IH]; intros q Hd Hdepth Hfull Hov Hmax.
  - exists (items q), []. simpl. rewrite Z.add_0_r. destruct q.
    simpl. destruct onOverload0; auto.
  - assert (Hincr : GoInt.incr (overload q) = overload q + 1).
    { apply (incr_below _ GoInt.max_int); [unfold GoInt.in_range, GoInt.min_int, GoInt.max_int; lia|].
      simpl in Hmax. lia. }
    assert (Hover : batch_overloaded q = true).
    { unfold batch_overloaded, Depth, Count, Slice.len, buffer in *.
      apply orb_true_iff. left. apply Z.leb_le. lia. }
    simpl.
    destruct (dropOldestOnOverload q) eqn:Edo.
    + destruct (buffer q) as [|old rest] eqn:Eb; [simpl in Hfull; lia|].
      rewrite (batch_Put_drop_oldest _ _ old rest) by assumption.
      cbv zeta. unfold overloaded. cbn [fst snd overload set_items]. rewrite Hincr.
      match goal with |- context [run (map PutOp xs) ?q1] =>
        destruct (IH q1) as (s' & tr & He & Hr & Ho & Hf) end.
      * assumption.
      * assumption.
      * unfold buffer in *. simpl. rewrite elems_append, length_app. simpl in *. lia.
      * simpl. lia.
      * simpl in *. lia.
      * rewrite Hr. simpl in He, Ho, Hf. eexists s', _. split; [|split; [|split]].
        -- rewrite He. unfold buffer. simpl. rewrite elems_append, length_app. simpl. lia.
        -- cbn [length]. rewrite Nat2Z.inj_succ.
           replace (overload q + Z.succ (Z.of_nat (length xs)))
             with (overload q + 1 + Z.of_nat (length xs)) by lia.
           reflexivity.
        -- rewrite !overloads_app, !length_app, Ho. simpl.
           destruct (onOverload q), ((overload q + 1 =? 1) && onFirstOverload q);
             reflexivity.
        -- rewrite !first_overloads_app, !length_app, Hf. simpl.
           destruct (Z.eqb_spec (overload q) 0) as [E0|E0]; simpl.
           ++ rewrite E0. simpl. destruct (onOverload q), (onFirstOverload q), xs; reflexivity.
           ++ destruct (Z.eqb_spec (overload q + 1) 0); [lia|].
              destruct (Z.eqb_spec (overload q + 1) 1); [lia|]. simpl.
              destruct (onOverload q), xs; reflexivity.
    + rewrite batch_Put_drop_incoming by assumption.
      unfold overloaded. cbn [fst snd]. rewrite Hincr.
      match goal with |- context [run (map PutOp xs) ?q1] =>
        destruct (IH q1) as (s' & tr & He & Hr & Ho & Hf) end.
      * assumption.
      * assumption.
      * assumption.
      * simpl. lia.
      * simpl in *. lia.
      * rewrite Hr. simpl in He, Ho, Hf. eexists s', _. split; [|split; [|split]].
        -- rewrite He. reflexivity.
        -- cbn [length]. rewrite Nat2Z.inj_succ.
           replace (overload q + Z.succ (Z.of_nat (length xs)))
             with (overload q + 1 + Z.of_nat (length xs)) by lia.
           reflexivity.
        -- rewrite !overloads_app, !length_app, Ho. simpl.
           destruct (onOverload q), ((overload q + 1 =? 1) && onFirstOverload q);
             reflexivity.
        -- rewrite !first_overloads_app, !length_app, Hf. simpl.
           destruct (Z.eqb_spec (overload q) 0) as [E0|E0]; simpl.
           ++ rewrite E0. simpl. destruct (onOverload q), (onFirstOverload q), xs; reflexivity.
           ++ destruct (Z.eqb_spec (overload q + 1) 0); [lia|].
              destruct (Z.eqb_spec (overload q + 1) 1); [lia|]. simpl.
              destruct (onOverload q), xs; reflexivity.
Qed.

End BatchAccounting.

Section BatchFirstOverload.
Context `{GoEnv}.
Import Batch.

(** [c + k] puts into an empty batch queue of capacity [c]: the first [c] are
    accepted, the next one is the first overload, the others follow it. *)
Lemma batch_fill_then_overload (c k : nat) (xs : list Item) (q : PushBatchQueue) :
  (1 <= c)%nat -> (0 < k)%nat -> Z.of_nat k <= GoInt.max_int ->
  length xs = (c + k)%nat ->
  draining q = false -> depth q = Z.of_nat c -> buffer q = [] -> overload q = 0 ->
  exists q' tr,
    run (map PutOp xs) q = (q', tr, None) /\
    OverloadCount q' = Z.of_nat k /\
    length (overloads tr) = (if onOverload q then k else 0%nat) /\
    length (first_overloads tr) = (if onFirstOverload q then 1%nat else 0%nat) /\
    exists x q1 tr1 q2 tr2 tr3,
      xs !! c = Some x /\
      run (map PutOp (take c xs)) q = (q1, tr1, None) /\
      OverloadCount q1 = 0 /\ overloads tr1 = [] /\ first_overloads tr1 = [] /\
      Put x q1 = Ok (q2, tr2) /\
      OverloadCount q2 = 1 /\
      length (overloads tr2) = (if onOverload q then 1%nat else 0%nat) /\
      length (first_overloads tr2) = (if onFirstOverload q then 1%nat else 0%nat) /\
      run (map PutOp (drop (S c) xs)) q2 = (q', tr3, None) /\
      first_overloads tr3 = [] /\
      tr = tr1 ++ tr2 ++ tr3.
Proof.
  intros Hc Hk Hmax Hlen Hd Hdep Hb Hov.
  destruct (lookup_lt_is_Some_2 xs c) as [x Hx]; [lia|].
  assert (Hxs : xs = take c xs ++ x :: drop (S c) xs).
  { rewrite <- (drop_S _ _ _ Hx). symmetry. apply take_drop. }
  assert (Hl1 : length (take c xs) = c) by (rewrite length_take; lia).
  assert (Hl3 : length (drop (S c) xs) = (k - 1)%nat) by (rewrite length_drop; lia).
  destruct (batch_puts_accepted (take c xs) q) as (s1 & tr1 & He1 & Hr1 & Ho1 & Hf1).
  { assumption. }
  { rewrite Hb, Hl1, Hdep. simpl. lia. }
  destruct (batch_puts_overloaded [x] (set_items s1 q))
    as (s2 & tr2' & He2 & Hr2 & Ho2 & Hf2).
  { assumption. }
  { simpl. lia. }
  { unfold buffer in *. simpl. rewrite He1, Hb, Hdep. simpl. rewrite Hl1. reflexivity. }
  { simpl. lia. }
  { simpl. rewrite Hov. simpl. unfold GoInt.max_int. lia. }
  cbn [map run step] in Hr2.
  destruct (Put x (set_items s1 q)) as [[q2 tr2]|msg] eqn:EP; [|discriminate].
  rewrite app_nil_r in Hr2. injection Hr2 as -> ->.
  simpl in Ho2, Hf2. rewrite Hov in Hf2. simpl in Hf2.
  match type of EP with _ = Ok (?q2, _) =>
    destruct (batch_puts_overloaded (drop (S c) xs) q2)
      as (s3 & tr3 & He3 & Hr3 & Ho3 & Hf3) end.
  { assumption. }
  { simpl. lia. }
  { unfold buffer in *. simpl in *. rewrite He2, He1, Hb, Hdep. simpl. rewrite Hl1. reflexivity. }
  { simpl. lia. }
  { simpl. rewrite Hov, Hl3. lia. }
  simpl in Hr3, Ho3, Hf3. rewrite Hov in EP, Hr3, Hf3.
  change (0 + Z.of_nat 1) with 1 in EP, Hr3, Hf3.
  assert (Hf3' : first_overloads tr3 = []).
  { apply length_zero_iff_nil. rewrite Hf3. clear. destruct (drop (S c) xs); reflexivity. }
  eexists _, (tr1 ++ tr2' ++ tr3). split; [|split; [|split; [|split]]].
  - rewrite Hxs at 1. rewrite map_app, batch_run_app, Hr1. cbn [map run step].
    rewrite EP, Hr3. reflexivity.
  - unfold OverloadCount. simpl. rewrite Hl3. lia.
  - rewrite !overloads_app, !length_app, Ho1, Ho2, Ho3, Hl3. simpl.
    destruct (onOverload q); lia.
  - rewrite !first_overloads_app, !length_app, Hf1, Hf2, Hf3'. simpl.
    destruct (onFirstOverload q); reflexivity.
  - eexists x, _, tr1, _, tr2', tr3.
    split; [exact Hx|]. split; [exact Hr1|]. split; [exact Hov|].
    split; [exact Ho1|]. split; [exact Hf1|]. split; [exact EP|].
    split; [reflexivity|].
    split; [exact Ho2|]. split; [exact Hf2|].
    split; [exact Hr3|]. split; [exact Hf3'|reflexivity].
Qed.

End BatchFirstOverload.

Section BatchSteps.
Context `{GoEnv}.
Import Batch.

(** [Put] returns unless it is the drop-oldest branch on an empty
    buffer. *)
Lemma batch_Put_cases item q q' tr :
  Put item q = Ok (q', tr) ->
  (batch_overloaded q = false /\
     q' = set_items (Slice.append (items q) item) q /\
     tr = [Lock; Go Dispatch; Unlock]) \/
  (batch_overloaded q = true /\ dropOldestOnOverload q = false /\
     q' = fst (overloaded item q) /\
     tr = [Lock] ++ snd (overloaded item q) ++ [Unlock]) \/
  (batch_overloaded q = true /\ dropOldestOnOverload q = true /\
     exists old rest,
       buffer q = old :: rest /\
       let q1 := set_items (Slice.append (Slice.mk rest (Slice.spare (items q))) item) q in
       q' = fst (overloaded old q1) /\
       tr = [Lock; Go Dispatch] ++ snd (overloaded old q1) ++ [Unlock]).
Proof.
  intros HP.
  destruct (batch_overloaded q) eqn:Eo.
  - destruct (dropOldestOnOverload q) eqn:Ed.
    + destruct (buffer q) as [|old rest] eqn:Eb.
      { rewrite batch_Put_drop_oldest_empty in HP by assumption. discriminate. }
      rewrite (batch_Put_drop_oldest _ _ old rest) in HP by assumption.
      injection HP as <- <-. right. right. eauto 10.
    + rewrite batch_Put_drop_incoming in HP by assumption.
      injection HP as <- <-. right. left. auto.
  - rewrite batch_Put_accept in HP by assumption.
    injection HP as <- <-. left. auto.
Qed.

(** The handlers are told of the dropped item by ordinary calls, and of
    nothing else. *)
Lemma batch_overloaded_trace dropItem q :
  snd (overloaded dropItem q) =
    (if onOverload q then [Call (HOverload dropItem)] else [])
    ++ (if (GoInt.incr (overload q) =? 1) && onFirstOverload q
        then [Call (HFirstOverload dropItem)] else []).
Proof. reflexivity. Qed.


(** Every ordinary call of a step is a call of an overload handler and
    is made with the mutex held; nothing started with [go] is an overload
    handler. *)
Lemma batch_step_calls o q q' tr :
  step o q = Ok (q', tr) ->
  calls_under_lock false tr = called tr /\
  forallb is_overload_handler (called tr) = true /\
  forallb (fun c => negb (is_overload_handler c)) (spawned tr) = true.
Proof.
  intros Hs. destruct o; simpl in Hs;
    try match type of Hs with Batch.Empty _ = _ => apply batch_Empty_Ok in Hs end;
    try (injection Hs as <- <-; simpl; auto; fail).
  - apply batch_Put_cases in Hs.
    destruct Hs as [(_ & _ & ->)|[(_ & _ & _ & ->)|(_ & _ & old & rest & _ & _ & ->)]].
    + simpl. auto.
    + rewrite batch_overloaded_trace.
      destruct (onOverload q), (_ && onFirstOverload q); simpl; auto.
    + rewrite batch_overloaded_trace. simpl.
      destruct (onOverload q), (_ && onFirstOverload q); simpl; auto.
  - destruct (readyToWork q) eqn:Er.
    + unfold get_take in Hs. rewrite Er in Hs. simpl in Hs.
      destruct (Slice.upto _ _) as [batch|] in Hs; [|discriminate].
      rewrite bind_Ok in Hs.
      destruct (Slice.from _ _) as [rest|] in Hs; [|discriminate].
      injection Hs as <- <-. simpl. auto.
    + rewrite batch_get_take_idle in Hs by assumption. injection Hs as <- <-. simpl. auto.
  - injection Hs as Hs. unfold workerCompleted, setDrained in Hs.
    destruct (availableWorkers q <? concurrency q); simpl in Hs.
    all: destruct (_ && _) in Hs; injection Hs as <- <-; simpl.
    all: try destruct (onDrained q); simpl; auto.
  - injection Hs as <- <-. unfold get_rest. destruct (draining q); simpl; auto.
  - unfold Start in Hs. destruct (worker q); [|discriminate].
    injection Hs as <- <-. simpl. auto.
  - injection Hs as Hs. unfold Drain, Drain_check, Drain_mark, setDrained in Hs.
    destruct (_ && _) in Hs; injection Hs as <- <-; simpl; auto.
    destruct (onDrained q); simpl; auto.
  - injection Hs as Hs. unfold Drain_check, setDrained in Hs.
    destruct (_ && _) in Hs; injection Hs as <- <-; simpl; auto.
    destruct (onDrained q); simpl; auto.
Qed.

(** One [get] hands the batch it takes to the worker once. *)
Lemma batch_get_works_once q q1 batch tr1 :
  get_take q = Ok (q1, Some batch, tr1) -> worker q1 = true ->
  exists q2 tr, get q = Ok (q2, tr) /\ worked tr = [batch] /\ items q2 = items q1.
Proof.
  intros Hg Hw. unfold get. rewrite Hg, bind_Ok. unfold doWork. rewrite Hw.
  destruct (workerCompleted q1) as [q2 tr2] eqn:Ew.
  cbn [negb]. rewrite bind_Ok.
  eexists _, _. split; [reflexivity|].
  assert (items q2 = items q1 /\ worked tr2 = []) as [Hi Hw2].
  { unfold workerCompleted, setDrained in Ew.
    destruct (availableWorkers q1 <? concurrency q1); simpl in Ew.
    all: destruct (_ && _) in Ew; injection Ew as <- <-; simpl.
    all: try destruct (onDrained q1); auto. }
  split; [|exact Hi].
  rewrite !worked_app, Hw2.
  assert (worked tr1 = []) as ->.
  { destruct (readyToWork q) eqn:Er.
    - unfold get_take in Hg. rewrite Er in Hg. simpl in Hg.
      destruct (Slice.upto _ _) as [b|] in Hg; [|discriminate].
      rewrite bind_Ok in Hg.
      destruct (Slice.from _ _) as [rest|] in Hg; [|discriminate].
      injection Hg as _ _ <-. reflexivity.
    - rewrite batch_get_take_idle in Hg by assumption. discriminate. }
  unfold get_rest. destruct (draining q2); reflexivity.
Qed.

(** With a nil worker the [get] that has taken a unit panics. *)
Lemma batch_get_nil_worker q q1 unit tr1 :
  get_take q = Ok (q1, Some unit, tr1) -> worker q1 = false ->
  get q = Panic nil_call.
Proof.
  intros Hg Hw. unfold get. rewrite Hg, bind_Ok. unfold doWork. rewrite Hw. reflexivity.
Qed.

End BatchSteps.

(** ** The methods of the stack, case by case *)

Section StackFacts.
Context `{GoEnv}.
Import Stack.

(** What the constructor returns, when it returns. *)
Lemma stack_New_Ok c d w s :
  NewPushStack c d w = Ok s ->
  1 <= c /\ 1 <= d <= max_cap /\
  s = mkS w c c d (Slice.fresh d) false false 0 false false false.
Proof.
  unfold NewPushStack.
  destruct (Z.ltb_spec c 1); [discriminate|].
  destruct (Z.ltb_spec d 1); [discriminate|].
  destruct (Slice.make d) as [items|msg] eqn:Em; [|discriminate].
  apply make_Ok in Em as [-> Hd]. rewrite bind_Ok. intros [= <-].
  repeat split; try lia.
Qed.

(** [Empty], when it returns. *)
Lemma stack_Empty_Ok s s' tr :
  Empty s = Ok (s', tr) ->
  Ok (set_items (Slice.fresh (Height s)) s, [Lock; Unlock]) = Ok (s', tr).
Proof.
  unfold Empty. destruct (Slice.make _) as [items|msg] eqn:Em; [|discriminate].
  apply make_Ok in Em as [-> _]. rewrite bind_Ok. auto.
Qed.

Lemma stack_Push_accept item s :
  stack_overloaded s = false ->
  Push item s = Ok (set_items (Slice.append (items s) item) s, [Lock; Go Dispatch; Unlock]).
Proof. unfold Push, stack_overloaded. intros ->. reflexivity. Qed.

Lemma stack_Push_overload item s old rest :
  stack_overloaded s = true ->
  buffer s = old :: rest ->
  Push item s =
    let first := Slice.mk [old] (rest ++ Slice.spare (items s)) in
    let s1 := set_items (Slice.append (Slice.mk rest (Slice.spare (items s))) item) s in
    Ok (fst (overloaded first s1),
        [Lock; Go Dispatch] ++ snd (overloaded first s1) ++ [Unlock]).
Proof.
  unfold Push, stack_overloaded, buffer. intros -> Hb.
  destruct (items s) as [es sp] eqn:Ei. simpl in Hb. subst es.
  rewrite upto_1_cons, bind_Ok, from_1_cons, bind_Ok. reflexivity.
Qed.

Lemma stack_overloaded_trace first s :
  snd (overloaded first s) =
    (if onOverload s then [Call (HOverload (SliceOf (Slice.elems first)))] else [])
    ++ (if (GoInt.incr (overload s) =? 1) && onFirstOverload s
        then [Call (HFirstOverload (SliceOf (Slice.elems first)))] else []).
Proof. reflexivity. Qed.

Lemma stack_Push_overload_empty item s :
  stack_overloaded s = true ->
  buffer s = [] ->
  Push item s = Panic slice_bounds.
Proof.
  unfold Push, stack_overloaded, buffer. intros -> Hb.
  destruct (items s) as [es sp] eqn:Ei. simpl in Hb. subst es.
  destruct sp as [|c sp].
  - reflexivity.
  - rewrite upto_1_empty_room, bind_Ok, from_1_empty. reflexivity.
Qed.

Lemma pop_take_idle s :
  readyToWork s = false -> pop_take s = Ok (s, None, []).
Proof. unfold pop_take. intros ->. reflexivity. Qed.

(** A ready [pop] takes the item pushed last; the cell it leaves stays in
    the backing array. *)
Lemma pop_take_ready s :
  readyToWork s = true ->
  exists rest item,
    buffer s = rest ++ [item] /\
    pop_take s =
      Ok (set_items (Slice.mk rest (item :: Slice.spare (items s)))
            (set_availableWorkers (GoInt.decr (availableWorkers s)) s),
          Some item, [Lock; Unlock]).
Proof.
  unfold pop_take, buffer. intros Hr. rewrite Hr. simpl.
  unfold readyToWork in Hr. prop_of_bool.
  destruct (items s) as [es sp] eqn:Ei.
  destruct es as [|item rest _] using rev_ind; [unfold Slice.len in *; simpl in *; lia|].
  exists rest, item. split; [reflexivity|].
  rewrite from_last, bind_Ok, index_0_cons, bind_Ok, upto_last. reflexivity.
Qed.

Lemma stack_new_safe c h w s :
  GoInt.in_range c -> NewPushStack c h w = Ok s -> stack_safe s.
Proof.
  intros Hc (? & ? & ->)%stack_New_Ok. unfold stack_safe, stack_bounds, Count, Height, Slice.len. simpl.
  split; [assumption|lia].
Qed.

Lemma stack_step_safe o s s' tr :
  stack_safe s -> step o s = Ok (s', tr) -> stack_safe s'.
Proof.
  unfold stack_safe, stack_bounds, Count, Height. intros (Hc & Ha & Hn) Hs.
  destruct o; simpl in Hs;
    try match type of Hs with Stack.Empty _ = _ => apply stack_Empty_Ok in Hs end;
    try (injection Hs as <- <-; simpl; split; [assumption|split; assumption]).
  - (* Push *)
    destruct (stack_overloaded s) eqn:Eo.
    + destruct (buffer s) as [|old rest] eqn:Eb.
      { rewrite stack_Push_overload_empty in Hs by assumption. discriminate. }
      rewrite (stack_Push_overload _ _ old rest) in Hs by assumption.
      injection Hs as <- <-. simpl. rewrite len_append.
      unfold buffer in Eb. unfold Slice.len in *. rewrite Eb in Hn. simpl in *.
      split; [assumption|lia].
    + rewrite stack_Push_accept in Hs by assumption.
      injection Hs as <- <-. simpl. rewrite len_append.
      unfold stack_overloaded, Height, Count in Eo. prop_of_bool.
      split; [assumption|lia].
  - (* pop, up to the start of the worker *)
    destruct (readyToWork s) eqn:Er.
    + destruct (pop_take_ready s Er) as (rest & item & Eb & Eg).
      rewrite Eg, bind_Ok in Hs. injection Hs as <- <-. simpl.
      unfold readyToWork in Er. prop_of_bool.
      rewrite (decr_positive _ (concurrency s)) by (auto; lia).
      unfold buffer in Eb. unfold Slice.len in *. rewrite Eb, length_app in Hn. simpl in *.
      split; [assumption|lia].
    + rewrite pop_take_idle in Hs by assumption.
      injection Hs as <- <-. split; [assumption|lia].
  - (* workerCompleted *)
    injection Hs as Hs. unfold workerCompleted, setDrained in Hs.
    destruct (Z.ltb_spec (availableWorkers s) (concurrency s)); simpl in Hs.
    all: destruct (_ && _) in Hs; injection Hs as <- <-; simpl.
    all: rewrite ?(incr_below _ (concurrency s)) by (auto; lia).
    all: split; [assumption|lia].
  - (* Start *)
    unfold Start in Hs. destruct (worker s); [|discriminate].
    injection Hs as <- <-. simpl. split; [assumption|lia].
  - (* Drain *)
    injection Hs as Hs. unfold Drain, Drain_check, Drain_mark, setDrained in Hs.
    destruct (_ && _) in Hs; injection Hs as <- <-; simpl; (split; [assumption|lia]).
  - (* the test of Drain *)
    injection Hs as Hs. unfold Drain_check, setDrained in Hs.
    destruct (_ && _) in Hs; injection Hs as <- <-; simpl; (split; [assumption|lia]).
  - (* Empty *)
    injection Hs as <- <-. simpl. unfold Slice.len. simpl. split; [assumption|lia].
Qed.

Lemma stack_run_safe os : forall s s' tr p,
  stack_safe s -> run os s = (s', tr, p) -> stack_safe s'.
Proof.
  induction os as [|o os IH]; intros s s' tr p Hq Hr; simpl in Hr.
  - injection Hr as <- _ _. assumption.
  - destruct (step o s) as [[s1 tr1]|msg] eqn:Es.
    + destruct (run os s1) as [[s2 tr2] p2] eqn:Er.
      injection Hr as <- _ _. eapply IH; [|eassumption].
      eapply stack_step_safe; eassumption.
    + injection Hr as <- _ _. assumption.
Qed.

End StackFacts.

Section StackAccounting.
Context `{GoEnv}.
Import Stack.

Lemma stack_run_app os1 os2 s :
  run (os1 ++ os2) s =
    let '(s1, tr1, p1) := run os1 s in
    match p1 with
    | Some msg => (s1, tr1, Some msg)
    | None => let '(s2, tr2, p2) := run os2 s1 in (s2, tr1 ++ tr2, p2)
    end.
Proof.
  revert s. induction os1 as [|o os1 IH]; intros s; simpl.
  - destruct (run os2 s) as [[s2 tr2] p2]. reflexivity.
  - destruct (step o s) as [[s1 tr1]|msg]; [|reflexivity].
    rewrite IH. destruct (run os1 s1) as [[s2 tr2] [msg|]].
    + reflexivity.
    + destruct (run os2 s2) as [[s3 tr3] p3]. rewrite app_assoc. reflexivity.
Qed.

Lemma stack_pushes_accepted xs : forall s,
  draining s = false ->
  Z.of_nat (length (buffer s) + length xs) <= height s ->
  exists i' tr,
    Slice.elems i' = buffer s ++ xs /\
    run (map PushOp xs) s = (set_items i' s, tr, None) /\
    overloads tr = [] /\ first_overloads tr = [].
Proof.
  induction xs as [|x xs IH]; intros s Hd Hroom.
  - exists (items s), []. rewrite app_nil_r. destruct s. auto.
  - simpl. rewrite stack_Push_accept.
    2:{ unfold stack_overloaded, Height, Count, Slice.len, buffer in *. rewrite Hd.
        simpl in Hroom. rewrite orb_false_r. apply Z.leb_gt. lia. }
    destruct (IH (set_items (Slice.append (items s) x) s)) as (i' & tr & He & Hr & Ho & Hf).
    + assumption.
    + unfold buffer in *. simpl in *. rewrite elems_append, length_app. simpl. lia.
    + rewrite Hr. exists i', ([Lock; Go Dispatch; Unlock] ++ tr).
      unfold buffer in *. simpl in *. rewrite elems_append, <- app_assoc in He.
      unfold overloads, first_overloads in *. simpl. rewrite Ho, Hf. auto.
Qed.

Lemma stack_pushes_overloaded xs : forall s,
  draining s = false ->
  1 <= height s ->
  Z.of_nat (length (buffer s)) = height s ->
  0 <= overload s ->
  overload s + Z.of_nat (length xs) <= GoInt.max_int ->
  exists i' tr,
    length (Slice.elems i') = length (buffer s) /\
    run (map PushOp xs) s =
      (set_overload (overload s + Z.of_nat (length xs)) (set_items i' s), tr, None) /\
    length (overloads tr) = (if onOverload s then length xs else 0%nat) /\
    length (first_overloads tr) =
      match xs with
      | [] => 0%nat
      | _ => if (overload s =? 0) && onFirstOverload s then 1%nat else 0%nat
      end.
Proof.
  induction xs as [|x xs IH]; intros s Hd Hheight Hfull Hov Hmax.
  - exists (items s), []. simpl. rewrite Z.add_0_r. destruct s.
    simpl. destruct onOverload0; auto.
  - assert (Hincr : GoInt.incr (overload s) = overload s + 1).
    { apply (incr_below _ GoInt.max_int); [unfold GoInt.in_range, GoInt.min_int, GoInt.max_int; lia|].
      simpl in Hmax. lia. }
    assert (Hover : stack_overloaded s = true).
    { unfold stack_overloaded, Height, Count, Slice.len, buffer in *.
      apply orb_true_iff. left. apply Z.leb_le. lia. }
    simpl.
    destruct (buffer s) as [|old rest] eqn:Eb; [simpl in Hfull; lia|].
    rewrite (stack_Push_overload _ _ old rest) by assumption.
    cbv zeta. unfold overloaded. cbn [fst snd overload set_items]. rewrite Hincr.
    match goal with |- context [run (map PushOp xs) ?s1] =>
      destruct (IH s1) as (i' & tr & He & Hr & Ho & Hf) end.
    + assumption.
    + assumption.
    + unfold buffer in *. simpl. rewrite elems_append, length_app. simpl in *. lia.
    + simpl. lia.
    + simpl in *. lia.
    + rewrite Hr. simpl in He, Ho, Hf. eexists i', _. split; [|split; [|split]].
      * rewrite He. unfold buffer. simpl. rewrite elems_append, length_app. simpl. lia.
      * cbn [length]. rewrite Nat2Z.inj_succ.
        replace (overload s + Z.succ (Z.of_nat (length xs)))
          with (overload s + 1 + Z.of_nat (length xs)) by lia.
        reflexivity.
      * rewrite !overloads_app, !length_app, Ho. simpl.
        destruct (onOverload s), ((overload s + 1 =? 1) && onFirstOverload s);
          reflexivity.
      * rewrite !first_overloads_app, !length_app, Hf. simpl.
        destruct (Z.eqb_spec (overload s) 0) as [E0|E0]; simpl.
        -- rewrite E0. simpl. destruct (onOverload s), (onFirstOverload s), xs; reflexivity.
        -- destruct (Z.eqb_spec (overload s + 1) 0); [lia|].
           destruct (Z.eqb_spec (overload s + 1) 1); [lia|]. simpl.
           destruct (onOverload s), xs; reflexivity.
Qed.

End StackAccounting.

Section StackFirstOverload.
Context `{GoEnv}.
Import Stack.

(** [c + k] pushes onto an empty stack of capacity [c]: the first [c] are
    accepted, the next one is the first overload, the others follow it. *)
Lemma stack_fill_then_overload (c k : nat) (xs : list Item) (q : PushStack) :
  (1 <= c)%nat -> (0 < k)%nat -> Z.of_nat k <= GoInt.max_int ->
  length xs = (c + k)%nat ->
  draining q = false -> height q = Z.of_nat c -> buffer q = [] -> overload q = 0 ->
  exists q' tr,
    run (map PushOp xs) q = (q', tr, None) /\
    Overload q' = Z.of_nat k /\
    length (overloads tr) = (if onOverload q then k else 0%nat) /\
    length (first_overloads tr) = (if onFirstOverload q then 1%nat else 0%nat) /\
    exists x q1 tr1 q2 tr2 tr3,
      xs !! c = Some x /\
      run (map PushOp (take c xs)) q = (q1, tr1, None) /\
      Overload q1 = 0 /\ overloads tr1 = [] /\ first_overloads tr1 = [] /\
      Push x q1 = Ok (q2, tr2) /\
      Overload q2 = 1 /\
      length (overloads tr2) = (if onOverload q then 1%nat else 0%nat) /\
      length (first_overloads tr2) = (if onFirstOverload q then 1%nat else 0%nat) /\
      run (map PushOp (drop (S c) xs)) q2 = (q', tr3, None) /\
      first_overloads tr3 = [] /\
      tr = tr1 ++ tr2 ++ tr3.
Proof.
  intros Hc Hk Hmax Hlen Hd Hdep Hb Hov.
  destruct (lookup_lt_is_Some_2 xs c) as [x Hx]; [lia|].
  assert (Hxs : xs = take c xs ++ x :: drop (S c) xs).
  { rewrite <- (drop_S _ _ _ Hx). symmetry. apply take_drop. }
  assert (Hl1 : length (take c xs) = c) by (rewrite length_take; lia).
  assert (Hl3 : length (drop (S c) xs) = (k - 1)%nat) by (rewrite length_drop; lia).
  destruct (stack_pushes_accepted (take c xs) q) as (s1 & tr1 & He1 & Hr1 & Ho1 & Hf1).
  { assumption. }
  { rewrite Hb, Hl1, Hdep. simpl. lia. }
  destruct (stack_pushes_overloaded [x] (set_items s1 q))
    as (s2 & tr2' & He2 & Hr2 & Ho2 & Hf2).
  { assumption. }
  { simpl. lia. }
  { unfold buffer in *. simpl. rewrite He1, Hb, Hdep. simpl. rewrite Hl1. reflexivity. }
  { simpl. lia. }
  { simpl. rewrite Hov. simpl. unfold GoInt.max_int. lia. }
  cbn [map run step] in Hr2.
  destruct (Push x (set_items s1 q)) as [[q2 tr2]|msg] eqn:EP; [|discriminate].
  rewrite app_nil_r in Hr2. injection Hr2 as -> ->.
  simpl in Ho2, Hf2. rewrite Hov in Hf2. simpl in Hf2.
  match type of EP with _ = Ok (?q2, _) =>
    destruct (stack_pushes_overloaded (drop (S c) xs) q2)
      as (s3 & tr3 & He3 & Hr3 & Ho3 & Hf3) end.
  { assumption. }
  { simpl. lia. }
  { unfold buffer in *. simpl in *. rewrite He2, He1, Hb, Hdep. simpl. rewrite Hl1. reflexivity. }
  { simpl. lia. }
  { simpl. rewrite Hov, Hl3. lia. }
  simpl in Hr3, Ho3, Hf3. rewrite Hov in EP, Hr3, Hf3.
  change (0 + Z.of_nat 1) with 1 in EP, Hr3, Hf3.
  assert (Hf3' : first_overloads tr3 = []).
  { apply length_zero_iff_nil. rewrite Hf3. clear. destruct (drop (S c) xs); reflexivity. }
  eexists _, (tr1 ++ tr2' ++ tr3). split; [|split; [|split; [|split]]].
  - rewrite Hxs at 1. rewrite map_app, stack_run_app, Hr1. cbn [map run step].
    rewrite EP, Hr3. reflexivity.
  - unfold Overload. simpl. rewrite Hl3. lia.
  - rewrite !overloads_app, !length_app, Ho1, Ho2, Ho3, Hl3. simpl.
    destruct (onOverload q); lia.
  - rewrite !first_overloads_app, !length_app, Hf1, Hf2, Hf3'. simpl.
    destruct (onFirstOverload q); reflexivity.
  - eexists x, _, tr1, _, tr2', tr3.
    split; [exact Hx|]. split; [exact Hr1|]. split; [exact Hov|].
    split; [exact Ho1|]. split; [exact Hf1|]. split; [exact EP|].
    split; [reflexivity|].
    split; [exact Ho2|]. split; [exact Hf2|].
    split; [exact Hr3|]. split; [exact Hf3'|reflexivity].
Qed.

End StackFirstOverload.

Section StackSteps.
Context `{GoEnv}.
Import Stack.

Lemma stack_Push_cases item s s' tr :
  Push item s = Ok (s', tr) ->
  (stack_overloaded s = false /\
     s' = set_items (Slice.append (items s) item) s /\
     tr = [Lock; Go Dispatch; Unlock]) \/
  (stack_overloaded s = true /\
     exists old rest,
       buffer s = old :: rest /\
       let first := Slice.mk [old] (rest ++ Slice.spare (items s)) in
       let s1 := set_items (Slice.append (Slice.mk rest (Slice.spare (items s))) item) s in
       s' = fst (overloaded first s1) /\
       tr = [Lock; Go Dispatch] ++ snd (overloaded first s1) ++ [Unlock]).
Proof.
  intros HP.
  destruct (stack_overloaded s) eqn:Eo.
  - destruct (buffer s) as [|old rest] eqn:Eb.
    { rewrite stack_Push_overload_empty in HP by assumption. discriminate. }
    rewrite (stack_Push_overload _ _ old rest) in HP by assumption.
    injection HP as <- <-. right. eauto 10.
  - rewrite stack_Push_accept in HP by assumption.
    injection HP as <- <-. left. auto.
Qed.


Lemma stack_step_calls o s s' tr :
  step o s = Ok (s', tr) ->
  calls_under_lock false tr = called tr /\
  forallb is_overload_handler (called tr) = true /\
  forallb (fun c => negb (is_overload_handler c)) (spawned tr) = true.
Proof.
  intros Hs. destruct o; simpl in Hs;
    try match type of Hs with Stack.Empty _ = _ => apply stack_Empty_Ok in Hs end;
    try (injection Hs as <- <-; simpl; auto; fail).
  - apply stack_Push_cases in Hs.
    destruct Hs as [(_ & _ & ->)|(_ & old & rest & _ & _ & ->)].
    + simpl. auto.
    + rewrite stack_overloaded_trace. simpl.
      destruct (onOverload s), (_ && onFirstOverload s); simpl; auto.
  - destruct (readyToWork s) eqn:Er.
    + destruct (pop_take_ready s Er) as (rest & item & _ & Eg).
      rewrite Eg, bind_Ok in Hs. injection Hs as <- <-. simpl. auto.
    + rewrite pop_take_idle in Hs by assumption. injection Hs as <- <-. simpl. auto.
  - injection Hs as Hs. unfold workerCompleted, setDrained in Hs.
    destruct (availableWorkers s <? concurrency s); simpl in Hs.
    all: destruct (_ && _) in Hs; injection Hs as <- <-; simpl.
    all: try destruct (onDrained s); simpl; auto.
  - injection Hs as <- <-. unfold pop_rest. destruct (draining s); simpl; auto.
  - unfold Start in Hs. destruct (worker s); [|discriminate].
    injection Hs as <- <-. simpl. auto.
  - injection Hs as Hs. unfold Drain, Drain_check, Drain_mark, setDrained in Hs.
    destruct (_ && _) in Hs; injection Hs as <- <-; simpl; auto.
    destruct (onDrained s); simpl; auto.
  - injection Hs as Hs. unfold Drain_check, setDrained in Hs.
    destruct (_ && _) in Hs; injection Hs as <- <-; simpl; auto.
    destruct (onDrained s); simpl; auto.
Qed.

(** One [pop] hands the item it takes to the worker twice: once in
    [doWork], once by the [go s.worker(item)] that follows it. *)
Lemma stack_pop_works_twice s s1 item tr1 :
  pop_take s = Ok (s1, Some item, tr1) -> worker s1 = true ->
  exists s2 tr, pop s = Ok (s2, tr) /\ worked tr = [item; item] /\ items s2 = items s1.
Proof.
  intros Hg Hw. unfold pop. rewrite Hg, bind_Ok. unfold doWork. rewrite Hw.
  destruct (workerCompleted s1) as [s2 tr2] eqn:Ew.
  cbn [negb]. rewrite bind_Ok.
  eexists _, _. split; [reflexivity|].
  assert (items s2 = items s1 /\ worked tr2 = []) as [Hi Hw2].
  { unfold workerCompleted, setDrained in Ew.
    destruct (availableWorkers s1 <? concurrency s1); simpl in Ew.
    all: destruct (_ && _) in Ew; injection Ew as <- <-; simpl.
    all: try destruct (onDrained s1); auto. }
  split; [|exact Hi].
  rewrite !worked_app, Hw2.
  assert (worked tr1 = []) as ->.
  { destruct (readyToWork s) eqn:Er.
    - destruct (pop_take_ready s Er) as (? & ? & _ & Eg).
      rewrite Eg in Hg. injection Hg as _ _ <-. reflexivity.
    - rewrite pop_take_idle in Hg by assumption. discriminate. }
  unfold pop_rest. destruct (draining s2); reflexivity.
Qed.

(** With a nil worker the [pop] that has taken an item panics. *)
Lemma stack_pop_nil_worker s s1 item tr1 :
  pop_take s = Ok (s1, Some item, tr1) -> worker s1 = false ->
  pop s = Panic nil_call.
Proof.
  intros Hg Hw. unfold pop. rewrite Hg, bind_Ok. unfold doWork. rewrite Hw. reflexivity.
Qed.

End StackSteps.

(** ** Stopped components *)

Section StoppedSteps.
Context `{GoEnv}.



End StoppedSteps.

(** ** The goroutines of [get]: the queue *)

Section QueueGetsFacts.
Context `{GoEnv}.
Import QueueGets.

Lemma first_cell_cons x l sp : first_cell (Slice.mk (x :: l) sp) = Ok x.
Proof. unfold first_cell. rewrite upto_1_cons, bind_Ok. apply index_0_cons. Qed.

Lemma queue_gets_step_other o m :
  other o = true ->
  step (Step o) m =
    '(q1, tr) ← Queue.step o (queue m);
    Ok (mk q1 (holding m) (taken m) (dropped m), tr).
Proof. destruct o; try discriminate; reflexivity. Qed.

(** Such a step hands nothing to the worker or to [onOverload], and
    leaves the buffer alone unless it is [Empty]. *)
Lemma queue_step_other o q q' tr :
  other o = true ->
  Queue.step o q = Ok (q', tr) ->
  worked tr = [] /\ overloads tr = [] /\
  (o <> Queue.EmptyOp -> Queue.items q' = Queue.items q) /\
  (same_handler (Step o) = true -> Queue.onOverload q' = Queue.onOverload q).
Proof.
  intros Ho Hs. destruct o; try discriminate; simpl in Hs;
    try match type of Hs with Queue.Empty _ = _ => apply queue_Empty_Ok in Hs end.
  - injection Hs as Hs. unfold Queue.workerCompleted, Queue.setDrained in Hs.
    destruct (Queue.availableWorkers q <? Queue.concurrency q); simpl in Hs.
    all: destruct (_ && _) in Hs; injection Hs as <- <-; simpl.
    all: try destruct (Queue.onDrained q); simpl; auto.
  - injection Hs as <- <-. unfold Queue.get_rest. destruct (Queue.draining q); simpl; auto.
  - unfold Queue.Start in Hs. destruct (Queue.worker q); [|discriminate].
    injection Hs as <- <-. simpl. auto.
  - injection Hs as <- <-. simpl. auto.
  - injection Hs as Hs. unfold Queue.Drain, Queue.Drain_check, Queue.Drain_mark,
      Queue.setDrained in Hs.
    destruct (_ && _) in Hs; injection Hs as <- <-; simpl.
    all: try destruct (Queue.onDrained q); simpl; auto.
  - injection Hs as <- <-. simpl. auto.
  - injection Hs as Hs. unfold Queue.Drain_check, Queue.setDrained in Hs.
    destruct (_ && _) in Hs; injection Hs as <- <-; simpl.
    all: try destruct (Queue.onDrained q); simpl; auto.
  - injection Hs as <- <-. simpl. repeat split; auto. intros E. contradiction.
  - injection Hs as <- <-. simpl. auto.
  - injection Hs as <- <-. simpl. repeat split; auto. discriminate.
  - injection Hs as <- <-. simpl. auto.
  - injection Hs as <- <-. simpl. auto.
Qed.

(** What an insertion does to the buffer, and what it reports. *)
Lemma queue_Put_dropItem item q q' tr :
  Queue.Put item q = Ok (q', tr) ->
  Queue.buffer q' `sublist_of` Queue.buffer q ++ [item] /\
  Queue.buffer q ++ [item] ≡ₚ Queue.buffer q' ++ dropItem item q /\
  overloads tr = (if Queue.onOverload q then dropItem item q else []) /\
  worked tr = [] /\
  Queue.onOverload q' = Queue.onOverload q.
Proof.
  intros HP. apply Put_cases in HP. unfold dropItem.
  fold (queue_overloaded q).
  destruct HP as [(-> & -> & ->)|[(-> & -> & -> & ->)|(-> & -> & old & rest & Eb & -> & ->)]].
  - unfold Queue.buffer. simpl. rewrite elems_append, app_nil_r.
    destruct (Queue.onOverload q); auto.
  - rewrite overloaded_trace. unfold Queue.buffer. simpl.
    split; [apply sublist_inserts_r; reflexivity|]. split; [reflexivity|].
    destruct (Queue.onOverload q), (_ && Queue.onFirstOverload q); simpl; auto.
  - rewrite overloaded_trace. cbn [Queue.onOverload Queue.set_items].
    unfold Queue.buffer in *. destruct (Queue.items q) as [es sp]. simpl in Eb. subst es.
    rewrite first_cell_cons. simpl. rewrite elems_append. simpl.
    split; [apply sublist_cons; reflexivity|].
    split; [rewrite (Permutation_app_comm (rest ++ [item]) [old]); reflexivity|].
    destruct (Queue.onOverload q), (_ && Queue.onFirstOverload q); simpl; auto.
Qed.

(** One step: the items newly taken and newly dropped. *)
Lemma queue_gets_step_order o m m' tr :
  keeps o = true ->
  step o m = Ok (m', tr) ->
  exists nt nd,
    taken m' = taken m ++ nt /\ dropped m' = dropped m ++ nd /\
    worked tr ++ holding m' ≡ₚ holding m ++ nt /\
    nt ++ Queue.buffer (queue m') `sublist_of` Queue.buffer (queue m) ++ inserted [o] /\
    Queue.buffer (queue m) ++ inserted [o] ≡ₚ nt ++ Queue.buffer (queue m') ++ nd.
Proof.
  intros Hk Hs. destruct o as [o|i].
  - destruct (other o) eqn:Eo.
    + rewrite queue_gets_step_other in Hs by assumption.
      destruct (Queue.step o (queue m)) as [[q1 tr1]|msg] eqn:Es; [|discriminate].
      rewrite bind_Ok in Hs. injection Hs as <- <-.
      destruct (queue_step_other _ _ _ _ Eo Es) as (Hw & _ & Hi & _).
      exists [], []. cbn [queue holding taken dropped]. rewrite !app_nil_r, Hw.
      assert (Hins : inserted [Step o] = []) by (destruct o; try discriminate; reflexivity).
      rewrite Hins, app_nil_r. unfold Queue.buffer. rewrite Hi.
      * auto.
      * intros ->. discriminate.
    + destruct o; try discriminate.
      * cbn [step] in Hs.
        destruct (Queue.Put item (queue m)) as [[q1 tr1]|msg] eqn:EP; [|discriminate].
        rewrite bind_Ok in Hs. injection Hs as <- <-.
        destruct (queue_Put_dropItem _ _ _ _ EP) as (Hsub & Hperm & _ & Hw & _).
        exists [], (dropItem item (queue m)). cbn [queue holding taken dropped].
        rewrite !app_nil_r, Hw. unfold inserted. cbn [omap app].
        auto.
      * cbn [step] in Hs. unfold inserted. cbn [omap]. rewrite !app_nil_r.
        destruct (Queue.readyToWork (queue m)) eqn:Er.
        -- destruct (get_take_ready _ Er) as (item & rest & Eb & Eg).
           rewrite Eg, bind_Ok in Hs. injection Hs as <- <-.
           exists [item], []. cbn [queue holding taken dropped worked omap].
           rewrite Eb, !app_nil_r. unfold Queue.buffer. simpl. auto.
        -- rewrite get_take_idle in Hs by assumption. rewrite bind_Ok in Hs.
           injection Hs as <- <-.
           exists [], []. cbn [queue holding taken dropped worked omap].
           rewrite !app_nil_r. simpl. auto.
  - cbn [step] in Hs. unfold inserted. cbn [omap]. rewrite !app_nil_r.
    destruct (holding m !! i) as [item|] eqn:Ei.
    + destruct (Queue.worker (queue m)); [|discriminate].
      injection Hs as <- <-.
      exists [], []. cbn [queue holding taken dropped]. rewrite !app_nil_r.
      split; [reflexivity|]. split; [reflexivity|].
      split; [|auto].
      simpl. symmetry. apply delete_Permutation. assumption.
    + injection Hs as <- <-.
      exists [], []. rewrite !app_nil_r. simpl. auto.
Qed.

Lemma queue_gets_inserted_cons o os :
  inserted (o :: os) = inserted [o] ++ inserted os.
Proof. unfold inserted. destruct o as [[]|]; reflexivity. Qed.

Lemma queue_gets_run_order os : forall m m' tr,
  forallb keeps os = true ->
  run os m = (m', tr, None) ->
  exists nt nd,
    taken m' = taken m ++ nt /\ dropped m' = dropped m ++ nd /\
    worked tr ++ holding m' ≡ₚ holding m ++ nt /\
    nt ++ Queue.buffer (queue m') `sublist_of` Queue.buffer (queue m) ++ inserted os /\
    Queue.buffer (queue m) ++ inserted os ≡ₚ nt ++ Queue.buffer (queue m') ++ nd.
Proof.
  induction os as [|o os IH]; intros m m' tr Hos Hr; simpl in Hr.
  - injection Hr as <- <-. exists [], []. simpl. rewrite !app_nil_r. auto.
  - simpl in Hos. apply andb_true_iff in Hos as [Ho Hos].
    destruct (step o m) as [[m1 tr1]|msg] eqn:Es; [|discriminate].
    destruct (run os m1) as [[m2 tr2] p2] eqn:Er.
    injection Hr as <- <- ->.
    destruct (queue_gets_step_order _ _ _ _ Ho Es) as (nt1 & nd1 & Ht1 & Hd1 & Hw1 & Hs1 & Hp1).
    destruct (IH _ _ _ Hos Er) as (nt2 & nd2 & Ht2 & Hd2 & Hw2 & Hs2 & Hp2).
    exists (nt1 ++ nt2), (nd1 ++ nd2).
    rewrite Ht2, Ht1, Hd2, Hd1, !app_assoc, worked_app, queue_gets_inserted_cons.
    split; [reflexivity|]. split; [reflexivity|]. split; [|split].
    + rewrite <- !app_assoc, Hw2, (app_assoc (worked tr1)), Hw1, <- !app_assoc.
      reflexivity.
    + rewrite <- !app_assoc.
      transitivity (nt1 ++ Queue.buffer (queue m1) ++ inserted os).
      * apply sublist_app; [reflexivity|assumption].
      * rewrite !app_assoc. apply sublist_app; [assumption|reflexivity].
    + rewrite (app_assoc (Queue.buffer (queue m))), Hp1.
      transitivity (nt1 ++ nd1 ++ (Queue.buffer (queue m1) ++ inserted os)).
      * solve_Permutation.
      * rewrite Hp2. solve_Permutation.
Qed.

(** With [onOverload] set and not registered anew, the handler is handed
    every dropped item. *)
Lemma queue_gets_step_reported o m m' tr :
  same_handler o = true ->
  Queue.onOverload (queue m) = true ->
  step o m = Ok (m', tr) ->
  Queue.onOverload (queue m') = true /\ dropped m' = dropped m ++ overloads tr.
Proof.
  intros Hh Hon Hs. destruct o as [o|i].
  - destruct (other o) eqn:Eo.
    + rewrite queue_gets_step_other in Hs by assumption.
      destruct (Queue.step o (queue m)) as [[q1 tr1]|msg] eqn:Es; [|discriminate].
      rewrite bind_Ok in Hs. injection Hs as <- <-.
      destruct (queue_step_other _ _ _ _ Eo Es) as (_ & Hov & _ & Hsame).
      cbn [queue dropped]. rewrite Hov, app_nil_r, Hsame by assumption. auto.
    + destruct o; try discriminate.
      * cbn [step] in Hs.
        destruct (Queue.Put item (queue m)) as [[q1 tr1]|msg] eqn:EP; [|discriminate].
        rewrite bind_Ok in Hs. injection Hs as <- <-.
        destruct (queue_Put_dropItem _ _ _ _ EP) as (_ & _ & Hov & _ & Hsame).
        cbn [queue dropped]. rewrite Hov, Hsame, Hon. auto.
      * cbn [step] in Hs.
        destruct (Queue.readyToWork (queue m)) eqn:Er.
        -- destruct (get_take_ready _ Er) as (item & rest & Eb & Eg).
           rewrite Eg, bind_Ok in Hs. injection Hs as <- <-.
           cbn [queue dropped]. simpl. rewrite app_nil_r. auto.
        -- rewrite get_take_idle in Hs by assumption. rewrite bind_Ok in Hs.
           injection Hs as <- <-. simpl. rewrite app_nil_r. auto.
  - cbn [step] in Hs.
    destruct (holding m !! i) as [item|] eqn:Ei.
    + destruct (Queue.worker (queue m)); [|discriminate].
      injection Hs as <- <-. simpl. rewrite app_nil_r. auto.
    + injection Hs as <- <-. simpl. rewrite app_nil_r. auto.
Qed.

Lemma queue_gets_run_reported os : forall m m' tr p,
  forallb same_handler os = true ->
  Queue.onOverload (queue m) = true ->
  run os m = (m', tr, p) ->
  dropped m' = dropped m ++ overloads tr.
Proof.
  induction os as [|o os IH]; intros m m' tr p Hos Hon Hr; simpl in Hr.
  - injection Hr as <- <- _. simpl. rewrite app_nil_r. reflexivity.
  - simpl in Hos. apply andb_true_iff in Hos as [Ho Hos].
    destruct (step o m) as [[m1 tr1]|msg] eqn:Es.
    + destruct (run os m1) as [[m2 tr2] p2] eqn:Er.
      injection Hr as <- <- _.
      destruct (queue_gets_step_reported _ _ _ _ Ho Hon Es) as (Hon1 & Hd1).
      rewrite (IH _ _ _ _ Hos Hon1 Er), Hd1, overloads_app, app_assoc. reflexivity.
    + injection Hr as <- <- _. simpl. rewrite app_nil_r. reflexivity.
Qed.



End QueueGetsFacts.

(** ** The goroutines of [get]: the batch queue *)

Section BatchGetsFacts.
Context `{GoEnv}.
Import BatchGets.

Lemma batch_gets_step_other o m :
  other o = true ->
  step (Step o) m =
    '(q1, tr) ← Batch.step o (queue m);
    Ok (mk q1 (holding m) (taken m) (dropped m), tr).
Proof. destruct o; try discriminate; reflexivity. Qed.

Lemma batch_step_other o q q' tr :
  other o = true ->
  Batch.step o q = Ok (q', tr) ->
  worked tr = [] /\ overloads tr = [] /\
  Batch.batchSize q' = Batch.batchSize q /\
  (o <> Batch.EmptyOp -> Batch.items q' = Batch.items q) /\
  (same_handler (Step o) = true -> Batch.onOverload q' = Batch.onOverload q).
Proof.
  intros Ho Hs. destruct o; try discriminate; simpl in Hs;
    try match type of Hs with Batch.Empty _ = _ => apply batch_Empty_Ok in Hs end.
  - injection Hs as Hs. unfold Batch.workerCompleted, Batch.setDrained in Hs.
    destruct (Batch.availableWorkers q <? Batch.concurrency q); simpl in Hs.
    all: destruct (_ && _) in Hs; injection Hs as <- <-; simpl.
    all: try destruct (Batch.onDrained q); simpl; auto 10.
  - injection Hs as <- <-. unfold Batch.get_rest.
    destruct (Batch.draining q); simpl; auto 10.
  - unfold Batch.Start in Hs. destruct (Batch.worker q); [|discriminate].
    injection Hs as <- <-. simpl. auto 10.
  - injection Hs as <- <-. simpl. auto 10.
  - injection Hs as Hs. unfold Batch.Drain, Batch.Drain_check, Batch.Drain_mark,
      Batch.setDrained in Hs.
    destruct (_ && _) in Hs; injection Hs as <- <-; simpl.
    all: try destruct (Batch.onDrained q); simpl; auto 10.
  - injection Hs as <- <-. simpl. auto 10.
  - injection Hs as Hs. unfold Batch.Drain_check, Batch.setDrained in Hs.
    destruct (_ && _) in Hs; injection Hs as <- <-; simpl.
    all: try destruct (Batch.onDrained q); simpl; auto 10.
  - injection Hs as <- <-. simpl. repeat split; auto. intros E. contradiction.
  - injection Hs as <- <-. simpl. auto 10.
  - injection Hs as <- <-. simpl. repeat split; auto. discriminate.
  - injection Hs as <- <-. simpl. auto 10.
  - injection Hs as <- <-. simpl. auto 10.
Qed.

Lemma batch_Put_dropItem item q q' tr :
  Batch.Put item q = Ok (q', tr) ->
  Batch.buffer q' `sublist_of` Batch.buffer q ++ [item] /\
  Batch.buffer q ++ [item] ≡ₚ Batch.buffer q' ++ dropItem item q /\
  overloads tr = (if Batch.onOverload q then dropItem item q else []) /\
  worked tr = [] /\
  Batch.onOverload q' = Batch.onOverload q /\
  Batch.batchSize q' = Batch.batchSize q.
Proof.
  intros HP. apply batch_Put_cases in HP. unfold dropItem.
  fold (batch_overloaded q).
  destruct HP as [(-> & -> & ->)|[(-> & -> & -> & ->)|(-> & -> & old & rest & Eb & -> & ->)]].
  - unfold Batch.buffer. simpl. rewrite elems_append, app_nil_r.
    destruct (Batch.onOverload q); auto 10.
  - rewrite batch_overloaded_trace. unfold Batch.buffer. simpl.
    split; [apply sublist_inserts_r; reflexivity|]. split; [reflexivity|].
    destruct (Batch.onOverload q), (_ && Batch.onFirstOverload q); simpl; auto.
  - rewrite batch_overloaded_trace. cbn [Batch.onOverload Batch.set_items].
    unfold Batch.buffer in *. destruct (Batch.items q) as [es sp]. simpl in Eb. subst es.
    rewrite first_cell_cons. simpl. rewrite elems_append. simpl.
    split; [apply sublist_cons; reflexivity|].
    split; [rewrite (Permutation_app_comm (rest ++ [item]) [old]); reflexivity|].
    destruct (Batch.onOverload q), (_ && Batch.onFirstOverload q); simpl; auto.
Qed.

(** The batch a ready [get] takes has between 1 and [batchSize] items. *)
Lemma batch_take_sized (q : Batch.PushBatchQueue) :
  Batch.readyToWork q = true -> 1 <= Batch.batchSize q ->
  sized (Batch.batchSize q)
    (take (Z.to_nat (Z.min (Batch.batchSize q) (Batch.Count q))) (Batch.buffer q)).
Proof.
  intros Hr Hb. destruct (batch_get_take_ready q Hr Hb) as (Hn & _).
  unfold sized. rewrite length_take. lia.
Qed.

Lemma batch_gets_step_order o m m' tr :
  keeps o = true -> 1 <= Batch.batchSize (queue m) ->
  step o m = Ok (m', tr) ->
  Batch.batchSize (queue m') = Batch.batchSize (queue m) /\
  exists nt nd,
    taken m' = taken m ++ nt /\ dropped m' = dropped m ++ nd /\
    Forall (sized (Batch.batchSize (queue m))) nt /\
    worked tr ++ holding m' ≡ₚ holding m ++ nt /\
    concat nt ++ Batch.buffer (queue m') `sublist_of` Batch.buffer (queue m) ++ inserted [o] /\
    Batch.buffer (queue m) ++ inserted [o] ≡ₚ concat nt ++ Batch.buffer (queue m') ++ nd.
Proof.
  intros Hk Hb Hs. destruct o as [o|i].
  - destruct (other o) eqn:Eo.
    + rewrite batch_gets_step_other in Hs by assumption.
      destruct (Batch.step o (queue m)) as [[q1 tr1]|msg] eqn:Es; [|discriminate].
      rewrite bind_Ok in Hs. injection Hs as <- <-.
      destruct (batch_step_other _ _ _ _ Eo Es) as (Hw & _ & Hbs & Hi & _).
      split; [exact Hbs|].
      exists [], []. cbn [queue holding taken dropped concat]. rewrite !app_nil_r, Hw.
      assert (Hins : inserted [Step o] = []) by (destruct o; try discriminate; reflexivity).
      rewrite Hins, app_nil_r. unfold Batch.buffer. rewrite Hi.
      * cbn [app]. auto 10.
      * intros ->. discriminate.
    + destruct o; try discriminate.
      * cbn [step] in Hs.
        destruct (Batch.Put item (queue m)) as [[q1 tr1]|msg] eqn:EP; [|discriminate].
        rewrite bind_Ok in Hs. injection Hs as <- <-.
        destruct (batch_Put_dropItem _ _ _ _ EP) as (Hsub & Hperm & _ & Hw & _ & Hbs).
        split; [exact Hbs|].
        exists [], (dropItem item (queue m)). cbn [queue holding taken dropped concat].
        rewrite !app_nil_r, Hw. unfold inserted. cbn [omap app].
        auto 10.
      * cbn [step] in Hs. unfold inserted. cbn [omap]. rewrite !app_nil_r.
        destruct (Batch.readyToWork (queue m)) eqn:Er.
        -- pose proof (batch_take_sized _ Er Hb) as Hsz.
           destruct (batch_get_take_ready _ Er Hb) as (Hn & Eg).
           rewrite Eg, bind_Ok in Hs. injection Hs as <- <-.
           split; [reflexivity|].
           exists [take (Z.to_nat (Z.min (Batch.batchSize (queue m)) (Batch.Count (queue m))))
                     (Batch.buffer (queue m))], [].
           cbn [queue holding taken dropped worked omap concat].
           rewrite !app_nil_r. unfold Batch.buffer. cbn [Batch.items Batch.set_items
             Batch.set_availableWorkers Slice.elems].
           rewrite take_drop.
           split; [reflexivity|]. split; [reflexivity|].
           split; [constructor; [exact Hsz|constructor]|]. auto.
        -- rewrite batch_get_take_idle in Hs by assumption. rewrite bind_Ok in Hs.
           injection Hs as <- <-.
           split; [reflexivity|].
           exists [], []. cbn [queue holding taken dropped worked omap concat].
           rewrite !app_nil_r. simpl. auto 10.
  - cbn [step] in Hs. unfold inserted. cbn [omap]. rewrite !app_nil_r.
    destruct (holding m !! i) as [batch|] eqn:Ei.
    + destruct (Batch.worker (queue m)); [|discriminate].
      injection Hs as <- <-.
      split; [reflexivity|].
      exists [], []. cbn [queue holding taken dropped concat]. rewrite !app_nil_r.
      split; [reflexivity|]. split; [reflexivity|]. split; [constructor|].
      split; [|auto].
      simpl. symmetry. apply delete_Permutation. assumption.
    + injection Hs as <- <-.
      split; [reflexivity|].
      exists [], []. rewrite !app_nil_r. simpl. auto 10.
Qed.

Lemma batch_gets_inserted_cons o os :
  inserted (o :: os) = inserted [o] ++ inserted os.
Proof. unfold inserted. destruct o as [[]|]; reflexivity. Qed.

Lemma batch_gets_run_order os : forall m m' tr,
  forallb keeps os = true -> 1 <= Batch.batchSize (queue m) ->
  run os m = (m', tr, None) ->
  exists nt nd,
    taken m' = taken m ++ nt /\ dropped m' = dropped m ++ nd /\
    Forall (sized (Batch.batchSize (queue m))) nt /\
    worked tr ++ holding m' ≡ₚ holding m ++ nt /\
    concat nt ++ Batch.buffer (queue m') `sublist_of` Batch.buffer (queue m) ++ inserted os /\
    Batch.buffer (queue m) ++ inserted os ≡ₚ concat nt ++ Batch.buffer (queue m') ++ nd.
Proof.
  induction os as [|o os IH]; intros m m' tr Hos Hb Hr; simpl in Hr.
  - injection Hr as <- <-. exists [], []. simpl. rewrite !app_nil_r. auto 10.
  - simpl in Hos. apply andb_true_iff in Hos as [Ho Hos].
    destruct (step o m) as [[m1 tr1]|msg] eqn:Es; [|discriminate].
    destruct (run os m1) as [[m2 tr2] p2] eqn:Er.
    injection Hr as <- <- ->.
    destruct (batch_gets_step_order _ _ _ _ Ho Hb Es)
      as (Hbs & nt1 & nd1 & Ht1 & Hd1 & Hz1 & Hw1 & Hs1 & Hp1).
    destruct (IH _ _ _ Hos ltac:(rewrite Hbs; exact Hb) Er)
      as (nt2 & nd2 & Ht2 & Hd2 & Hz2 & Hw2 & Hs2 & Hp2).
    rewrite Hbs in Hz2.
    exists (nt1 ++ nt2), (nd1 ++ nd2).
    rewrite Ht2, Ht1, Hd2, Hd1, !app_assoc, worked_app, batch_gets_inserted_cons, concat_app.
    split; [reflexivity|]. split; [reflexivity|].
    split; [apply Forall_app; split; assumption|]. split; [|split].
    + rewrite <- !app_assoc, Hw2, (app_assoc (worked tr1)), Hw1, <- !app_assoc.
      reflexivity.
    + rewrite <- !app_assoc.
      transitivity (concat nt1 ++ Batch.buffer (queue m1) ++ inserted os).
      * apply sublist_app; [reflexivity|assumption].
      * rewrite !app_assoc. apply sublist_app; [assumption|reflexivity].
    + rewrite (app_assoc (Batch.buffer (queue m))), Hp1.
      transitivity (concat nt1 ++ nd1 ++ (Batch.buffer (queue m1) ++ inserted os)).
      * solve_Permutation.
      * rewrite Hp2. solve_Permutation.
Qed.

Lemma batch_gets_step_reported o m m' tr :
  same_handler o = true ->
  Batch.onOverload (queue m) = true ->
  step o m = Ok (m', tr) ->
  Batch.onOverload (queue m') = true /\ dropped m' = dropped m ++ overloads tr.
Proof.
  intros Hh Hon Hs. destruct o as [o|i].
  - destruct (other o) eqn:Eo.
    + rewrite batch_gets_step_other in Hs by assumption.
      destruct (Batch.step o (queue m)) as [[q1 tr1]|msg] eqn:Es; [|discriminate].
      rewrite bind_Ok in Hs. injection Hs as <- <-.
      destruct (batch_step_other _ _ _ _ Eo Es) as (_ & Hov & _ & _ & Hsame).
      cbn [queue dropped]. rewrite Hov, app_nil_r, Hsame by assumption. auto.
    + destruct o; try discriminate.
      * cbn [step] in Hs.
        destruct (Batch.Put item (queue m)) as [[q1 tr1]|msg] eqn:EP; [|discriminate].
        rewrite bind_Ok in Hs. injection Hs as <- <-.
        destruct (batch_Put_dropItem _ _ _ _ EP) as (_ & _ & Hov & _ & Hsame & _).
        cbn [queue dropped]. rewrite Hov, Hsame, Hon. auto.
      * cbn [step] in Hs.
        destruct (Batch.get_take (queue m)) as [[[q1 got] tr1]|msg] eqn:Eg; [|discriminate].
        rewrite bind_Ok in Hs.
        assert (Hq : Batch.onOverload q1 = Batch.onOverload (queue m) /\ overloads tr1 = []).
        { unfold Batch.get_take in Eg.
          destruct (Batch.readyToWork (queue m)); simpl in Eg.
          - destruct (Slice.upto _ _) as [b|] in Eg; [|discriminate].
            rewrite bind_Ok in Eg.
            destruct (Slice.from _ _) as [rest|] in Eg; [|discriminate].
            injection Eg as <- _ <-. auto.
          - injection Eg as <- _ <-. auto. }
        destruct Hq as [Hq Ho].
        destruct got; injection Hs as <- <-; cbn [queue dropped];
          rewrite Hq, Ho, app_nil_r; auto.
  - cbn [step] in Hs.
    destruct (holding m !! i) as [batch|] eqn:Ei.
    + destruct (Batch.worker (queue m)); [|discriminate].
      injection Hs as <- <-. simpl. rewrite app_nil_r. auto.
    + injection Hs as <- <-. simpl. rewrite app_nil_r. auto.
Qed.

Lemma batch_gets_run_reported os : forall m m' tr p,
  forallb same_handler os = true ->
  Batch.onOverload (queue m) = true ->
  run os m = (m', tr, p) ->
  dropped m' = dropped m ++ overloads tr.
Proof.
  induction os as [|o os IH]; intros m m' tr p Hos Hon Hr; simpl in Hr.
  - injection Hr as <- <- _. simpl. rewrite app_nil_r. reflexivity.
  - simpl in Hos. apply andb_true_iff in Hos as [Ho Hos].
    destruct (step o m) as [[m1 tr1]|msg] eqn:Es.
    + destruct (run os m1) as [[m2 tr2] p2] eqn:Er.
      injection Hr as <- <- _.
      destruct (batch_gets_step_reported _ _ _ _ Ho Hon Es) as (Hon1 & Hd1).
      rewrite (IH _ _ _ _ Hos Hon1 Er), Hd1, overloads_app, app_assoc. reflexivity.
    + injection Hr as <- <- _. simpl. rewrite app_nil_r. reflexivity.
Qed.



End BatchGetsFacts.

(** ** Every run of [Queue.step] is a run of [QueueGets] *)

Section CoarseRuns.
Context `{GoEnv}.

Lemma queue_step_worker o q q' tr :
  Queue.step o q = Ok (q', tr) -> Queue.worker q' = Queue.worker q.
Proof.
  intros Hs. destruct o; simpl in Hs;
    try match type of Hs with Queue.Empty _ = _ => apply queue_Empty_Ok in Hs end;
    try (injection Hs as <- <-; reflexivity).
  - apply Put_cases in Hs.
    destruct Hs as [(_ & -> & _)|[(_ & _ & -> & _)|(_ & _ & old & rest & _ & -> & _)]];
      reflexivity.
  - destruct (Queue.readyToWork q) eqn:Er.
    + destruct (get_take_ready q Er) as (item & rest & _ & Eg).
      rewrite Eg, bind_Ok in Hs. injection Hs as <- _. reflexivity.
    + rewrite get_take_idle in Hs by assumption. injection Hs as <- _. reflexivity.
  - injection Hs as Hs. unfold Queue.workerCompleted, Queue.setDrained in Hs.
    destruct (Queue.availableWorkers q <? Queue.concurrency q); simpl in Hs.
    all: destruct (_ && _) in Hs; injection Hs as <- _; reflexivity.
  - unfold Queue.Start in Hs. destruct (negb (Queue.worker q)) in Hs; [discriminate|].
    injection Hs as <- _. reflexivity.
  - injection Hs as Hs. unfold Queue.Drain, Queue.Drain_check, Queue.Drain_mark,
      Queue.setDrained in Hs.
    destruct (_ && _) in Hs; injection Hs as <- _; reflexivity.
  - injection Hs as Hs. unfold Queue.Drain_check, Queue.setDrained in Hs.
    destruct (_ && _) in Hs; injection Hs as <- _; reflexivity.
Qed.

(** A run of [Queue.step] on a queue with a worker is the run of
    [QueueGets] in which every [get] starts the worker right after its
    critical section: same queue, same trace, same panic. *)
Lemma queue_run_is_a_run_of_gets os : forall (q q' : Queue.PushQueue) tr p h d,
  Queue.worker q = true ->
  Queue.run os q = (q', tr, p) ->
  exists h' d',
    QueueGets.run (QueueGets.at_once os) (QueueGets.mk q [] h d)
    = (QueueGets.mk q' [] h' d', tr, p).
Proof.
  unfold QueueGets.at_once.
  induction os as [|o os IH]; intros q q' tr p h d Hw Hr; simpl in Hr.
  - injection Hr as <- <- <-. exists h, d. reflexivity.
  - destruct (Queue.step o q) as [[q1 tr1]|msg] eqn:Es.
    + destruct (Queue.run os q1) as [[q2 tr2] p2] eqn:Er.
      injection Hr as <- <- <-.
      pose proof (queue_step_worker _ _ _ _ Es) as Hw1. rewrite Hw in Hw1.
      destruct o; cbn [flat_map app QueueGets.run QueueGets.step
                        QueueGets.queue QueueGets.holding QueueGets.taken QueueGets.dropped].
      2:{ (* the critical section, then the worker *)
          simpl in Es.
          destruct (Queue.get_take q) as [[[qa got] tra]|msga] eqn:Eg; [|discriminate].
          rewrite bind_Ok in Es. injection Es as <- <-. rewrite bind_Ok.
          destruct got as [item|].
          - cbn [QueueGets.run QueueGets.step QueueGets.queue QueueGets.holding
                 QueueGets.taken QueueGets.dropped app lookup list_lookup].
            simpl. rewrite Hw1.
            destruct (IH _ _ _ _ (h ++ [item]) d Hw1 Er) as (h' & d' & ->).
            exists h', d'. rewrite <- !app_assoc. reflexivity.
          - cbn [QueueGets.run QueueGets.step QueueGets.queue QueueGets.holding
                 QueueGets.taken QueueGets.dropped app].
            simpl.
            destruct (IH _ _ _ _ h d Hw1 Er) as (h' & d' & ->).
            exists h', d'. rewrite !app_nil_r. reflexivity. }
      1:{ simpl in Es. rewrite Es, bind_Ok.
          destruct (IH _ _ _ _ h (d ++ QueueGets.dropItem item q) Hw1 Er) as (h' & d' & ->).
          exists h', d'. reflexivity. }
      all: rewrite Es, bind_Ok.
      all: destruct (IH _ _ _ _ h d Hw1 Er) as (h' & d' & ->).
      all: exists h', d'; reflexivity.
    + injection Hr as <- <- <-.
      destruct o; cbn [flat_map app QueueGets.run QueueGets.step
                        QueueGets.queue QueueGets.holding QueueGets.taken QueueGets.dropped].
      2:{ simpl in Es.
          destruct (Queue.get_take q) as [[[qa got] tra]|msga] eqn:Eg;
            [rewrite bind_Ok in Es; discriminate|].
          injection Es as <-. exists h, d. reflexivity. }
      1:{ simpl in Es. rewrite Es. exists h, d. reflexivity. }
      all: rewrite Es; exists h, d; reflexivity.
Qed.

End CoarseRuns.

(** ** Every run of [Batch.step] is a run of [BatchGets] *)

Section BatchCoarseRuns.
Context `{GoEnv}.

Lemma batch_step_worker o q q' tr :
  Batch.step o q = Ok (q', tr) -> Batch.worker q' = Batch.worker q.
Proof.
  intros Hs. destruct o; simpl in Hs;
    try match type of Hs with Batch.Empty _ = _ => apply batch_Empty_Ok in Hs end;
    try (injection Hs as <- <-; reflexivity).
  - apply batch_Put_cases in Hs.
    destruct Hs as [(_ & -> & _)|[(_ & _ & -> & _)|(_ & _ & old & rest & _ & -> & _)]];
      reflexivity.
  - unfold Batch.get_take in Hs.
    destruct (Batch.readyToWork q); simpl in Hs.
    + destruct (Slice.upto _ _) as [b|] in Hs; [|discriminate].
      rewrite bind_Ok in Hs.
      destruct (Slice.from _ _) as [rest|] in Hs; [|discriminate].
      injection Hs as <- _. reflexivity.
    + injection Hs as <- _. reflexivity.
  - injection Hs as Hs. unfold Batch.workerCompleted, Batch.setDrained in Hs.
    destruct (Batch.availableWorkers q <? Batch.concurrency q); simpl in Hs.
    all: destruct (_ && _) in Hs; injection Hs as <- _; reflexivity.
  - unfold Batch.Start in Hs. destruct (negb (Batch.worker q)) in Hs; [discriminate|].
    injection Hs as <- _. reflexivity.
  - injection Hs as Hs. unfold Batch.Drain, Batch.Drain_check, Batch.Drain_mark,
      Batch.setDrained in Hs.
    destruct (_ && _) in Hs; injection Hs as <- _; reflexivity.
  - injection Hs as Hs. unfold Batch.Drain_check, Batch.setDrained in Hs.
    destruct (_ && _) in Hs; injection Hs as <- _; reflexivity.
Qed.

(** A run of [Batch.step] on a batch queue with a worker is the run of
    [BatchGets] in which every [get] starts the worker right after its
    critical section: same queue, same trace, same panic. *)
Lemma batch_run_is_a_run_of_gets os : forall (q q' : Batch.PushBatchQueue) tr p h d,
  Batch.worker q = true ->
  Batch.run os q = (q', tr, p) ->
  exists h' d',
    BatchGets.run (BatchGets.at_once os) (BatchGets.mk q [] h d)
    = (BatchGets.mk q' [] h' d', tr, p).
Proof.
  unfold BatchGets.at_once.
  induction os as [|o os IH]; intros q q' tr p h d Hw Hr; simpl in Hr.
  - injection Hr as <- <- <-. exists h, d. reflexivity.
  - destruct (Batch.step o q) as [[q1 tr1]|msg] eqn:Es.
    + destruct (Batch.run os q1) as [[q2 tr2] p2] eqn:Er.
      injection Hr as <- <- <-.
      pose proof (batch_step_worker _ _ _ _ Es) as Hw1. rewrite Hw in Hw1.
      destruct o; cbn [flat_map app BatchGets.run BatchGets.step
                        BatchGets.queue BatchGets.holding BatchGets.taken BatchGets.dropped].
      2:{ (* the critical section, then the worker *)
          simpl in Es.
          destruct (Batch.get_take q) as [[[qa got] tra]|msga] eqn:Eg; [|discriminate].
          rewrite bind_Ok in Es. injection Es as <- <-. rewrite bind_Ok.
          destruct got as [batch|].
          - cbn [BatchGets.run BatchGets.step BatchGets.queue BatchGets.holding
                 BatchGets.taken BatchGets.dropped app lookup list_lookup].
            simpl. rewrite Hw1.
            destruct (IH _ _ _ _ (h ++ [batch]) d Hw1 Er) as (h' & d' & ->).
            exists h', d'. rewrite <- !app_assoc. reflexivity.
          - cbn [BatchGets.run BatchGets.step BatchGets.queue BatchGets.holding
                 BatchGets.taken BatchGets.dropped app].
            simpl.
            destruct (IH _ _ _ _ h d Hw1 Er) as (h' & d' & ->).
            exists h', d'. rewrite !app_nil_r. reflexivity. }
      1:{ simpl in Es. rewrite Es, bind_Ok.
          destruct (IH _ _ _ _ h (d ++ BatchGets.dropItem item q) Hw1 Er) as (h' & d' & ->).
          exists h', d'. reflexivity. }
      all: rewrite Es, bind_Ok.
      all: destruct (IH _ _ _ _ h d Hw1 Er) as (h' & d' & ->).
      all: exists h', d'; reflexivity.
    + injection Hr as <- <- <-.
      destruct o; cbn [flat_map app BatchGets.run BatchGets.step
                        BatchGets.queue BatchGets.holding BatchGets.taken BatchGets.dropped].
      2:{ simpl in Es.
          destruct (Batch.get_take q) as [[[qa got] tra]|msga] eqn:Eg;
            [rewrite bind_Ok in Es; discriminate|].
          injection Es as <-. exists h, d. reflexivity. }
      1:{ simpl in Es. rewrite Es. exists h, d. reflexivity. }
      all: rewrite Es; exists h, d; reflexivity.
Qed.

End BatchCoarseRuns.

(** ** The concrete states are states of real runs *)

Section Reached.
#[local] Existing Instance demo.

Example queue_ABC_reached :
  (q0 ← Queue.NewPushQueue 1 3 true;
  Ok (Queue.run [Queue.DropOldestOp; Queue.OnOverloadOp true; Queue.OnFirstOverloadOp true;
                 Queue.StartOp; Queue.PutOp itemA; Queue.PutOp itemB; Queue.PutOp itemC] q0).1.1)
  = Ok queue_ABC.
Proof. reflexivity. Qed.

Example queue_ABC_default_reached :
  (q0 ← Queue.NewPushQueue 1 3 true;
  Ok (Queue.run [Queue.OnOverloadOp true; Queue.OnFirstOverloadOp true;
                 Queue.StartOp; Queue.PutOp itemA; Queue.PutOp itemB; Queue.PutOp itemC] q0).1.1)
  = Ok queue_ABC_default.
Proof. reflexivity. Qed.

Example batch_ABC_reached :
  (q0 ← Batch.NewPushBatchQueue 1 3 2 true;
  Ok (Batch.run [Batch.DropOldestOp; Batch.OnOverloadOp true; Batch.OnFirstOverloadOp true;
                 Batch.StartOp; Batch.PutOp itemA; Batch.PutOp itemB; Batch.PutOp itemC] q0).1.1)
  = Ok batch_ABC.
Proof. reflexivity. Qed.

Example stack_ABC_reached :
  (s0 ← Stack.NewPushStack 1 3 true;
  Ok (Stack.run [Stack.OnOverloadOp true; Stack.OnFirstOverloadOp true;
                 Stack.StartOp; Stack.PushOp itemA; Stack.PushOp itemB; Stack.PushOp itemC] s0).1.1)
  = Ok stack_ABC.
Proof. reflexivity. Qed.

Example stack_A_reached :
  (s0 ← Stack.NewPushStack 1 3 true;
  Ok (Stack.run [Stack.StartOp; Stack.PushOp itemA] s0).1.1) = Ok stack_A.
Proof. reflexivity. Qed.

Example queue_busy_reached :
  (q0 ← Queue.NewPushQueue 1 3 true;
  Ok (Queue.run [Queue.OnDrainedOp true; Queue.StartOp; Queue.PutOp itemA; Queue.TakeStep] q0).1.1)
  = Ok queue_busy.
Proof. reflexivity. Qed.

Example queue_draining_empty_reached :
  (q0 ← Queue.NewPushQueue 1 3 true;
  Ok (Queue.run [Queue.DropOldestOp; Queue.OnOverloadOp true; Queue.OnFirstOverloadOp true;
                 Queue.StartOp; Queue.PutOp itemA; Queue.TakeStep; Queue.DrainOp] q0).1.1)
  = Ok queue_draining_empty.
Proof. reflexivity. Qed.

Example batch_draining_empty_reached :
  (q0 ← Batch.NewPushBatchQueue 1 3 2 true;
  Ok (Batch.run [Batch.DropOldestOp; Batch.OnOverloadOp true; Batch.OnFirstOverloadOp true;
                 Batch.StartOp; Batch.PutOp itemA; Batch.TakeStep; Batch.DrainOp] q0).1.1)
  = Ok batch_draining_empty.
Proof. reflexivity. Qed.

Example stack_draining_empty_reached :
  (s0 ← Stack.NewPushStack 1 3 true;
  Ok (Stack.run [Stack.OnOverloadOp true; Stack.OnFirstOverloadOp true;
                 Stack.StartOp; Stack.PushOp itemA; Stack.TakeStep; Stack.DrainOp] s0).1.1)
  = Ok stack_draining_empty.
Proof. reflexivity. Qed.

End Reached.

(** * The properties *)

Section Dispatch.
#[local] Existing Instance demo.

(** C1. One dispatch step should invoke the worker once with the item it
    takes. The stack does not: [pop] invokes it in [doWork] and again by
    [go s.worker(item)]. Here [pop] on a started stack that holds A
    invokes the worker with A twice. *)
Theorem stack_pop_invokes_worker_twice :
  exists s' tr,
    Stack.pop stack_A = Ok (s', tr) /\
    Stack.buffer s' = [] /\
    worked tr = [itemA; itemA].
Proof. eexists _, _. split; [reflexivity|]. split; reflexivity. Qed.

(** C4. With capacity 3 and A, B, C in the buffer, inserting D leaves
    B, C, D. The queue and the batch queue hand A to both handlers; the
    stack hands them the slice [s.items[:1]], which holds A, and not A. *)
Theorem stack_overload_hands_over_a_slice :
  exists s' tr,
    Stack.Push itemD stack_ABC = Ok (s', tr) /\
    Stack.buffer s' = [itemB; itemC; itemD] /\
    overloads tr = [Stack.SliceOf [itemA]] /\
    first_overloads tr = [Stack.SliceOf [itemA]] /\
    overloads tr <> [Stack.ItemItself itemA].
Proof.
  eexists _, _. split; [reflexivity|]. repeat split; try reflexivity. discriminate.
Qed.

Example queue_drop_oldest_ABC :
  exists q' tr,
    Queue.Put itemD queue_ABC = Ok (q', tr) /\
    Queue.buffer q' = [itemB; itemC; itemD] /\
    overloads tr = [itemA] /\ first_overloads tr = [itemA].
Proof. eexists _, _. split; [reflexivity|]. repeat split; reflexivity. Qed.

Example batch_drop_oldest_ABC :
  exists q' tr,
    Batch.Put itemD batch_ABC = Ok (q', tr) /\
    Batch.buffer q' = [itemB; itemC; itemD] /\
    overloads tr = [itemA] /\ first_overloads tr = [itemA].
Proof. eexists _, _. split; [reflexivity|]. repeat split; reflexivity. Qed.

(** C7. [onDrained] should fire at most once for one call of [Drain].
    [Drain] holds no lock: when the last worker completes between its
    assignments and its test, both the completion and [Drain] find the
    buffer empty and all workers free, and both fire. *)
Theorem drain_race_fires_onDrained_twice :
  exists q tr,
    Queue.run [Queue.DrainMarkStep; Queue.CompletedStep; Queue.DrainCheckStep] queue_busy
      = (q, tr, None) /\
    drained tr = 2%nat /\ worked tr = [].
Proof. eexists _, _. split; [reflexivity|]. split; reflexivity. Qed.

End Dispatch.

Section Insertion.
Context `{GoEnv}.



(** [Drain] of the queue and of the stack start no dispatch attempt. *)
Lemma queue_Drain_starts_no_dispatch (q : Queue.PushQueue) :
  dispatches (Queue.Drain q).2 = 0%nat.
Proof.
  unfold Queue.Drain, Queue.Drain_check, Queue.setDrained.
  destruct (_ && _); simpl; [destruct (Queue.onDrained q)|]; reflexivity.
Qed.

Lemma stack_Drain_starts_no_dispatch (s : Stack.PushStack) :
  dispatches (Stack.Drain s).2 = 0%nat.
Proof.
  unfold Stack.Drain, Stack.Drain_check, Stack.setDrained.
  destruct (_ && _); simpl; [destruct (Stack.onDrained s)|]; reflexivity.
Qed.

(** C10, amended. An overloaded insertion that takes the drop-oldest
    path on an empty buffer panics with a slice-bounds error and calls no
    handler. When the backing array has a cell behind the window,
    [items[:1]] shows that cell, nil or stale, and it is [items[1:]] that
    is out of range; when it has none, [items[:1]] is. *)
Theorem drop_oldest_on_empty_buffer_panics (item : Item) :
  (forall q : Queue.PushQueue,
     queue_overloaded q = true -> Queue.dropOldestOnOverload q = true ->
     Queue.buffer q = [] ->
     Queue.Put item q = Panic slice_bounds /\
     Slice.from (Queue.items q) 1 = Panic slice_bounds /\
     first_cell (Queue.items q) =
       match Slice.spare (Queue.items q) with
       | c :: _ => Ok c
       | [] => Panic slice_bounds
       end) /\
  (forall q : Batch.PushBatchQueue,
     batch_overloaded q = true -> Batch.dropOldestOnOverload q = true ->
     Batch.buffer q = [] ->
     Batch.Put item q = Panic slice_bounds /\
     Slice.from (Batch.items q) 1 = Panic slice_bounds /\
     first_cell (Batch.items q) =
       match Slice.spare (Batch.items q) with
       | c :: _ => Ok c
       | [] => Panic slice_bounds
       end) /\
  (forall s : Stack.PushStack,
     stack_overloaded s = true -> Stack.buffer s = [] ->
     Stack.Push item s = Panic slice_bounds /\
     Slice.from (Stack.items s) 1 = Panic slice_bounds /\
     Slice.upto (Stack.items s) 1 =
       match Slice.spare (Stack.items s) with
       | c :: sp => Ok (Slice.mk [c] sp)
       | [] => Panic slice_bounds
       end).
Proof.
  assert (Hcell : forall s : Slice.slice, Slice.elems s = [] ->
            Slice.from s 1 = Panic slice_bounds /\
            first_cell s = match Slice.spare s with
                           | c :: _ => Ok c
                           | [] => Panic slice_bounds
                           end).
  { intros [es sp] He. simpl in He. subst es. split; [apply from_1_empty|].
    unfold first_cell. destruct sp as [|c sp]; simpl.
    - reflexivity.
    - rewrite upto_1_empty_room, bind_Ok. apply index_0_cons. }
  split; [|split].
  - intros q Ho Hf Hb. split; [apply Put_drop_oldest_empty; assumption|].
    apply Hcell. assumption.
  - intros q Ho Hf Hb. split; [apply batch_Put_drop_oldest_empty; assumption|].
    apply Hcell. assumption.
  - intros s Ho Hb. split; [apply stack_Push_overload_empty; assumption|].
    split; [apply Hcell; assumption|].
    unfold Stack.buffer in Hb. destruct (Stack.items s) as [es sp]. simpl in Hb. subst es.
    destruct sp as [|c sp]; [reflexivity|apply upto_1_empty_room].
Qed.

End Insertion.

Section InsertionExamples.
#[local] Existing Instance demo.





Lemma drop_oldest_on_empty_buffer_panics_witness :
  Queue.Put itemD queue_draining_empty = Panic slice_bounds /\
  first_cell (Queue.items queue_draining_empty) = Ok itemNil.
Proof.
  destruct (proj1 (drop_oldest_on_empty_buffer_panics itemD) queue_draining_empty
              eq_refl eq_refl eq_refl) as (HP & _ & Hc).
  split; [exact HP|exact Hc].
Defined.

(** C10 as stated fails: in the draining queue with an empty buffer and
    room in the array, [Put] reads the nil cell and then panics; no
    handler receives anything. The same in the stack, whose cell still
    holds the item popped last. *)
Lemma empty_drop_oldest_calls_no_handler :
  queue_overloaded queue_draining_empty = true /\
  Queue.buffer queue_draining_empty = [] /\
  Slice.spare (Queue.items queue_draining_empty) <> [] /\
  Queue.onOverload queue_draining_empty = true /\
  ~ (exists q' tr, Queue.Put itemD queue_draining_empty = Ok (q', tr)) /\
  ~ (exists s' tr, Stack.Push itemD stack_draining_empty = Ok (s', tr)).
Proof.
  repeat split; try reflexivity; try discriminate.
  - intros (q' & tr & HP). discriminate HP.
  - intros (s' & tr & HP). discriminate HP.
Qed.

End InsertionExamples.

Section Handlers.
Context `{GoEnv}.

(** C9, amended. In every step of the three components, the ordinary
    calls are calls of [onOverload] and [onFirstOverload], and each is
    made while the mutex is held; [onDrained], the worker and the
    dispatch method are only ever started with [go]. So [onDrained] runs
    on a goroutine of its own, and the overload handlers run inside the
    critical section of [Put] or [Push]. *)
Theorem handlers_called_under_lock_or_started_with_go :
  (forall o (q q' : Queue.PushQueue) tr,
     Queue.step o q = Ok (q', tr) ->
     calls_under_lock false tr = called tr /\
     forallb is_overload_handler (called tr) = true /\
     forallb (fun c => negb (is_overload_handler c)) (spawned tr) = true) /\
  (forall o (s s' : Stack.PushStack) tr,
     Stack.step o s = Ok (s', tr) ->
     calls_under_lock false tr = called tr /\
     forallb is_overload_handler (called tr) = true /\
     forallb (fun c => negb (is_overload_handler c)) (spawned tr) = true) /\
  (forall o (q q' : Batch.PushBatchQueue) tr,
     Batch.step o q = Ok (q', tr) ->
     calls_under_lock false tr = called tr /\
     forallb is_overload_handler (called tr) = true /\
     forallb (fun c => negb (is_overload_handler c)) (spawned tr) = true).
Proof.
  split; [|split].
  - apply queue_step_calls.
  - apply stack_step_calls.
  - apply batch_step_calls.
Qed.

End Handlers.

Section HandlersExamples.
#[local] Existing Instance demo.

Lemma handlers_called_under_lock_or_started_with_go_witness :
  exists q' tr,
    Queue.step (Queue.PutOp itemD) queue_ABC = Ok (q', tr) /\
    calls_under_lock false tr = [HOverload itemA; HFirstOverload itemA] /\
    spawned tr = [Dispatch].
Proof.
  eexists _, _. split; [reflexivity|].
  destruct (proj1 handlers_called_under_lock_or_started_with_go
              (Queue.PutOp itemD) queue_ABC _ _ eq_refl) as (Hc & _ & _).
  split; [rewrite Hc|]; reflexivity.
Defined.

(** C9 as stated fails: [Put] calls the overload handlers while it holds
    the mutex, and a handler that calls [Put] locks the mutex its own
    goroutine holds. *)
Lemma overload_handler_reentry_deadlocks :
  exists q' tr,
    Queue.Put itemD queue_ABC_default = Ok (q', tr) /\
    calls_under_lock false tr = [HOverload itemD; HFirstOverload itemD] /\
    exists q'' tr',
      Queue.Put itemA q' = Ok (q'', tr') /\
      self_deadlock false (inline (fun _ => tr') tr) = true.
Proof.
  eexists _, _. split; [reflexivity|]. split; [reflexivity|].
  eexists _, _. split; reflexivity.
Qed.

(** What [go q.onDrained()] starts is not run by the goroutine that holds
    the mutex: the last completion of a drain, with a handler that calls
    [Put], blocks nowhere. *)
Example drained_handler_reentry_is_safe :
  exists tr tr',
    (Queue.workerCompleted (Queue.Drain_mark queue_busy)).2 = tr /\
    spawned tr = [HDrained] /\
    (exists q', Queue.Put itemA (Queue.workerCompleted (Queue.Drain_mark queue_busy)).1
                = Ok (q', tr')) /\
    self_deadlock false (inline (fun _ => tr') tr) = false.
Proof.
  eexists _, _. split; [reflexivity|]. split; [reflexivity|].
  split; [eexists; reflexivity|reflexivity].
Qed.

End HandlersExamples.

Section Accounting.
Context `{GoEnv}.

(** C5. A started component of capacity [c] with an empty buffer, into
    which [c + k] items are inserted with no dispatch step in between,
    [k > 0]: no insertion panics, the overload count ends at [k],
    [onOverload] is called [k] times and [onFirstOverload] once (each if
    it is set). The call of [onFirstOverload] is made by the insertion
    that makes the count 1: the first [c] insertions call no handler and
    leave the count at 0, insertion [c + 1] brings it to 1 and calls both
    handlers, and the insertions after it do not call [onFirstOverload].
    [k] is a Go [int]. *)
Theorem overload_accounting (c k : nat) (xs : list Item) :
  (1 <= c)%nat -> (0 < k)%nat -> Z.of_nat k <= GoInt.max_int ->
  length xs = (c + k)%nat ->
  (forall (q0 q : Queue.PushQueue) tr0,
     Queue.depth q0 = Z.of_nat c -> Queue.buffer q0 = [] ->
     Queue.Start q0 = Ok (q, tr0) ->
     exists q' tr,
       Queue.run (map Queue.PutOp xs) q = (q', tr, None) /\
       Queue.OverloadCount q' = Z.of_nat k /\
       length (overloads tr) = (if Queue.onOverload q0 then k else 0%nat) /\
       length (first_overloads tr) = (if Queue.onFirstOverload q0 then 1%nat else 0%nat) /\
       exists x q1 tr1 q2 tr2 tr3,
         xs !! c = Some x /\
         Queue.run (map Queue.PutOp (take c xs)) q = (q1, tr1, None) /\
         Queue.OverloadCount q1 = 0 /\ overloads tr1 = [] /\ first_overloads tr1 = [] /\
         Queue.Put x q1 = Ok (q2, tr2) /\
         Queue.OverloadCount q2 = 1 /\
         length (overloads tr2) = (if Queue.onOverload q0 then 1%nat else 0%nat) /\
         length (first_overloads tr2)
         = (if Queue.onFirstOverload q0 then 1%nat else 0%nat) /\
         Queue.run (map Queue.PutOp (drop (S c) xs)) q2 = (q', tr3, None) /\
         first_overloads tr3 = [] /\
         tr = tr1 ++ tr2 ++ tr3) /\
  (forall (s0 s : Stack.PushStack) tr0,
     Stack.height s0 = Z.of_nat c -> Stack.buffer s0 = [] ->
     Stack.Start s0 = Ok (s, tr0) ->
     exists s' tr,
       Stack.run (map Stack.PushOp xs) s = (s', tr, None) /\
       Stack.Overload s' = Z.of_nat k /\
       length (overloads tr) = (if Stack.onOverload s0 then k else 0%nat) /\
       length (first_overloads tr) = (if Stack.onFirstOverload s0 then 1%nat else 0%nat) /\
       exists x s1 tr1 s2 tr2 tr3,
         xs !! c = Some x /\
         Stack.run (map Stack.PushOp (take c xs)) s = (s1, tr1, None) /\
         Stack.Overload s1 = 0 /\ overloads tr1 = [] /\ first_overloads tr1 = [] /\
         Stack.Push x s1 = Ok (s2, tr2) /\
         Stack.Overload s2 = 1 /\
         length (overloads tr2) = (if Stack.onOverload s0 then 1%nat else 0%nat) /\
         length (first_overloads tr2)
         = (if Stack.onFirstOverload s0 then 1%nat else 0%nat) /\
         Stack.run (map Stack.PushOp (drop (S c) xs)) s2 = (s', tr3, None) /\
         first_overloads tr3 = [] /\
         tr = tr1 ++ tr2 ++ tr3) /\
  (forall (q0 q : Batch.PushBatchQueue) tr0,
     Batch.depth q0 = Z.of_nat c -> Batch.buffer q0 = [] ->
     Batch.Start q0 = Ok (q, tr0) ->
     exists q' tr,
       Batch.run (map Batch.PutOp xs) q = (q', tr, None) /\
       Batch.OverloadCount q' = Z.of_nat k /\
       length (overloads tr) = (if Batch.onOverload q0 then k else 0%nat) /\
       length (first_overloads tr) = (if Batch.onFirstOverload q0 then 1%nat else 0%nat) /\
       exists x q1 tr1 q2 tr2 tr3,
         xs !! c = Some x /\
         Batch.run (map Batch.PutOp (take c xs)) q = (q1, tr1, None) /\
         Batch.OverloadCount q1 = 0 /\ overloads tr1 = [] /\ first_overloads tr1 = [] /\
         Batch.Put x q1 = Ok (q2, tr2) /\
         Batch.OverloadCount q2 = 1 /\
         length (overloads tr2) = (if Batch.onOverload q0 then 1%nat else 0%nat) /\
         length (first_overloads tr2)
         = (if Batch.onFirstOverload q0 then 1%nat else 0%nat) /\
         Batch.run (map Batch.PutOp (drop (S c) xs)) q2 = (q', tr3, None) /\
         first_overloads tr3 = [] /\
         tr = tr1 ++ tr2 ++ tr3).
Proof.
  intros Hc Hk Hmax Hlen. split; [|split].
  - intros q0 q tr0 Hd Hb HS.
    unfold Queue.Start in HS. destruct (Queue.worker q0); [|discriminate].
    injection HS as <- _.
    exact (queue_fill_then_overload c k xs
             (Queue.set_overload 0 (Queue.set_draining false (Queue.set_started true q0)))
             Hc Hk Hmax Hlen eq_refl Hd Hb eq_refl).
  - intros s0 s tr0 Hd Hb HS.
    unfold Stack.Start in HS. destruct (Stack.worker s0); [|discriminate].
    injection HS as <- _.
    exact (stack_fill_then_overload c k xs
             (Stack.set_overload 0 (Stack.set_draining false (Stack.set_started true s0)))
             Hc Hk Hmax Hlen eq_refl Hd Hb eq_refl).
  - intros q0 q tr0 Hd Hb HS.
    unfold Batch.Start in HS. destruct (Batch.worker q0); [|discriminate].
    injection HS as <- _.
    exact (batch_fill_then_overload c k xs
             (Batch.set_overload 0 (Batch.set_draining false (Batch.set_started true q0)))
             Hc Hk Hmax Hlen eq_refl Hd Hb eq_refl).
Qed.

End Accounting.

Section Bounds.
Context `{GoEnv}.

(** C6. Every state a schedule reaches from a newly made component
    satisfies [0 <= availableWorkers <= concurrency] and
    [0 <= len(items) <= capacity]: the constructor establishes the two
    bounds and every step (insertion, dispatch, worker completion, Start,
    Stop, Drain, Empty, the registrations) keeps them. [c] is a Go
    [int]. *)
Theorem bounds_hold_in_every_reachable_state (c d b : Z) (w : bool) :
  GoInt.in_range c ->
  (forall (q0 q : Queue.PushQueue) os tr p,
     Queue.NewPushQueue c d w = Ok q0 ->
     Queue.run os q0 = (q, tr, p) -> queue_bounds q) /\
  (forall (s0 s : Stack.PushStack) os tr p,
     Stack.NewPushStack c d w = Ok s0 ->
     Stack.run os s0 = (s, tr, p) -> stack_bounds s) /\
  (forall (q0 q : Batch.PushBatchQueue) os tr p,
     Batch.NewPushBatchQueue c d b w = Ok q0 ->
     Batch.run os q0 = (q, tr, p) -> batch_bounds q).
Proof.
  intros Hc. split; [|split].
  - intros q0 q os tr p Hnew Hrun.
    apply (queue_run_safe os q0 q tr p); [|assumption].
    eapply queue_new_safe; eassumption.
  - intros s0 s os tr p Hnew Hrun.
    apply (stack_run_safe os s0 s tr p); [|assumption].
    eapply stack_new_safe; eassumption.
  - intros q0 q os tr p Hnew Hrun.
    apply (batch_run_safe os q0 q tr p); [|assumption].
    eapply batch_new_safe; eassumption.
Qed.

(** C8. A dispatch step of the batch queue whose guard holds takes the
    first [min(batchSize, len)] items of the buffer, at least one and at
    most [batchSize]. In a run of a new batch queue that does not panic,
    of a schedule without [Empty], whatever handlers are set and however
    the goroutines of [get] interleave: every batch taken, and so every
    batch the worker is invoked with, has between 1 and [batchSize]
    items; the batches in the order they were taken, one after the other,
    followed by the buffer, are the items put, in the order they were
    put, without the dropped ones; every batch taken is held by its [get]
    or has been handed to the worker, once. The dropped items are those
    [onOverload] is handed when it is set throughout. *)
Theorem batches_are_fifo_blocks (c d b : Z) (w : bool) (q0 : Batch.PushBatchQueue) :
  Batch.NewPushBatchQueue c d b w = Ok q0 ->
  (forall q : Batch.PushBatchQueue,
     Batch.batchSize q = b -> Batch.readyToWork q = true ->
     let n := Z.to_nat (Z.min b (Batch.Count q)) in
     exists q' tr,
       Batch.get_take q = Ok (q', Some (take n (Batch.buffer q)), tr) /\
       Batch.buffer q' = drop n (Batch.buffer q) /\
       length (take n (Batch.buffer q)) = n /\
       (1 <= n)%nat /\ Z.of_nat n <= b) /\
  (forall os (m : BatchGets.state) tr,
     forallb BatchGets.keeps os = true ->
     BatchGets.run os (BatchGets.idle q0) = (m, tr, None) ->
     Forall (BatchGets.sized b) (BatchGets.taken m) /\
     Forall (BatchGets.sized b) (worked tr) /\
     worked tr ++ BatchGets.holding m ≡ₚ BatchGets.taken m /\
     concat (BatchGets.taken m) ++ Batch.buffer (BatchGets.queue m)
       `sublist_of` BatchGets.inserted os /\
     BatchGets.inserted os
       ≡ₚ concat (BatchGets.taken m) ++ Batch.buffer (BatchGets.queue m)
          ++ BatchGets.dropped m) /\
  (forall os (m : BatchGets.state) tr p,
     forallb BatchGets.same_handler os = true ->
     BatchGets.run os (BatchGets.idle (Batch.OnOverload true q0)) = (m, tr, p) ->
     BatchGets.dropped m = overloads tr).
Proof.
  intros Hnew.
  assert (Hb : 1 <= b /\ Batch.batchSize q0 = b /\ Batch.buffer q0 = []).
  { apply batch_New_Ok in Hnew as (_ & _ & Hb & ->). auto. }
  destruct Hb as (Hb & Hq0 & Hbuf). split; [|split].
  - intros q Hq Hr n.
    assert (Hbq : 1 <= Batch.batchSize q) by lia.
    destruct (batch_get_take_ready q Hr Hbq) as (Hn & Eg).
    rewrite Hq in Hn, Eg. fold n in Hn, Eg.
    eexists _, _. split; [exact Eg|].
    split; [reflexivity|]. rewrite length_take. lia.
  - intros os m tr Hos Hrun.
    destruct (batch_gets_run_order os (BatchGets.idle q0) m tr Hos
                ltac:(simpl; lia) Hrun) as (nt & nd & Ht & Hd & Hz & Hw & Hs & Hp).
    cbn [BatchGets.idle BatchGets.queue BatchGets.holding BatchGets.taken
         BatchGets.dropped app] in Ht, Hd, Hz, Hw, Hs, Hp.
    rewrite Hq0 in Hz. rewrite Hbuf in Hs, Hp. cbn [app] in Hs, Hp.
    rewrite Ht, Hd. split; [exact Hz|]. split; [|auto].
    apply (Permutation_Forall (symmetry Hw)) in Hz.
    apply Forall_app in Hz. tauto.
  - intros os m tr p Hos Hrun.
    exact (batch_gets_run_reported os (BatchGets.idle (Batch.OnOverload true q0)) m tr p
             Hos eq_refl Hrun).
Qed.

End Bounds.

Section Cycle.
Context `{GoEnv}.

(** X14. What holds of C7: [Drain] on an idle queue with an empty buffer
    fires [onDrained] once and hands nothing to the worker; and when
    [Drain] runs as one step, the steps up to the next [Drain] fire it at
    most once in all. *)
Lemma queue_Drain_idle_fires_once (q : Queue.PushQueue) :
  Queue.Count q = 0 -> Queue.availableWorkers q = Queue.concurrency q ->
  Queue.onDrained q = true ->
  drained (Queue.Drain q).2 = 1%nat /\ worked (Queue.Drain q).2 = [] /\
  Queue.draining (Queue.Drain q).1 = false.
Proof.
  intros Hc Ha Hd. rewrite queue_Drain_idle by assumption. rewrite Hd. auto.
Qed.

(** X15. One drain cycle in which [Drain] runs as one step: from the call
    of [Drain] up to the next one, whatever is put, dispatched, completed,
    stopped or started in between, [onDrained] fires at most once. *)
Lemma queue_drain_cycle_fires_at_most_once os (q q' : Queue.PushQueue) tr p :
  forallb queue_not_drain os = true ->
  Queue.run (Queue.DrainOp :: os) q = (q', tr, p) ->
  (drained tr <= 1)%nat.
Proof.
  intros Hos Hr. simpl in Hr.
  destruct (Queue.Drain q) as [q1 tr1] eqn:Ed.
  destruct (Queue.run os q1) as [[q2 tr2] p2] eqn:Er.
  injection Hr as _ <- _. rewrite drained_app.
  pose proof (queue_drained_at_most_once os _ _ _ _ Hos Er) as Hrest.
  unfold Queue.Drain, Queue.Drain_check, Queue.setDrained in Ed.
  destruct (_ && _) in Ed; injection Ed as <- <-; simpl in *.
  - destruct (Queue.onDrained q); simpl; lia.
  - destruct (Queue.draining q2); lia.
Qed.

End Cycle.


Section RunExamples.
#[local] Existing Instance demo.

Lemma overload_accounting_witness :
  exists q' tr,
    Queue.run (map Queue.PutOp [itemA; itemB; itemC; itemD; itemA])
      (Queue.mkQ true 1 1 3 (Slice.fresh 3) true false 0 false true true false)
    = (q', tr, None) /\
    Queue.OverloadCount q' = 2 /\
    length (overloads tr) = 2%nat /\
    length (first_overloads tr) = 1%nat /\
    exists x q1 tr1 q2 tr2 tr3,
      [itemA; itemB; itemC; itemD; itemA] !! 3%nat = Some x /\
      Queue.run (map Queue.PutOp [itemA; itemB; itemC])
        (Queue.mkQ true 1 1 3 (Slice.fresh 3) true false 0 false true true false)
      = (q1, tr1, None) /\
      Queue.OverloadCount q1 = 0 /\ overloads tr1 = [] /\ first_overloads tr1 = [] /\
      Queue.Put x q1 = Ok (q2, tr2) /\
      Queue.OverloadCount q2 = 1 /\
      length (overloads tr2) = 1%nat /\
      length (first_overloads tr2) = 1%nat /\
      Queue.run (map Queue.PutOp [itemA]) q2 = (q', tr3, None) /\
      first_overloads tr3 = [] /\
      tr = tr1 ++ tr2 ++ tr3.
Proof.
  assert (Hk : Z.of_nat 2 <= GoInt.max_int) by (vm_compute; discriminate).
  pose proof (proj1 (overload_accounting 3 2 [itemA; itemB; itemC; itemD; itemA]
                  ltac:(lia) ltac:(lia) Hk eq_refl)
           (Queue.mkQ true 1 1 3 (Slice.fresh 3) false false 0 false true true false)
           _ [] eq_refl eq_refl eq_refl) as W.
  exact W.
Defined.

Lemma bounds_hold_in_every_reachable_state_witness :
  queue_bounds
    (Queue.run [Queue.StartOp; Queue.PutOp itemA; Queue.TakeStep; Queue.PutOp itemB;
                Queue.CompletedStep; Queue.DrainOp]
       (Queue.mkQ true 2 2 3 (Slice.fresh 3) false false 0 false false false false)).1.1.
Proof.
  assert (Hc : GoInt.in_range 2) by (split; vm_compute; discriminate).
  destruct (Queue.run [Queue.StartOp; Queue.PutOp itemA; Queue.TakeStep; Queue.PutOp itemB;
                       Queue.CompletedStep; Queue.DrainOp]
              (Queue.mkQ true 2 2 3 (Slice.fresh 3) false false 0 false false false false))
    as [[q tr] p] eqn:Hrun.
  exact (proj1 (@bounds_hold_in_every_reachable_state demo 2 3 1 true Hc)
           (Queue.mkQ true 2 2 3 (Slice.fresh 3) false false 0 false false false false)
           q _ tr p eq_refl Hrun).
Defined.

Lemma batches_are_fifo_blocks_witness :
  exists m tr,
    BatchGets.run
      [BatchGets.Step Batch.StartOp; BatchGets.Step (Batch.PutOp itemA);
       BatchGets.Step (Batch.PutOp itemB); BatchGets.Step (Batch.PutOp itemC);
       BatchGets.Step Batch.TakeStep; BatchGets.Step Batch.TakeStep;
       BatchGets.WorkStep 1; BatchGets.WorkStep 0]
      (BatchGets.idle
         (Batch.mkB true 2 2 2 3 (Slice.fresh 3) false false 0 false false false false))
    = (m, tr, None) /\
    BatchGets.taken m = [[itemA; itemB]; [itemC]] /\
    worked tr = [[itemC]; [itemA; itemB]] /\
    Forall (BatchGets.sized 2) (worked tr) /\
    concat (BatchGets.taken m) ++ Batch.buffer (BatchGets.queue m)
      `sublist_of` [itemA; itemB; itemC].
Proof.
  destruct (BatchGets.run
      [BatchGets.Step Batch.StartOp; BatchGets.Step (Batch.PutOp itemA);
       BatchGets.Step (Batch.PutOp itemB); BatchGets.Step (Batch.PutOp itemC);
       BatchGets.Step Batch.TakeStep; BatchGets.Step Batch.TakeStep;
       BatchGets.WorkStep 1; BatchGets.WorkStep 0]
      (BatchGets.idle
         (Batch.mkB true 2 2 2 3 (Slice.fresh 3) false false 0 false false false false)))
    as [[m tr] p] eqn:Hrun.
  assert (Hp : p = None) by (vm_compute in Hrun; congruence).
  subst p. exists m, tr. split; [reflexivity|].
  split; [vm_compute in Hrun; injection Hrun as <- _; reflexivity|].
  split; [vm_compute in Hrun; injection Hrun as _ <-; reflexivity|].
  destruct (proj1 (proj2 (@batches_are_fifo_blocks demo 2 3 2 true
           (Batch.mkB true 2 2 2 3 (Slice.fresh 3) false false 0 false false false false)
           eq_refl))
           [BatchGets.Step Batch.StartOp; BatchGets.Step (Batch.PutOp itemA);
            BatchGets.Step (Batch.PutOp itemB); BatchGets.Step (Batch.PutOp itemC);
            BatchGets.Step Batch.TakeStep; BatchGets.Step Batch.TakeStep;
            BatchGets.WorkStep 1; BatchGets.WorkStep 0]
           m tr eq_refl Hrun) as (_ & Hsz & _ & Hsub & _).
  split; [exact Hsz|exact Hsub].
Defined.

End RunExamples.

(** * Further properties *)

Section DispatchSafety.
Context `{GoEnv}.

(** X1. A dispatch attempt whose guard fails changes nothing and calls
    nothing. When the guard holds the slice expressions are in range and
    one unit leaves the buffer: the oldest item of the queue, the newest
    of the stack, the first [min(batchSize, len)] items of the batch
    queue, between 1 and [batchSize] of them. With a worker set the
    attempt returns and has handed that unit to the worker (the stack
    twice); with a nil worker it panics on the call of the worker. *)
Theorem dispatch_attempt_takes_one_unit :
  (forall q : Queue.PushQueue,
     (Queue.readyToWork q = false -> Queue.get q = Ok (q, [])) /\
     (Queue.readyToWork q = true ->
      exists item rest,
        Queue.buffer q = item :: rest /\
        (Queue.worker q = true ->
         exists q' tr, Queue.get q = Ok (q', tr) /\
           Queue.buffer q' = rest /\ worked tr = [item]) /\
        (Queue.worker q = false -> Queue.get q = Panic nil_call))) /\
  (forall s : Stack.PushStack,
     (Stack.readyToWork s = false -> Stack.pop s = Ok (s, [])) /\
     (Stack.readyToWork s = true ->
      exists rest item,
        Stack.buffer s = rest ++ [item] /\
        (Stack.worker s = true ->
         exists s' tr, Stack.pop s = Ok (s', tr) /\
           Stack.buffer s' = rest /\ worked tr = [item; item]) /\
        (Stack.worker s = false -> Stack.pop s = Panic nil_call))) /\
  (forall q : Batch.PushBatchQueue,
     (Batch.readyToWork q = false -> Batch.get q = Ok (q, [])) /\
     (Batch.readyToWork q = true -> 1 <= Batch.batchSize q ->
      let n := Z.to_nat (Z.min (Batch.batchSize q) (Batch.Count q)) in
      (1 <= n <= length (Batch.buffer q))%nat /\ Z.of_nat n <= Batch.batchSize q /\
      (Batch.worker q = true ->
       exists q' tr, Batch.get q = Ok (q', tr) /\
         Batch.buffer q' = drop n (Batch.buffer q) /\
         worked tr = [take n (Batch.buffer q)]) /\
      (Batch.worker q = false -> Batch.get q = Panic nil_call))).
Proof.
  split; [|split].
  - intros q. split.
    + intros Hr. unfold Queue.get. rewrite get_take_idle by assumption. reflexivity.
    + intros Hr. destruct (get_take_ready q Hr) as (item & rest & Hb & Hg).
      exists item, rest. split; [exact Hb|]. split.
      * intros Hw.
        destruct (queue_get_works_once _ _ _ _ Hg Hw) as (q2 & tr & Hget & Hwk & Hi).
        exists q2, tr. repeat split; try assumption.
        unfold Queue.buffer. rewrite Hi. reflexivity.
      * intros Hw. exact (queue_get_nil_worker _ _ _ _ Hg Hw).
  - intros s. split.
    + intros Hr. unfold Stack.pop. rewrite pop_take_idle by assumption. reflexivity.
    + intros Hr. destruct (pop_take_ready s Hr) as (rest & item & Hb & Hg).
      exists rest, item. split; [exact Hb|]. split.
      * intros Hw.
        destruct (stack_pop_works_twice _ _ _ _ Hg Hw) as (s2 & tr & Hpop & Hwk & Hi).
        exists s2, tr. repeat split; try assumption.
        unfold Stack.buffer. rewrite Hi. reflexivity.
      * intros Hw. exact (stack_pop_nil_worker _ _ _ _ Hg Hw).
  - intros q. split.
    + intros Hr. unfold Batch.get. rewrite batch_get_take_idle by assumption. reflexivity.
    + intros Hr Hb n. destruct (batch_get_take_ready q Hr Hb) as (Hn & Hg). fold n in Hn, Hg.
      split; [exact Hn|]. split; [unfold n; lia|]. split.
      * intros Hw.
        destruct (batch_get_works_once _ _ _ _ Hg Hw) as (q2 & tr & Hget & Hwk & Hi).
        exists q2, tr. repeat split; try assumption.
        unfold Batch.buffer at 1. rewrite Hi. reflexivity.
      * intros Hw. exact (batch_get_nil_worker _ _ _ _ Hg Hw).
Qed.

(** X2. An insertion panics only in the drop-oldest branch on an empty
    buffer, and a component of capacity at least 1 is in that branch only
    while draining: an insertion into a component that is not draining
    always returns. *)
Theorem insertion_panics_only_when_draining (item : Item) :
  (forall q : Queue.PushQueue,
     is_panic (Queue.Put item q) = true ->
     Queue.dropOldestOnOverload q = true /\ Queue.buffer q = [] /\
     (1 <= Queue.depth q -> Queue.draining q = true)) /\
  (forall s : Stack.PushStack,
     is_panic (Stack.Push item s) = true ->
     Stack.buffer s = [] /\ (1 <= Stack.height s -> Stack.draining s = true)) /\
  (forall q : Batch.PushBatchQueue,
     is_panic (Batch.Put item q) = true ->
     Batch.dropOldestOnOverload q = true /\ Batch.buffer q = [] /\
     (1 <= Batch.depth q -> Batch.draining q = true)).
Proof.
  split; [|split].
  - intros q HP.
    destruct (queue_overloaded q) eqn:Eo;
      [|rewrite Put_accept in HP by assumption; discriminate].
    destruct (Queue.dropOldestOnOverload q) eqn:Ed;
      [|rewrite Put_drop_incoming in HP by assumption; discriminate].
    destruct (Queue.buffer q) as [|old rest] eqn:Eb;
      [|rewrite (Put_drop_oldest _ _ old rest) in HP by assumption; discriminate].
    repeat split. intros Hd.
    unfold queue_overloaded, Queue.Depth, Queue.Count, Slice.len, Queue.buffer in *.
    rewrite Eb in Eo. simpl in Eo.
    apply orb_true_iff in Eo as [Eo|Eo]; [apply Z.leb_le in Eo; lia|exact Eo].
  - intros s HP.
    destruct (stack_overloaded s) eqn:Eo;
      [|rewrite stack_Push_accept in HP by assumption; discriminate].
    destruct (Stack.buffer s) as [|old rest] eqn:Eb;
      [|rewrite (stack_Push_overload _ _ old rest) in HP by assumption; discriminate].
    repeat split. intros Hd.
    unfold stack_overloaded, Stack.Height, Stack.Count, Slice.len, Stack.buffer in *.
    rewrite Eb in Eo. simpl in Eo.
    apply orb_true_iff in Eo as [Eo|Eo]; [apply Z.leb_le in Eo; lia|exact Eo].
  - intros q HP.
    destruct (batch_overloaded q) eqn:Eo;
      [|rewrite batch_Put_accept in HP by assumption; discriminate].
    destruct (Batch.dropOldestOnOverload q) eqn:Ed;
      [|rewrite batch_Put_drop_incoming in HP by assumption; discriminate].
    destruct (Batch.buffer q) as [|old rest] eqn:Eb;
      [|rewrite (batch_Put_drop_oldest _ _ old rest) in HP by assumption; discriminate].
    repeat split. intros Hd.
    unfold batch_overloaded, Batch.Depth, Batch.Count, Slice.len, Batch.buffer in *.
    rewrite Eb in Eo. simpl in Eo.
    apply orb_true_iff in Eo as [Eo|Eo]; [apply Z.leb_le in Eo; lia|exact Eo].
Qed.

End DispatchSafety.

Section Stopped.
Context `{GoEnv}.



End Stopped.

Section Counting.
Context `{GoEnv}.

Lemma queue_step_counts o q q' tr :
  queue_counting o = true -> Queue.onOverload q = true ->
  0 <= Queue.overload q < GoInt.max_int ->
  Queue.step o q = Ok (q', tr) ->
  Queue.onOverload q' = true /\
  (length (overloads tr) <= 1)%nat /\
  Queue.overload q' = Queue.overload q + Z.of_nat (length (overloads tr)).
Proof.
  intros Ho Hon Hov Hstep.
  assert (Hincr : GoInt.incr (Queue.overload q) = Queue.overload q + 1).
  { apply (incr_below _ GoInt.max_int); [|lia].
    unfold GoInt.in_range, GoInt.min_int, GoInt.max_int. lia. }
  destruct o; try discriminate; simpl in Hstep;
    try match type of Hstep with Queue.Empty _ = _ => apply queue_Empty_Ok in Hstep end;
    try (injection Hstep as <- <-; simpl; split; [assumption|split; [lia|lia]]).
  - apply Put_cases in Hstep.
    destruct Hstep as [(_ & -> & ->)|[(_ & _ & -> & ->)|(_ & _ & old & rest & _ & -> & ->)]].
    + simpl. split; [assumption|split; [lia|lia]].
    + rewrite overloaded_trace, Hon. simpl. rewrite Hincr.
      destruct (_ && Queue.onFirstOverload q); simpl; (split; [assumption|split; lia]).
    + rewrite overloaded_trace. simpl. rewrite Hon, Hincr.
      destruct (_ && Queue.onFirstOverload q); simpl; (split; [assumption|split; lia]).
  - destruct (Queue.readyToWork q) eqn:Er.
    + destruct (get_take_ready q Er) as (item & rest & _ & Eg).
      rewrite Eg, bind_Ok in Hstep. injection Hstep as <- <-. simpl.
      split; [assumption|split; lia].
    + rewrite get_take_idle in Hstep by assumption. injection Hstep as <- <-. simpl.
      split; [assumption|split; lia].
  - injection Hstep as Hstep. unfold Queue.workerCompleted, Queue.setDrained in Hstep.
    destruct (Queue.availableWorkers q <? Queue.concurrency q); simpl in Hstep.
    all: destruct (_ && _) in Hstep; injection Hstep as <- <-; simpl.
    all: try destruct (Queue.onDrained q); simpl; (split; [assumption|split; lia]).
  - injection Hstep as <- <-. unfold Queue.get_rest.
    destruct (Queue.draining q); simpl; (split; [assumption|split; lia]).
  - injection Hstep as Hstep. unfold Queue.Drain, Queue.Drain_check, Queue.Drain_mark,
      Queue.setDrained in Hstep.
    destruct (_ && _) in Hstep; injection Hstep as <- <-; simpl.
    all: try destruct (Queue.onDrained q); simpl; (split; [assumption|split; lia]).
  - injection Hstep as Hstep. unfold Queue.Drain_check, Queue.setDrained in Hstep.
    destruct (_ && _) in Hstep; injection Hstep as <- <-; simpl.
    all: try destruct (Queue.onDrained q); simpl; (split; [assumption|split; lia]).
Qed.

(** X5. Between two calls of [Start], with [onOverload] set, the overload
    count grows by exactly the number of calls of [onOverload], in every
    schedule and also when some step panics. The count is a Go [int]:
    the schedule is too short to make it wrap. *)
Theorem overload_count_counts_handler_calls os : forall (q q' : Queue.PushQueue) tr p,
  forallb queue_counting os = true ->
  Queue.onOverload q = true ->
  0 <= Queue.overload q ->
  Queue.overload q + Z.of_nat (length os) <= GoInt.max_int ->
  Queue.run os q = (q', tr, p) ->
  Queue.OverloadCount q' = Queue.OverloadCount q + Z.of_nat (length (overloads tr)).
Proof.
  unfold Queue.OverloadCount.
  induction os as [|o os IH]; intros q q' tr p Hos Hon H0 Hmax Hr; simpl in Hr.
  - injection Hr as <- <- _. simpl. lia.
  - simpl in Hos. apply andb_true_iff in Hos as [Ho Hos]. simpl length in Hmax.
    destruct (Queue.step o q) as [[q1 tr1]|msg] eqn:Es.
    + destruct (Queue.run os q1) as [[q2 tr2] p2] eqn:Er.
      injection Hr as <- <- _.
      destruct (queue_step_counts _ _ _ _ Ho Hon ltac:(lia) Es) as (Hon1 & Hle & Hc1).
      rewrite (IH _ _ _ _ Hos Hon1 ltac:(lia) ltac:(lia) Er).
      rewrite overloads_app, length_app. lia.
    + injection Hr as <- <- _. simpl. lia.
Qed.




End Counting.

Section Window.
Context `{GoEnv}.

Lemma queue_drop_oldest_window xs : forall q : Queue.PushQueue,
  Queue.dropOldestOnOverload q = true ->
  Queue.Depth q <= Queue.Count q -> Queue.buffer q <> [] ->
  exists q' tr,
    Queue.run (map Queue.PutOp xs) q = (q', tr, None) /\
    Queue.buffer q' = drop (length xs) (Queue.buffer q ++ xs) /\
    overloads tr =
      (if Queue.onOverload q then take (length xs) (Queue.buffer q ++ xs) else []).
Proof.
  induction xs as [|x xs IH]; intros q Hflag Hfull Hne.
  - exists q, []. simpl. rewrite app_nil_r. destruct (Queue.onOverload q); auto.
  - destruct (Queue.buffer q) as [|old rest] eqn:Eb; [contradiction|].
    assert (Hover : queue_overloaded q = true).
    { unfold queue_overloaded. apply orb_true_iff. left. apply Z.leb_le. assumption. }
    simpl. rewrite (Put_drop_oldest _ _ old rest) by assumption. cbv beta iota zeta.
    match goal with |- context [Queue.run (map Queue.PutOp xs) ?q1] =>
      destruct (IH q1) as (q' & tr & Hr & Hb & Ho) end.
    + exact Hflag.
    + unfold Queue.Depth, Queue.Count, Queue.buffer, Slice.len in *. simpl.
      rewrite elems_append, length_app. rewrite Eb in Hfull. simpl in *. lia.
    + unfold Queue.buffer. simpl. rewrite elems_append. simpl.
      intros E. apply app_eq_nil in E as [_ E]. discriminate.
    + rewrite Hr. eexists _, _. split; [reflexivity|].
      unfold Queue.buffer in Hb, Ho. simpl in Hb, Ho. rewrite elems_append in Hb, Ho.
      simpl in Hb, Ho. rewrite <- app_assoc in Hb, Ho. simpl in Hb, Ho.
      split; [exact Hb|].
      rewrite overloaded_trace. simpl. rewrite !overloads_app, Ho. simpl.
      destruct (Queue.onOverload q), (_ && Queue.onFirstOverload q); reflexivity.
Qed.

Lemma stack_drop_oldest_window xs : forall s : Stack.PushStack,
  Stack.Height s <= Stack.Count s -> Stack.buffer s <> [] ->
  exists s' tr,
    Stack.run (map Stack.PushOp xs) s = (s', tr, None) /\
    Stack.buffer s' = drop (length xs) (Stack.buffer s ++ xs) /\
    overloads tr =
      (if Stack.onOverload s
       then map (fun x => Stack.SliceOf [x]) (take (length xs) (Stack.buffer s ++ xs))
       else []).
Proof.
  induction xs as [|x xs IH]; intros s Hfull Hne.
  - exists s, []. simpl. rewrite app_nil_r. destruct (Stack.onOverload s); auto.
  - destruct (Stack.buffer s) as [|old rest] eqn:Eb; [contradiction|].
    assert (Hover : stack_overloaded s = true).
    { unfold stack_overloaded. apply orb_true_iff. left. apply Z.leb_le. assumption. }
    simpl. rewrite (stack_Push_overload _ _ old rest) by assumption. cbv beta iota zeta.
    match goal with |- context [Stack.run (map Stack.PushOp xs) ?s1] =>
      destruct (IH s1) as (s' & tr & Hr & Hb & Ho) end.
    + unfold Stack.Height, Stack.Count, Stack.buffer, Slice.len in *. simpl.
      rewrite elems_append, length_app. rewrite Eb in Hfull. simpl in *. lia.
    + unfold Stack.buffer. simpl. rewrite elems_append. simpl.
      intros E. apply app_eq_nil in E as [_ E]. discriminate.
    + rewrite Hr. eexists _, _. split; [reflexivity|].
      unfold Stack.buffer in Hb, Ho. simpl in Hb, Ho. rewrite elems_append in Hb, Ho.
      simpl in Hb, Ho. rewrite <- app_assoc in Hb, Ho. simpl in Hb, Ho.
      split; [exact Hb|].
      rewrite stack_overloaded_trace. simpl. rewrite !overloads_app, Ho. simpl.
      destruct (Stack.onOverload s), (_ && Stack.onFirstOverload s); reflexivity.
Qed.

(** X7. Insertions into a full buffer under the drop-oldest policy keep the
    newest items: after [xs] is put into a full queue with
    [dropOldestOnOverload], or pushed onto a full stack, the buffer holds
    the last [capacity] of the old items followed by [xs], and the items
    that fell out went to [onOverload] oldest first (the stack hands each
    over in a slice). No dispatch step runs in between. *)
Theorem drop_oldest_keeps_the_newest (xs : list Item) :
  (forall q : Queue.PushQueue,
     Queue.dropOldestOnOverload q = true ->
     Queue.Depth q <= Queue.Count q -> Queue.buffer q <> [] ->
     exists q' tr,
       Queue.run (map Queue.PutOp xs) q = (q', tr, None) /\
       Queue.buffer q' = drop (length xs) (Queue.buffer q ++ xs) /\
       length (Queue.buffer q') = length (Queue.buffer q) /\
       overloads tr =
         (if Queue.onOverload q then take (length xs) (Queue.buffer q ++ xs) else [])) /\
  (forall s : Stack.PushStack,
     Stack.Height s <= Stack.Count s -> Stack.buffer s <> [] ->
     exists s' tr,
       Stack.run (map Stack.PushOp xs) s = (s', tr, None) /\
       Stack.buffer s' = drop (length xs) (Stack.buffer s ++ xs) /\
       length (Stack.buffer s') = length (Stack.buffer s) /\
       overloads tr =
         (if Stack.onOverload s
          then map (fun x => Stack.SliceOf [x]) (take (length xs) (Stack.buffer s ++ xs))
          else [])).
Proof.
  split.
  - intros q Hf Hfull Hne.
    destruct (queue_drop_oldest_window xs q Hf Hfull Hne) as (q' & tr & Hr & Hb & Ho).
    exists q', tr. repeat split; try assumption.
    rewrite Hb, length_drop, length_app. lia.
  - intros s Hfull Hne.
    destruct (stack_drop_oldest_window xs s Hfull Hne) as (s' & tr & Hr & Hb & Ho).
    exists s', tr. repeat split; try assumption.
    rewrite Hb, length_drop, length_app. lia.
Qed.

End Window.

Section Order.
Context `{GoEnv}.

Lemma sublist_same_length {A : Type} (l1 l2 : list A) :
  l1 `sublist_of` l2 -> (length l2 <= length l1)%nat -> l1 = l2.
Proof.
  induction 1 as [|x l1 l2 Hs IH|x l1 l2 Hs IH]; simpl; intros Hl.
  - reflexivity.
  - f_equal. apply IH. lia.
  - apply sublist_length in Hs. lia.
Qed.

(** X8. The queue takes items in insertion order. In a run of a new queue
    that does not panic, of a schedule without [Empty], whatever handlers
    are set and however the goroutines of [get] interleave: the items
    taken, in the order they were taken, followed by the buffer, are the
    items put, in the order they were put, without the dropped ones;
    when none was dropped they are exactly the items put. Every item
    taken is held by its [get] or has been handed to the worker, once;
    with more than one worker slot the workers can start in another
    order than the items were taken. The dropped items are those
    [onOverload] is handed when it is set throughout. *)
Theorem queue_takes_in_insertion_order (c d : Z) (w : bool) (q0 : Queue.PushQueue) :
  Queue.NewPushQueue c d w = Ok q0 ->
  (forall os (m : QueueGets.state) tr,
     forallb QueueGets.keeps os = true ->
     QueueGets.run os (QueueGets.idle q0) = (m, tr, None) ->
     QueueGets.taken m ++ Queue.buffer (QueueGets.queue m)
       `sublist_of` QueueGets.inserted os /\
     QueueGets.inserted os
       ≡ₚ QueueGets.taken m ++ Queue.buffer (QueueGets.queue m) ++ QueueGets.dropped m /\
     worked tr ++ QueueGets.holding m ≡ₚ QueueGets.taken m /\
     (QueueGets.dropped m = [] ->
      QueueGets.taken m ++ Queue.buffer (QueueGets.queue m) = QueueGets.inserted os)) /\
  (forall os (m : QueueGets.state) tr p,
     forallb QueueGets.same_handler os = true ->
     QueueGets.run os (QueueGets.idle (Queue.OnOverload true q0)) = (m, tr, p) ->
     QueueGets.dropped m = overloads tr).
Proof.
  intros Hnew.
  assert (Hbuf : Queue.buffer q0 = []).
  { apply queue_New_Ok in Hnew as (_ & _ & ->). reflexivity. }
  split.
  - intros os m tr Hos Hr.
    destruct (queue_gets_run_order os (QueueGets.idle q0) m tr Hos Hr)
      as (nt & nd & Ht & Hd & Hw & Hs & Hp).
    cbn [QueueGets.idle QueueGets.queue QueueGets.holding QueueGets.taken
         QueueGets.dropped app] in Ht, Hd, Hw, Hs, Hp.
    rewrite Hbuf in Hs, Hp. cbn [app] in Hs, Hp.
    rewrite Ht, Hd. split; [exact Hs|]. split; [exact Hp|]. split; [exact Hw|].
    intros Hno. apply sublist_same_length; [exact Hs|].
    apply Permutation_length in Hp. rewrite Hno, app_nil_r in Hp. lia.
  - intros os m tr p Hos Hrun.
    exact (queue_gets_run_reported os (QueueGets.idle (Queue.OnOverload true q0)) m tr p
             Hos eq_refl Hrun).
Qed.

Lemma stack_pushes_work_nobody xs : forall (s s' : Stack.PushStack) tr p,
  Stack.run (map Stack.PushOp xs) s = (s', tr, p) -> worked tr = [].
Proof.
  induction xs as [|x xs IH]; intros s s' tr p Hr; simpl in Hr.
  - injection Hr as _ <- _. reflexivity.
  - destruct (Stack.Push x s) as [[s1 tr1]|msg] eqn:EP.
    + destruct (Stack.run (map Stack.PushOp xs) s1) as [[s2 tr2] p2] eqn:Er.
      injection Hr as _ <- _. rewrite worked_app, (IH _ _ _ _ Er), app_nil_r.
      apply stack_Push_cases in EP.
      destruct EP as [(_ & _ & ->)|(_ & old & rest & _ & _ & ->)].
      * reflexivity.
      * rewrite stack_overloaded_trace. simpl.
        destruct (Stack.onOverload _), (_ && Stack.onFirstOverload _); reflexivity.
    + injection Hr as _ <- _. reflexivity.
Qed.

Lemma stack_serve_all ys : forall s : Stack.PushStack,
  Stack.buffer s = ys ->
  Stack.started s = true -> Stack.draining s = false ->
  Stack.availableWorkers s = Stack.concurrency s ->
  1 <= Stack.concurrency s -> GoInt.in_range (Stack.concurrency s) ->
  exists s' tr,
    Stack.run (stack_serve (length ys)) s = (s', tr, None) /\
    worked tr = rev ys /\ Stack.buffer s' = [] /\
    Stack.availableWorkers s' = Stack.concurrency s'.
Proof.
  induction ys as [|y ys IH] using rev_ind; intros s Hb Hst Hdr Ha Hc Hr.
  - exists s, []. simpl. auto.
  - rewrite length_app, Nat.add_comm. simpl.
    assert (Hready : Stack.readyToWork s = true).
    { unfold Stack.readyToWork, Stack.buffer, Slice.len in *.
      rewrite Hst, Hb, length_app. simpl.
      apply andb_true_iff. split; [apply Z.ltb_lt; lia|apply Z.ltb_lt; lia]. }
    destruct (pop_take_ready s Hready) as (rest & item & Eb & Eg).
    rewrite Hb in Eb. apply app_inj_tail in Eb as [<- <-].
    rewrite Eg, bind_Ok. cbv beta iota zeta.
    unfold Stack.workerCompleted. cbn [Stack.availableWorkers Stack.concurrency
      Stack.set_availableWorkers Stack.set_items Stack.draining Stack.items].
    rewrite Ha, (decr_positive _ (Stack.concurrency s)) by (auto; lia).
    destruct (Z.ltb_spec (Stack.concurrency s - 1) (Stack.concurrency s)); [|lia].
    cbn [Stack.availableWorkers Stack.concurrency Stack.set_availableWorkers
      Stack.set_items Stack.draining Stack.items].
    rewrite Hdr. cbn [andb].
    rewrite (incr_below _ (Stack.concurrency s)) by (auto; lia).
    fold (stack_serve (length ys)).
    match goal with |- context [Stack.run (stack_serve (length ys)) ?s1] =>
      destruct (IH s1) as (s' & tr & Hrun & Hw & Hb' & Ha') end;
      try (simpl; auto; lia).
    rewrite Hrun.
    eexists _, _. split; [reflexivity|].
    rewrite rev_app_distr. rewrite !worked_app, Hw. simpl. auto.
Qed.

(** X9. The stack serves the newest item first: items pushed onto an empty,
    started stack that has room for them, and then taken one at a time,
    each worker completing before the next dispatch step, reach the worker
    in the reverse of the order they were pushed. *)
Theorem stack_serves_newest_first (xs : list Item) (s : Stack.PushStack) :
  Stack.buffer s = [] ->
  Stack.started s = true -> Stack.draining s = false ->
  Z.of_nat (length xs) <= Stack.height s ->
  Stack.availableWorkers s = Stack.concurrency s ->
  1 <= Stack.concurrency s -> GoInt.in_range (Stack.concurrency s) ->
  exists s' tr,
    Stack.run (map Stack.PushOp xs ++ stack_serve (length xs)) s = (s', tr, None) /\
    worked tr = rev xs /\ Stack.buffer s' = [].
Proof.
  intros Hb Hst Hdr Hroom Ha Hc Hr.
  destruct (stack_pushes_accepted xs s Hdr) as (i' & tr1 & He & Hrun1 & _ & _).
  { rewrite Hb. simpl. lia. }
  rewrite Hb in He. simpl in He.
  destruct (stack_serve_all xs (Stack.set_items i' s)) as (s' & tr2 & Hrun2 & Hw & Hb' & _);
    try assumption.
  rewrite stack_run_app, Hrun1, Hrun2.
  exists s', (tr1 ++ tr2). split; [reflexivity|].
  rewrite worked_app, (stack_pushes_work_nobody _ _ _ _ _ Hrun1), Hw. auto.
Qed.



End Order.

Section Lifecycle.
Context `{GoEnv}.

(** X11. [Empty] changes the buffer and nothing else, in every state, a
    draining one included: when it returns, the buffer is empty, with the
    capacity [depth]; the flags, the overload count, the worker slots and
    the handlers are as they were; it calls nothing and starts nothing,
    so that it does not fire [onDrained] on a draining queue either. It
    panics exactly when [make] refuses the capacity [depth]. A queue that
    is not draining then accepts up to [depth] items without an
    overload. *)
Theorem empty_discards_only_the_buffer (q : Queue.PushQueue) (xs : list Item) :
  (forall q' tr, Queue.Empty q = Ok (q', tr) ->
     Queue.buffer q' = [] /\ Slice.cap (Queue.items q') = Queue.depth q /\
     Queue.set_items (Queue.items q) q' = q /\
     Queue.draining q' = Queue.draining q /\
     called tr = [] /\ spawned tr = []) /\
  is_panic (Queue.Empty q)
  = negb ((0 <=? Queue.depth q) && (Queue.depth q <=? max_cap)) /\
  (Queue.draining q = false ->
   Z.of_nat (length xs) <= Queue.depth q -> Queue.depth q <= max_cap ->
   exists q' tr,
     Queue.run (Queue.EmptyOp :: map Queue.PutOp xs) q = (q', tr, None) /\
     Queue.buffer q' = xs /\ overloads tr = [] /\
     Queue.OverloadCount q' = Queue.OverloadCount q /\
     Queue.started q' = Queue.started q /\ Queue.draining q' = false /\
     Queue.availableWorkers q' = Queue.availableWorkers q).
Proof.
  split; [|split].
  - intros q' tr HE. unfold Queue.Empty, Queue.Depth in HE.
    destruct (Slice.make (Queue.depth q)) as [items|msg] eqn:Em; [|discriminate].
    apply make_Ok in Em as [-> Hd]. rewrite bind_Ok in HE. injection HE as <- <-.
    unfold Queue.buffer, Slice.cap, Slice.fresh. simpl.
    rewrite length_replicate. repeat split; try reflexivity; [lia|].
    destruct q. reflexivity.
  - unfold Queue.Empty, Queue.Depth, Slice.make.
    destruct ((0 <=? Queue.depth q) && (Queue.depth q <=? max_cap)); reflexivity.
  - intros Hd Hroom Hcap. cbn [Queue.run Queue.step]. unfold Queue.Empty, Queue.Depth.
    rewrite make_inside, bind_Ok by lia.
    match goal with |- context [Queue.run (map Queue.PutOp xs) ?q1] =>
      destruct (queue_puts_accepted xs q1) as (s' & tr & He & Hr & Ho & _) end.
    + exact Hd.
    + unfold Queue.buffer, Slice.fresh. simpl. lia.
    + rewrite Hr. eexists _, _. split; [reflexivity|].
      rewrite overloads_app, Ho.
      unfold Queue.buffer, Queue.OverloadCount in *. simpl in *. auto 10.
Qed.

(** X12. The constructors check the concurrency first, then the capacity,
    then the batch size, and panic with the message of the first that is
    below 1; with sizes of at least 1 they panic in [make] when the
    capacity is more than can be allocated, and return otherwise. A
    component they return has the sizes it was made with, all worker
    slots free, an empty buffer of the capacity asked for, no handler,
    and is neither started nor draining. They accept a nil worker: it is
    [Start] that panics then, and it does on every component made without
    a worker and on no component made with one. *)
Theorem constructors_check_sizes_and_start_checks_worker (c d b : Z) (w : bool) :
  (c < 1 ->
   Queue.NewPushQueue c d w = Panic "concurrency must greater than 0" /\
   Stack.NewPushStack c d w = Panic "concurrency must greater than 0" /\
   Batch.NewPushBatchQueue c d b w = Panic "concurrency must greater than 0") /\
  (1 <= c -> d < 1 ->
   Queue.NewPushQueue c d w = Panic "depth must be greater than 0" /\
   Stack.NewPushStack c d w = Panic "height must be greater than 0" /\
   Batch.NewPushBatchQueue c d b w = Panic "depth must be greater than 0") /\
  (1 <= c -> 1 <= d -> b < 1 ->
   Batch.NewPushBatchQueue c d b w = Panic "batch size must be greater than 0") /\
  (1 <= c -> 1 <= d -> max_cap < d ->
   Queue.NewPushQueue c d w = Panic makeslice_cap /\
   Stack.NewPushStack c d w = Panic makeslice_cap /\
   (1 <= b -> Batch.NewPushBatchQueue c d b w = Panic makeslice_cap)) /\
  (1 <= c -> 1 <= d <= max_cap ->
   Queue.NewPushQueue c d w
   = Ok (Queue.mkQ w c c d (Slice.fresh d) false false 0 false false false false) /\
   Stack.NewPushStack c d w
   = Ok (Stack.mkS w c c d (Slice.fresh d) false false 0 false false false) /\
   (1 <= b ->
    Batch.NewPushBatchQueue c d b w
    = Ok (Batch.mkB w c b c d (Slice.fresh d) false false 0 false false false false))) /\
  (forall q, Queue.NewPushQueue c d w = Ok q ->
     Queue.buffer q = [] /\ Slice.cap (Queue.items q) = d /\
     Queue.availableWorkers q = c /\ Queue.IsStarted q = false /\
     is_panic (Queue.Start q) = negb w) /\
  (forall s, Stack.NewPushStack c d w = Ok s ->
     Stack.buffer s = [] /\ Slice.cap (Stack.items s) = d /\
     Stack.availableWorkers s = c /\ Stack.IsStarted s = false /\
     is_panic (Stack.Start s) = negb w) /\
  (forall q, Batch.NewPushBatchQueue c d b w = Ok q ->
     Batch.buffer q = [] /\ Slice.cap (Batch.items q) = d /\
     Batch.availableWorkers q = c /\ Batch.IsStarted q = false /\
     is_panic (Batch.Start q) = negb w).
Proof.
  split; [|split; [|split; [|split; [|split; [|split; [|split]]]]]].
  - intros Hc. unfold Queue.NewPushQueue, Stack.NewPushStack, Batch.NewPushBatchQueue.
    destruct (Z.ltb_spec c 1); [auto|lia].
  - intros Hc Hd. unfold Queue.NewPushQueue, Stack.NewPushStack, Batch.NewPushBatchQueue.
    destruct (Z.ltb_spec c 1); [lia|]. destruct (Z.ltb_spec d 1); [auto|lia].
  - intros Hc Hd Hb. unfold Batch.NewPushBatchQueue.
    destruct (Z.ltb_spec c 1); [lia|]. destruct (Z.ltb_spec d 1); [lia|].
    destruct (Z.ltb_spec b 1); [auto|lia].
  - intros Hc Hd Hm. unfold Queue.NewPushQueue, Stack.NewPushStack, Batch.NewPushBatchQueue.
    assert (Em : Slice.make d = Panic makeslice_cap).
    { unfold Slice.make. destruct (Z.leb_spec d max_cap); [lia|].
      rewrite andb_false_r. reflexivity. }
    rewrite Em.
    destruct (Z.ltb_spec c 1); [lia|]. destruct (Z.ltb_spec d 1); [lia|].
    split; [reflexivity|]. split; [reflexivity|].
    intros Hb. destruct (Z.ltb_spec b 1); [lia|reflexivity].
  - intros Hc Hd. unfold Queue.NewPushQueue, Stack.NewPushStack, Batch.NewPushBatchQueue.
    rewrite make_inside by lia.
    destruct (Z.ltb_spec c 1); [lia|]. destruct (Z.ltb_spec d 1); [lia|].
    split; [reflexivity|]. split; [reflexivity|].
    intros Hb. destruct (Z.ltb_spec b 1); [lia|reflexivity].
  - intros q (_ & Hd & ->)%queue_New_Ok.
    unfold Queue.buffer, Slice.cap, Queue.Start, Queue.IsStarted. simpl.
    rewrite length_replicate. destruct w; simpl; repeat split; lia.
  - intros s (_ & Hd & ->)%stack_New_Ok.
    unfold Stack.buffer, Slice.cap, Stack.Start, Stack.IsStarted. simpl.
    rewrite length_replicate. destruct w; simpl; repeat split; lia.
  - intros q (_ & Hd & _ & ->)%batch_New_Ok.
    unfold Batch.buffer, Slice.cap, Batch.Start, Batch.IsStarted. simpl.
    rewrite length_replicate. destruct w; simpl; repeat split; lia.
Qed.


End Lifecycle.

Section FurtherExamples.
#[local] Existing Instance demo.

Lemma dispatch_attempt_takes_one_unit_witness :
  exists q' tr,
    Queue.get queue_ABC = Ok (q', tr) /\
    Queue.buffer q' = [itemB; itemC] /\ worked tr = [itemA].
Proof.
  destruct (proj2 (proj1 dispatch_attempt_takes_one_unit queue_ABC) eq_refl)
    as (item & rest & Hb & Hok & _).
  injection Hb as <- <-. exact (Hok eq_refl).
Defined.

Lemma insertion_panics_only_when_draining_witness :
  Queue.dropOldestOnOverload queue_draining_empty = true /\
  Queue.buffer queue_draining_empty = [] /\
  (1 <= Queue.depth queue_draining_empty -> Queue.draining queue_draining_empty = true).
Proof.
  exact (proj1 (insertion_panics_only_when_draining itemD) queue_draining_empty eq_refl).
Defined.



Lemma overload_count_counts_handler_calls_witness :
  Queue.OverloadCount
    (Queue.run [Queue.PutOp itemD; Queue.TakeStep; Queue.PutOp itemA; Queue.PutOp itemB]
       queue_ABC_default).1.1
  = 0 + Z.of_nat (length (overloads
        (Queue.run [Queue.PutOp itemD; Queue.TakeStep; Queue.PutOp itemA; Queue.PutOp itemB]
           queue_ABC_default).1.2)).
Proof.
  assert (H0 : 0 <= Queue.overload queue_ABC_default) by (vm_compute; discriminate).
  assert (Hmax : Queue.overload queue_ABC_default + Z.of_nat 4 <= GoInt.max_int)
    by (vm_compute; discriminate).
  destruct (Queue.run [Queue.PutOp itemD; Queue.TakeStep; Queue.PutOp itemA;
                       Queue.PutOp itemB] queue_ABC_default) as [[q' tr] p] eqn:Hrun.
  exact (overload_count_counts_handler_calls
           [Queue.PutOp itemD; Queue.TakeStep; Queue.PutOp itemA; Queue.PutOp itemB]
           queue_ABC_default q' tr p eq_refl eq_refl H0 Hmax Hrun).
Defined.


Lemma drop_oldest_keeps_the_newest_witness :
  exists q' tr,
    Queue.run (map Queue.PutOp [itemD; itemA]) queue_ABC = (q', tr, None) /\
    Queue.buffer q' = [itemC; itemD; itemA] /\
    length (Queue.buffer q') = 3%nat /\
    overloads tr = [itemA; itemB].
Proof.
  assert (Hfull : Queue.Depth queue_ABC <= Queue.Count queue_ABC)
    by (vm_compute; discriminate).
  exact (proj1 (drop_oldest_keeps_the_newest [itemD; itemA]) queue_ABC eq_refl Hfull
           ltac:(discriminate)).
Defined.

Lemma queue_takes_in_insertion_order_witness :
  exists m tr,
    QueueGets.run
      [QueueGets.Step Queue.StartOp; QueueGets.Step (Queue.PutOp itemA);
       QueueGets.Step (Queue.PutOp itemB); QueueGets.Step Queue.TakeStep;
       QueueGets.Step Queue.TakeStep; QueueGets.Step (Queue.PutOp itemC);
       QueueGets.WorkStep 1; QueueGets.WorkStep 0]
      (QueueGets.idle
         (Queue.mkQ true 2 2 3 (Slice.fresh 3) false false 0 false false false false))
    = (m, tr, None) /\
    QueueGets.taken m = [itemA; itemB] /\
    worked tr = [itemB; itemA] /\
    QueueGets.taken m ++ Queue.buffer (QueueGets.queue m) = [itemA; itemB; itemC].
Proof.
  destruct (QueueGets.run
      [QueueGets.Step Queue.StartOp; QueueGets.Step (Queue.PutOp itemA);
       QueueGets.Step (Queue.PutOp itemB); QueueGets.Step Queue.TakeStep;
       QueueGets.Step Queue.TakeStep; QueueGets.Step (Queue.PutOp itemC);
       QueueGets.WorkStep 1; QueueGets.WorkStep 0]
      (QueueGets.idle
         (Queue.mkQ true 2 2 3 (Slice.fresh 3) false false 0 false false false false)))
    as [[m tr] p] eqn:Hrun.
  assert (Hp : p = None) by (vm_compute in Hrun; congruence).
  subst p. exists m, tr. split; [reflexivity|].
  split; [vm_compute in Hrun; injection Hrun as <- _; reflexivity|].
  split; [vm_compute in Hrun; injection Hrun as _ <-; reflexivity|].
  destruct (proj1 (@queue_takes_in_insertion_order demo 2 3 true
              (Queue.mkQ true 2 2 3 (Slice.fresh 3) false false 0 false false false false)
              eq_refl)
              [QueueGets.Step Queue.StartOp; QueueGets.Step (Queue.PutOp itemA);
               QueueGets.Step (Queue.PutOp itemB); QueueGets.Step Queue.TakeStep;
               QueueGets.Step Queue.TakeStep; QueueGets.Step (Queue.PutOp itemC);
               QueueGets.WorkStep 1; QueueGets.WorkStep 0]
              m tr eq_refl Hrun) as (_ & _ & _ & Hall).
  apply Hall. vm_compute in Hrun. injection Hrun as <- _. reflexivity.
Defined.

Lemma stack_serves_newest_first_witness :
  exists s' tr,
    Stack.run (map Stack.PushOp [itemA; itemB; itemC] ++ stack_serve 3)
      (Stack.mkS true 1 1 3 (Slice.fresh 3) true false 0 false false false)
    = (s', tr, None) /\
    worked tr = [itemC; itemB; itemA] /\ Stack.buffer s' = [].
Proof.
  assert (Hroom : Z.of_nat 3 <= 3) by lia.
  assert (Hc : (1 <= 1)%Z) by lia.
  assert (Hr : GoInt.in_range 1) by (split; vm_compute; discriminate).
  exact (stack_serves_newest_first [itemA; itemB; itemC]
           (Stack.mkS true 1 1 3 (Slice.fresh 3) true false 0 false false false)
           eq_refl eq_refl eq_refl Hroom eq_refl Hc Hr).
Defined.


Lemma empty_discards_only_the_buffer_witness :
  exists q' tr,
    Queue.run (Queue.EmptyOp :: map Queue.PutOp [itemD; itemA; itemB]) queue_ABC
    = (q', tr, None) /\
    Queue.buffer q' = [itemD; itemA; itemB] /\ overloads tr = [] /\
    Queue.OverloadCount q' = Queue.OverloadCount queue_ABC /\
    Queue.started q' = Queue.started queue_ABC /\ Queue.draining q' = false /\
    Queue.availableWorkers q' = Queue.availableWorkers queue_ABC.
Proof.
  assert (Hroom : Z.of_nat (length [itemD; itemA; itemB]) <= Queue.depth queue_ABC)
    by (vm_compute; discriminate).
  assert (Hcap : Queue.depth queue_ABC <= max_cap) by (vm_compute; discriminate).
  exact (proj2 (proj2 (empty_discards_only_the_buffer queue_ABC [itemD; itemA; itemB]))
           eq_refl Hroom Hcap).
Defined.

Lemma constructors_check_sizes_and_start_checks_worker_witness :
  Queue.NewPushQueue 1 3 false
  = Ok (Queue.mkQ false 1 1 3 (Slice.fresh 3) false false 0 false false false false) /\
  is_panic (Queue.Start
              (Queue.mkQ false 1 1 3 (Slice.fresh 3) false false 0 false false false false))
  = true.
Proof.
  assert (Hc : 1 <= 1) by lia.
  assert (Hd : 1 <= 3 <= max_cap) by (split; vm_compute; discriminate).
  pose proof (proj1 (proj1 (proj2 (proj2 (proj2 (proj2
             (@constructors_check_sizes_and_start_checks_worker demo 1 3 1 false)))))
             Hc Hd)) as Hnew.
  split; [exact Hnew|].
  destruct (proj1 (proj2 (proj2 (proj2 (proj2 (proj2
             (@constructors_check_sizes_and_start_checks_worker demo 1 3 1 false))))))
             _ Hnew) as (_ & _ & _ & _ & HS).
  exact HS.
Defined.


Lemma queue_Drain_idle_fires_once_witness :
  drained (Queue.Drain (Queue.OnDrained true
             (Queue.mkQ true 1 1 3 (Slice.fresh 3) true false 0 false false false false))).2
  = 1%nat.
Proof.
  exact (proj1 (queue_Drain_idle_fires_once
           (Queue.OnDrained true
              (Queue.mkQ true 1 1 3 (Slice.fresh 3) true false 0 false false false false))
           eq_refl eq_refl eq_refl)).
Defined.

Lemma queue_drain_cycle_fires_at_most_once_witness :
  (drained (Queue.run [Queue.DrainOp; Queue.CompletedStep; Queue.TakeStep;
                       Queue.CompletedStep] queue_busy).1.2 <= 1)%nat.
Proof.
  destruct (Queue.run [Queue.DrainOp; Queue.CompletedStep; Queue.TakeStep;
                       Queue.CompletedStep] queue_busy) as [[q' tr] p] eqn:Hrun.
  exact (queue_drain_cycle_fires_at_most_once
           [Queue.CompletedStep; Queue.TakeStep; Queue.CompletedStep]
           queue_busy q' tr p eq_refl Hrun).
Defined.

End FurtherExamples.
